(** * video_pillar_crop: detection of black pillar bars and crop computation

    A shallow embedding of [video_pillar_crop.py] and the proofs of its
    specification.  The functions [column_blackness], [analyze_frames],
    [find_pillars] and [to_norm] are transcribed from the Python source:

    - Python [int] is [Z] (or [nat] for lengths and loop counters, which
      the source only ever increments from [0]);
    - Python [float] and NumPy [float64] are IEEE 754 binary64 numbers,
      modelled by the Standard Library's [spec_float] with precision 53
      and maximal exponent 1024, so every rounding of the source is kept;
    - NumPy [int64] additions wrap around modulo [2^64];
    - a Python [int] that meets a [float] or a [float64] array is
      converted to binary64 first, which raises [OverflowError] when it
      is out of range;
    - a raised exception is a value of [exception], and a computation
      that may raise lives in the error monad [result];
    - the two [while] loops of [find_pillars] are one well-founded
      recursion on the distance of the counter to [W].

    Decoding ([ffmpeg], [Image.open(p).convert("L")]) is outside the
    embedding: a frame is the decoded greyscale [image]. *)

From Stdlib Require Import String.
From Stdlib Require Import ZArith List Bool Lia Arith Permutation.
From Stdlib Require Import SpecFloat.
From Equations Require Import Equations.
Import ListNotations.

(** ** Python exceptions and the error monad *)

Inductive exception : Type :=
| TypeError
| ValueError
| OverflowError
| ZeroDivisionError
| RuntimeError (msg : string).

(** The name of the class of an exception, as [type(e).__name__]. *)
Definition exception_name (e : exception) : string :=
  match e with
  | TypeError => "TypeError"%string
  | ValueError => "ValueError"%string
  | OverflowError => "OverflowError"%string
  | ZeroDivisionError => "ZeroDivisionError"%string
  | RuntimeError _ => "RuntimeError"%string
  end.

Inductive result (A : Type) : Type :=
| Ok (a : A)
| Raised (e : exception).

Arguments Ok {A} a.
Arguments Raised {A} e.

Definition bind {A B : Type} (c : result A) (k : A -> result B) : result B :=
  match c with
  | Ok a => k a
  | Raised e => Raised e
  end.

Notation "x <- c ;; k" := (bind c (fun x => k))
  (at level 61, c at next level, right associativity).

(** [for x in xs: st = body(st, x)], stopping at the first exception. *)
Fixpoint for_each {S X : Type} (body : S -> X -> result S) (xs : list X) (st : S)
  : result S :=
  match xs with
  | [] => Ok st
  | x :: rest => st' <- body st x ;; for_each body rest st'
  end.

(** ** IEEE 754 binary64 arithmetic, as Python and NumPy use it *)

Module Float64.

Definition prec : Z := 53.
Definition emax : Z := 1024.

Definition float : Type := spec_float.

Definition zero : float := S754_zero false.
Definition add : float -> float -> float := SFadd prec emax.
Definition mul : float -> float -> float := SFmul prec emax.
Definition div : float -> float -> float := SFdiv prec emax.
Definition leb : float -> float -> bool := SFleb.
Definition valid : float -> bool := valid_binary prec emax.

(** The binary64 number nearest to the integer [n] (ties to even),
    infinite when [n] is out of range. *)
Definition of_Z (n : Z) : float := binary_normalize prec emax n 0 false.

(** The rounding to nearest, ties to even, of the quotient [a / b] of
    two positive integers. *)
Definition div_pos (s : bool) (a b : Z) : float :=
  let '(mz, ez, lz) := SFdiv_core_binary prec emax a 0 b 0 in
  binary_round_aux prec emax s mz ez lz.

End Float64.

Definition float : Type := Float64.float.

(** [float(n)] for a Python [int], as the [float * int] operator
    converts its integer operand. *)
Definition float_of_int (n : Z) : result float :=
  match Float64.of_Z n with
  | S754_infinity _ => Raised OverflowError
  | f => Ok f
  end.

(** [x * n] for a [float] [x] and an [int] [n]. *)
Definition float_mul_int (x : float) (n : Z) : result float :=
  f <- float_of_int n ;; Ok (Float64.mul x f).

(** [a / b] for two [int]s: the correctly rounded quotient. *)
Definition int_truediv (a b : Z) : result float :=
  if (b =? 0)%Z then Raised ZeroDivisionError
  else if (a =? 0)%Z then Ok (S754_zero (b <? 0)%Z)
  else
    match Float64.div_pos (xorb (a <? 0)%Z (b <? 0)%Z) (Z.abs a) (Z.abs b) with
    | S754_infinity _ => Raised OverflowError
    | f => Ok f
    end.

(** [math.ceil(x)]. *)
Definition math_ceil (x : float) : result Z :=
  match x with
  | S754_nan => Raised ValueError
  | S754_infinity _ => Raised OverflowError
  | S754_zero _ => Ok 0%Z
  | S754_finite s m e =>
      let num := cond_Zopp s (Zpos m) in
      Ok (if (0 <=? e)%Z then num * 2 ^ e else - (- num / 2 ^ (- e)))%Z
  end.

(** The integer nearest to [a / b], ties to even ([0 <= a], [0 < b]). *)
Definition div_nearest_even (a b : Z) : Z :=
  let q := (a / b)%Z in
  match (2 * (a mod b) ?= b)%Z with
  | Lt => q
  | Eq => if Z.even q then q else (q + 1)%Z
  | Gt => (q + 1)%Z
  end.

(** [round(x, ndigits)] for a [float] [x] and [0 <= ndigits]: the exact
    value of [x] is rounded to [ndigits] decimals, ties to even, and the
    decimal is read back as the nearest binary64 number. *)
Definition float_round (x : float) (ndigits : Z) : float :=
  match x with
  | S754_finite s m e =>
      let p := (10 ^ ndigits)%Z in
      let k := if (0 <=? e)%Z then (Zpos m * 2 ^ e * p)%Z
               else div_nearest_even (Zpos m * p) (2 ^ (- e)) in
      if (k =? 0)%Z then S754_zero s else Float64.div_pos s k p
  | _ => x
  end.

(** ** NumPy arrays of the analysis *)

(** A decoded greyscale frame (mode ["L"]): [pixels] lists the [height]
    rows, each holding [width] samples. *)
Record image : Type := {
  width : nat;
  height : nat;
  pixels : list (list Z)
}.

Definition wf_image (img : image) : Prop :=
  length (pixels img) = height img /\
  Forall (fun row => length row = width img /\ Forall (fun v => 0 <= v < 256)%Z row)
         (pixels img).

(** The cast of [dtype=np.uint8]. *)
Definition uint8 (v : Z) : Z := (v mod 256)%Z.

(** The wrap-around of [int64]. *)
Definition int64 (v : Z) : Z := ((v + 2 ^ 63) mod 2 ^ 64 - 2 ^ 63)%Z.

(** [np.array(img, dtype=np.uint8)], of shape [(height, width)]. *)
Definition np_array (img : image) : list (list Z) :=
  map (map uint8) (pixels img).

(** Column [i] of a two-dimensional array. *)
Definition column (arr : list (list Z)) (i : nat) : list Z :=
  map (fun row => nth i row 0%Z) arr.

(** The mean of column [i]: the column is summed in [float64], row
    after row, and the sum is divided by the row count. *)
Definition column_mean (arr : list (list Z)) (i : nat) : float :=
  Float64.div
    (fold_left Float64.add (map Float64.of_Z (column arr i)) Float64.zero)
    (Float64.of_Z (Z.of_nat (length arr))).

(** [arr.mean(axis=0)] for an array of [ncols] columns. *)
Definition mean_axis0 (ncols : nat) (arr : list (list Z)) : list float :=
  map (column_mean arr) (seq 0 ncols).

(** [bw.astype(int)]. *)
Definition astype_int (bw : list bool) : list Z :=
  map (fun b : bool => if b then 1%Z else 0%Z) bw.

(** [counts += delta] on [int64] arrays of the same shape. *)
Definition iadd (counts delta : list Z) : list Z :=
  map (fun cd => int64 (fst cd + snd cd)) (combine counts delta).

(** ** The program *)

(** [means <= threshold] compares a [float64] array with a Python
    [int]: NumPy converts the [int] to [float64] first, and raises
    [OverflowError] when it is out of the range of binary64. *)
Definition column_blackness (img : image) (threshold : Z)
  : result (list bool * list float) :=
  let arr := np_array img in
  let means := mean_axis0 (width img) arr in
  thr <- float_of_int threshold ;;
  Ok (map (fun m => Float64.leb m thr) means, means).

(** What the first frame binds: [counts], [width] and [height]. *)
Record first_frame : Type := {
  ff_counts : list Z;
  ff_width : nat;
  ff_height : nat
}.

(** The variables of the loop of [analyze_frames]; [ls_first] is [None]
    while [counts is None]. *)
Record loop_state : Type := {
  ls_first : option first_frame;
  ls_col_means_store : list (list float);
  ls_n : Z
}.

Definition loop_init : loop_state :=
  {| ls_first := None; ls_col_means_store := []; ls_n := 0 |}.

Definition widths_vary : string := "Extracted frame widths vary; unexpected."%string.

(** One iteration of [for p in frames]. *)
Definition loop_body (threshold : Z) (st : loop_state) (img : image)
  : result loop_state :=
  r <- column_blackness img threshold ;;
  let '(bw, means) := r in
  let store := ls_col_means_store st ++ [means] in
  first <-
    match ls_first st with
    | None =>
        Ok {| ff_counts := astype_int bw;
              ff_width := width img;
              ff_height := height img |}
    | Some ff =>
        if negb (width img =? ff_width ff)
        then Raised (RuntimeError widths_vary)
        else Ok {| ff_counts := iadd (ff_counts ff) (astype_int bw);
                   ff_width := ff_width ff;
                   ff_height := ff_height ff |}
    end ;;
  Ok {| ls_first := Some first;
        ls_col_means_store := store;
        ls_n := ls_n st + 1 |}.

Record analysis : Type := {
  n_frames : Z;
  a_width : nat;
  a_height : nat;
  counts : list Z;
  black_cols : list bool;
  col_means : list (list float)
}.

(** [math.ceil(frame_pct * n)]. *)
Definition required_count (frame_pct : float) (n : Z) : result Z :=
  prod <- float_mul_int frame_pct n ;; math_ceil prod.

Definition analyze_frames (frames : list image) (threshold : Z) (frame_pct : float)
  : result analysis :=
  st <- for_each (loop_body threshold) frames loop_init ;;
  required <- required_count frame_pct (ls_n st) ;;
  match ls_first st with
  | None => Raised TypeError
  | Some ff =>
      Ok {| n_frames := ls_n st;
            a_width := ff_width ff;
            a_height := ff_height ff;
            counts := ff_counts ff;
            black_cols := map (fun c => (required <=? c)%Z) (ff_counts ff);
            col_means := ls_col_means_store st |}
  end.

(** [while k < W and test(k): k += 1], returning the final [k]. *)
Equations? count_while (test : nat -> bool) (W k : nat) : nat by wf (W - k) lt :=
  count_while test W k with lt_dec k W := {
    | left _ with test k := {
      | true => count_while test W (k + 1);
      | false => k };
    | right _ => k }.
Proof. lia. Qed.

Definition find_pillars (black_cols_bool : list bool) : nat * nat :=
  let W := length black_cols_bool in
  let left := count_while (fun left => nth left black_cols_bool false) W 0 in
  let right := count_while (fun right => nth (W - 1 - right) black_cols_bool false) W 0 in
  let left := Nat.min left (W / 2) in
  let right := Nat.min right (W / 2) in
  (left, right).

Record crop : Type := {
  x : Z; y : Z; w : Z; h : Z;
  nx : float; ny : float; nw : float; nh : float
}.

Definition to_norm (left right W H : Z) : result crop :=
  let x := left in
  let y := 0%Z in
  let w := Z.max 0 (W - left - right) in
  let h := H in
  qx <- int_truediv x W ;;
  qy <- int_truediv y H ;;
  qw <- int_truediv w W ;;
  qh <- int_truediv h H ;;
  Ok {| x := x; y := y; w := w; h := h;
        nx := float_round qx 6;
        ny := float_round qy 6;
        nw := float_round qw 6;
        nh := float_round qh 6 |}.

(** The JSON document that [main] writes to the standard output. *)
Record report : Type := {
  video_size_used_for_analysis : nat * nat;
  n_sampled_frames : Z;
  left_pillar_px : nat;
  right_pillar_px : nat;
  pillar_percent_left : float;
  pillar_percent_right : float;
  report_crop : crop
}.

Inductive outcome : Type :=
| Exit (status : Z)
| Printed (out : report).

(** The part of [main] that follows the extraction of the frames, from
    the test [len(frames) == 0] to the writing of the JSON document to
    the standard output: [frames] is what [run_ffmpeg_extract_frames]
    returned, [Exit 3] is [sys.exit(3)] on an empty frame list, and
    [Exit 5] is the handler of [except Exception].  The checks before
    it (a missing video, status 2; a failing [ffmpeg], status 4) and
    the writing of the [.crop.json] file after it are not part of the
    embedding. *)
Definition main (frames : list image) (threshold : Z) (frame_pct : float) : outcome :=
  if length frames =? 0 then Exit 3
  else
    match
      (a <- analyze_frames frames threshold frame_pct ;;
       let pillars := find_pillars (black_cols a) in
       let left := fst pillars in
       let right := snd pillars in
       let W := Z.of_nat (a_width a) in
       let H := Z.of_nat (a_height a) in
       c <- to_norm (Z.of_nat left) (Z.of_nat right) W H ;;
       pl <- int_truediv (Z.of_nat left) W ;;
       pr <- int_truediv (Z.of_nat right) W ;;
       Ok {| video_size_used_for_analysis := (a_width a, a_height a);
             n_sampled_frames := n_frames a;
             left_pillar_px := left;
             right_pillar_px := right;
             pillar_percent_left := float_round pl 6;
             pillar_percent_right := float_round pr 6;
             report_crop := c |})
    with
    | Ok out => Printed out
    | Raised _ => Exit 5
    end.

(** ** Specification-side notions *)

(** The length of the longest all-black prefix of a column vector. *)
Fixpoint black_prefix (cols : list bool) : nat :=
  match cols with
  | true :: rest => S (black_prefix rest)
  | _ => 0
  end.

(** [n] is the length of the maximal run of black columns read from
    index [0] through [at_index]: the run is black, and it is stopped by
    the end of the vector or by a column that is not black. *)
Definition maximal_run (cols : list bool) (at_index : nat -> nat) (n : nat) : Prop :=
  n <= length cols /\
  (forall i, i < n -> nth (at_index i) cols false = true) /\
  (n < length cols -> nth (at_index n) cols false = false).

(** The comparison of the binary64 mean of column [i] with the
    threshold, once the threshold is converted. *)
Definition flag_at (threshold : Z) (img : image) (i : nat) : bool :=
  Float64.leb (column_mean (np_array img) i) (Float64.of_Z threshold).

(** The number of frames that flag column [i] black. *)
Definition black_frames (threshold : Z) (frames : list image) (i : nat) : nat :=
  length (filter (fun img => flag_at threshold img i) frames).

(** The specification's BlackCounts for [ncols] columns. *)
Definition black_counts (threshold : Z) (frames : list image) (ncols : nat) : list Z :=
  map (fun i => Z.of_nat (black_frames threshold frames i)) (seq 0 ncols).

(** *** Exact values *)

Section ExactValues.

Local Open Scope Z_scope.

(** The number of rows of the array of a frame. *)
Definition rows (img : image) : Z := Z.of_nat (length (pixels img)).

(** The exact sum of the samples of column [i] of a frame. *)
Definition column_sum (img : image) (i : nat) : Z :=
  fold_right Z.add 0 (column (np_array img) i).

(** Whether the mean brightness of column [i], the exact quotient of
    the sum of its samples by their number, is at most [threshold]; a
    frame without rows has no mean. *)
Definition mean_le (threshold : Z) (img : image) (i : nat) : bool :=
  (1 <=? rows img) && (column_sum img i <=? threshold * rows img).

(** The number of frames in which the mean brightness of column [i] is
    at most [threshold]. *)
Definition dark_frames (threshold : Z) (frames : list image) (i : nat) : nat :=
  length (filter (fun img => mean_le threshold img i) frames).

(** [x <= r], for a float [x] that is zero or finite and an integer
    [r], on the exact value of [x]. *)
Definition float_le_Z (x : float) (r : Z) : Prop :=
  match x with
  | S754_zero _ => 0 <= r
  | S754_finite s m e =>
      if 0 <=? e then cond_Zopp s (Z.pos m) * 2 ^ e <= r
      else cond_Zopp s (Z.pos m) <= r * 2 ^ (- e)
  | _ => False
  end.

(** [r] is the ceiling of [x]: the least integer that is not below. *)
Definition is_ceiling (x : float) (r : Z) : Prop :=
  float_le_Z x r /\ ~ float_le_Z x (r - 1).

(** [n] is the integer nearest to [num / den], ties to even. *)
Definition nearest_even (n num den : Z) : Prop :=
  2 * Z.abs (num - n * den) <= den /\
  (2 * Z.abs (num - n * den) = den -> Z.even n = true).

(** [f] is the float of the value [n * 2 ^ e], for [0 <= n]: [+0.0], or
    a positive mantissa at an exponent that is not below [e]. *)
Definition float_value (f : float) (n e : Z) : Prop :=
  match f with
  | S754_zero false => n = 0
  | S754_finite false m e' => e <= e' /\ Z.pos m * 2 ^ (e' - e) = n
  | _ => False
  end.

(** [f] is the binary64 rounding of [a / b], for [0 <= a <= b]:
    [+0.0] for [a = 0]; else, with [2 ^ (- j) <= a / b < 2 ^ (1 - j)],
    the multiple [n * 2 ^ e] of the unit [2 ^ e] of that binade,
    [e = max(-52 - j, -1074)], with [n] the integer nearest to
    [(a / b) / 2 ^ e], ties to even, in its canonical representation. *)
Definition rounded_quotient (a b : Z) (f : float) : Prop :=
  Float64.valid f = true /\
  if a =? 0 then f = S754_zero false
  else
    exists j e n : Z,
      0 <= j /\ b <= a * 2 ^ j < 2 * b /\
      e = Z.max (-52 - j) (-1074) /\
      nearest_even n (a * 2 ^ (- e)) b /\
      float_value f n e.

(** [k] is the integer nearest to [10 ^ 6 * q], ties to even, for a
    float [q] of the value [n * 2 ^ e]. *)
Definition six_decimals (q : float) (k : Z) : Prop :=
  exists n e : Z,
    e <= 0 /\ float_value q n e /\ nearest_even k (n * 10 ^ 6) (2 ^ (- e)).

(** [f] is [round(a / b, 6)], for [0 <= a <= b]: the binary64
    quotient [q] of [a] by [b] is rounded to the [k] millionths nearest
    to it, and [f] is the binary64 number nearest to [k / 10 ^ 6]. *)
Definition normalized (a b : Z) (f : float) : Prop :=
  exists (q : float) (k : Z),
    rounded_quotient a b q /\ six_decimals q k /\
    0 <= k <= 10 ^ 6 /\ rounded_quotient k (10 ^ 6) f.

End ExactValues.

(** ** Auxiliary definitions of the proofs *)

(** The thresholds that [float64] holds. *)
Definition threshold_converts (threshold : Z) : Prop :=
  float_of_int threshold = Ok (Float64.of_Z threshold).

(** The counts after the frames [pre], on [ncols] columns, in [int64]. *)
Definition counts_after (threshold : Z) (ncols : nat) (c0 : list Z) (pre : list image)
  : list Z :=
  fold_left
    (fun c img => iadd c (astype_int (map (flag_at threshold img) (seq 0 ncols))))
    pre c0.

Section RoundingDefinitions.

Local Open Scope Z_scope.

(** The record reached from the exact mantissa [M] after [n] shifts:
    the quotient by [2 ^ n], the last bit shifted out and whether any
    bit before it was set. *)
Definition shr_spec (M n : Z) : shr_record :=
  if n =? 0 then {| shr_m := M; shr_r := false; shr_s := false |}
  else {| shr_m := M / 2 ^ n;
          shr_r := Z.odd (M / 2 ^ (n - 1));
          shr_s := negb (M mod 2 ^ (n - 1) =? 0) |}.

(** The record reached after [n] shifts from the quotient of [A] by
    [b] and the location of its remainder: the quotient by [b * 2 ^ n],
    whether the remainder is at least half of it, and whether it is
    neither zero nor that half. *)
Definition shr_ratio (A b n : Z) : shr_record :=
  let B := b * 2 ^ n in
  {| shr_m := A / B;
     shr_r := B <=? 2 * (A mod B);
     shr_s := negb (2 * (A mod B) mod B =? 0) |}.

(** The amount by which a mantissa [M] at exponent [e] is shifted. *)
Definition shift_amount (M e : Z) : Z :=
  Z.max 0 (fexp Float64.prec Float64.emax (Zdigits2 M + e) - e).

(** How [binary_round_aux] packs a mantissa and an exponent. *)
Definition pack (s : bool) (m e : Z) : float :=
  match m with
  | Z0 => S754_zero s
  | Zpos p =>
      if e <=? Float64.emax - Float64.prec then S754_finite s p e
      else S754_infinity s
  | Zneg _ => S754_nan
  end.

(** The binary64 rounding of the positive number [V * 2 ^ E0], in units
    of [2 ^ E0]. *)
Definition round_scaled (E0 V : Z) : Z :=
  let k := shift_amount V E0 in
  div_nearest_even V (2 ^ k) * 2 ^ k.

(** The ceiling of [X * 2 ^ E0]. *)
Definition ceil_scaled (E0 X : Z) : Z :=
  if 0 <=? E0 then X * 2 ^ E0 else - (- X / 2 ^ (- E0)).

(** The value of a float that is zero or finite, in units of [2 ^ B]. *)
Definition scaled_value (B : Z) (p : float) : Z :=
  match p with
  | S754_finite s m e => cond_Zopp s (Z.pos m * 2 ^ (e - B))
  | _ => 0
  end.

(** Whether [B] is below the exponent of [p]. *)
Definition below_exponent (B : Z) (p : float) : Prop :=
  match p with
  | S754_finite _ _ e => B <= e
  | _ => True
  end.

(** The rounded product of [X * 2 ^ (E0 - en)] by the mantissa [mn] at
    exponent [en], in units of [2 ^ E0]. *)
Definition round_product (E0 mn X : Z) : Z :=
  Z.sgn X * round_scaled E0 (Z.abs X * mn).

End RoundingDefinitions.

(** The binary64 number [1.0]. *)
Definition one : float := S754_finite false 4503599627370496 (-52).

(** Whether a float lies between [0.0] and [1.0]. *)
Definition in_unit_interval (f : float) : Prop :=
  Float64.leb Float64.zero f = true /\ Float64.leb f one = true.

(** A float that is [+0.0], or positive with an exponent of at most
    [-52] and a value of at most [1]. *)
Definition unit_form (f : float) : Prop :=
  f = S754_zero false \/
  exists m e, f = S754_finite false m e /\ (e <= -52)%Z /\ (Z.pos m <= 2 ^ (- e))%Z.

(** ** Sample inputs *)

(** The binary64 number written [0.9], the default [--frame-pct]. *)
Definition nine_tenths : float := S754_finite false 8106479329266893 (-53).

(** The binary64 number [0.5]. *)
Definition one_half : float := S754_finite false 4503599627370496 (-53).

(** A frame of [w] columns and [h] rows of one brightness. *)
Definition uniform_frame (v : Z) (w h : nat) : image :=
  {| width := w; height := h; pixels := repeat (repeat v w) h |}.

Definition sample_dark : image := uniform_frame 3 3 2.
Definition sample_bright : image :=
  {| width := 3; height := 1; pixels := [[0; 200; 17]%Z] |}.
Definition sample_wide : image := uniform_frame 0 4 2.
(** A frame of five columns with one black column at each edge. *)
Definition pillarboxed : image :=
  {| width := 5; height := 2;
     pixels := [[0; 90; 120; 200; 0]%Z; [0; 80; 130; 210; 0]%Z] |}.
Definition frame_800 : image := uniform_frame 0 800 1.
Definition frame_801 : image := uniform_frame 0 801 1.

(** * Proofs *)

(** ** The edge scans of [find_pillars] *)

Lemma count_while_stop (test : nat -> bool) W k :
  W <= k -> count_while test W k = k.
Proof.
  intros Hk. rewrite count_while_equation_1.
  destruct (lt_dec k W) as [Hlt | Hn]; [lia | reflexivity].
Qed.

Lemma count_while_false (test : nat -> bool) W k :
  test k = false -> count_while test W k = k.
Proof.
  intros Hk. rewrite count_while_equation_1.
  destruct (lt_dec k W) as [Hlt | Hn]; cbn; [ | reflexivity].
  rewrite Hk. reflexivity.
Qed.

Lemma count_while_true (test : nat -> bool) W k :
  k < W -> test k = true -> count_while test W k = count_while test W (k + 1).
Proof.
  intros Hlt Hk. rewrite (count_while_equation_1 test W k).
  destruct (lt_dec k W) as [Hl | Hn]; cbn; [ | lia].
  rewrite Hk. reflexivity.
Qed.

(** The loop counter only grows, stays within [W], passes only black
    columns and stops on the first one that is not. *)
Lemma count_while_spec (test : nat -> bool) W k :
  k <= W ->
  k <= count_while test W k <= W /\
  (forall i, k <= i < count_while test W k -> test i = true) /\
  (count_while test W k < W -> test (count_while test W k) = false).
Proof.
  funelim (count_while test W k); intros Hle.
  - repeat split; intros; lia.
  - destruct H as (Hb & Hrun & Hend); [lia | ].
    repeat split; try lia.
    + intros i Hi. destruct (Nat.eq_dec i k) as [-> | Hne]; [assumption | ].
      apply Hrun. lia.
    + exact Hend.
  - repeat split; intros; try lia. assumption.
Qed.

Lemma count_while_ext (f g : nat -> bool) W k :
  (forall i, i < W -> f i = g i) -> count_while f W k = count_while g W k.
Proof.
  intros Hfg. funelim (count_while f W k).
  - rewrite count_while_stop by lia. reflexivity.
  - rewrite (count_while_true g) by (rewrite <- ?Hfg; assumption).
    apply H. assumption.
  - rewrite count_while_false by (rewrite <- Hfg; assumption). reflexivity.
Qed.

Lemma count_while_prefix (cols : list bool) k :
  k <= length cols ->
  count_while (fun i => nth i cols false) (length cols) k
  = k + black_prefix (skipn k cols).
Proof.
  remember (length cols - k) as d eqn:Hd.
  revert k Hd. induction d as [ | d IH]; intros k Hd Hk.
  - rewrite count_while_stop by lia.
    rewrite skipn_all2 by lia. cbn. lia.
  - assert (Hlt : k < length cols) by lia.
    destruct (skipn k cols) as [ | b rest] eqn:Hs.
    + apply (f_equal (@length bool)) in Hs. rewrite length_skipn in Hs. cbn in Hs. lia.
    + assert (Hb : nth k cols false = b).
      { rewrite <- (firstn_skipn k cols) at 1. rewrite app_nth2; rewrite length_firstn.
        - replace (k - Nat.min k (length cols)) with 0 by lia. rewrite Hs. reflexivity.
        - lia. }
      assert (Hrest : skipn (k + 1) cols = rest).
      { rewrite Nat.add_comm, <- skipn_skipn, Hs. reflexivity. }
      destruct b.
      * rewrite count_while_true by assumption.
        rewrite IH by lia. rewrite Hrest. cbn. lia.
      * rewrite count_while_false by assumption. cbn. lia.
Qed.

Lemma black_prefix_le cols : black_prefix cols <= length cols.
Proof.
  induction cols as [ | [ | ] rest IH]; cbn; lia.
Qed.

Lemma black_prefix_all cols :
  Forall (fun b => b = true) cols -> black_prefix cols = length cols.
Proof.
  induction 1 as [ | b rest Hb _ IH]; [reflexivity | ].
  subst b. cbn. rewrite IH. reflexivity.
Qed.

Lemma count_while_suffix (cols : list bool) :
  count_while (fun i => nth (length cols - 1 - i) cols false) (length cols) 0
  = black_prefix (rev cols).
Proof.
  rewrite (count_while_ext _ (fun i => nth i (rev cols) false)).
  - pose proof (count_while_prefix (rev cols) 0 (Nat.le_0_l _)) as H.
    rewrite length_rev in H. exact H.
  - intros i Hi. rewrite rev_nth by assumption. f_equal. lia.
Qed.

Lemma find_pillars_runs cols :
  find_pillars cols =
  (Nat.min (black_prefix cols) (length cols / 2),
   Nat.min (black_prefix (rev cols)) (length cols / 2)).
Proof.
  unfold find_pillars. rewrite count_while_suffix.
  rewrite count_while_prefix by lia. reflexivity.
Qed.

Lemma half_plus_half (n : nat) : n / 2 + n / 2 <= n.
Proof.
  pose proof (Nat.div_mod_eq n 2). lia.
Qed.

Lemma count_while_maximal_run cols (at_index : nat -> nat) :
  maximal_run cols at_index
    (count_while (fun i => nth (at_index i) cols false) (length cols) 0).
Proof.
  destruct (count_while_spec (fun i => nth (at_index i) cols false)
              (length cols) 0 (Nat.le_0_l _)) as (Hb & Hrun & Hend).
  repeat split.
  - lia.
  - intros i Hi. apply Hrun. lia.
  - exact Hend.
Qed.

Lemma maximal_run_unique cols at_index n m :
  maximal_run cols at_index n -> maximal_run cols at_index m -> n = m.
Proof.
  intros (Hn & Hrn & Hen) (Hm & Hrm & Hem).
  destruct (Nat.lt_trichotomy n m) as [Hlt | [Heq | Hgt]]; [ | exact Heq | ].
  - specialize (Hrm n Hlt). rewrite Hen in Hrm by lia. discriminate.
  - specialize (Hrn m Hgt). rewrite Hem in Hrn by lia. discriminate.
Qed.

(** ** C1: the cap at half the width *)

Lemma find_pillars_le_half cols :
  fst (find_pillars cols) <= length cols / 2 /\
  snd (find_pillars cols) <= length cols / 2.
Proof.
  rewrite find_pillars_runs. cbn [fst snd]. lia.
Qed.

(** C1.  For every boolean column vector of length [W], [find_pillars]
    returns widths [(leftPx, rightPx)] with [0 <= leftPx <= W // 2] and
    [0 <= rightPx <= W // 2], hence [leftPx + rightPx <= W] and the crop
    width [W - leftPx - rightPx] is not negative; for an all-black vector
    it returns exactly [(W // 2, W // 2)]. *)
Theorem find_pillars_cap (cols : list bool) :
  let W := length cols in
  let leftPx := fst (find_pillars cols) in
  let rightPx := snd (find_pillars cols) in
  ((0 <= Z.of_nat leftPx <= Z.of_nat W / 2)%Z /\
   (0 <= Z.of_nat rightPx <= Z.of_nat W / 2)%Z /\
   leftPx + rightPx <= W /\
   (0 <= Z.of_nat W - Z.of_nat leftPx - Z.of_nat rightPx)%Z) /\
  (Forall (fun b => b = true) cols -> find_pillars cols = (W / 2, W / 2)).
Proof.
  cbv zeta. rewrite find_pillars_runs. cbn [fst snd].
  pose proof (half_plus_half (length cols)) as Hhalf.
  pose proof (black_prefix_le cols) as Hl.
  pose proof (black_prefix_le (rev cols)) as Hr.
  rewrite length_rev in Hr.
  replace (Z.of_nat (length cols) / 2)%Z with (Z.of_nat (length cols / 2))
    by (rewrite Nat2Z.inj_div; reflexivity).
  split; [repeat split; lia | ].
  intros Hall.
  rewrite (black_prefix_all _ Hall).
  rewrite black_prefix_all by (apply Forall_rev; exact Hall).
  rewrite length_rev.
  pose proof (Nat.Div0.div_le_upper_bound (length cols) 2 (length cols)).
  f_equal; apply Nat.min_r; lia.
Qed.

Lemma find_pillars_cap_witness :
  find_pillars [true; true; true; true; true] = (2, 2).
Proof.
  apply (proj2 (find_pillars_cap [true; true; true; true; true])).
  repeat constructor.
Defined.

(** ** C2: the pillars are the edge-anchored runs *)

(** C2.  For every boolean column vector, the raw left width is the
    length of the maximal run of consecutive black columns starting at
    index [0] and the raw right width the length of the maximal run
    ending at index [W - 1], each then capped at [W // 2]; a column [0]
    that is not black gives a left width of [0] and a column [W - 1] that
    is not black a right width of [0], whatever lies between them, and
    the empty vector yields [(0, 0)]. *)
Theorem find_pillars_edge_runs (cols : list bool) :
  let W := length cols in
  let L := black_prefix cols in
  let R := black_prefix (rev cols) in
  find_pillars cols = (Nat.min L (W / 2), Nat.min R (W / 2)) /\
  maximal_run cols (fun i => i) L /\
  (forall n, maximal_run cols (fun i => i) n -> n = L) /\
  maximal_run cols (fun i => W - 1 - i) R /\
  (forall n, maximal_run cols (fun i => W - 1 - i) n -> n = R) /\
  (nth 0 cols false = false -> fst (find_pillars cols) = 0) /\
  (nth (W - 1) cols false = false -> snd (find_pillars cols) = 0) /\
  find_pillars [] = (0, 0).
Proof.
  cbv zeta.
  assert (HL : maximal_run cols (fun i => i) (black_prefix cols)).
  { pose proof (count_while_maximal_run cols (fun i => i)) as H.
    rewrite count_while_prefix in H by lia. exact H. }
  assert (HR : maximal_run cols (fun i => length cols - 1 - i) (black_prefix (rev cols))).
  { pose proof (count_while_maximal_run cols (fun i => length cols - 1 - i)) as H.
    rewrite count_while_suffix in H. exact H. }
  split; [apply find_pillars_runs | ].
  split; [exact HL | ].
  split; [intros n Hn; exact (maximal_run_unique _ _ _ _ Hn HL) | ].
  split; [exact HR | ].
  split; [intros n Hn; exact (maximal_run_unique _ _ _ _ Hn HR) | ].
  rewrite find_pillars_runs. cbn [fst snd].
  split; [ | split; [ | reflexivity]].
  - intros H0. destruct HL as (_ & Hrun & _).
    destruct (black_prefix cols) as [ | n]; [reflexivity | ].
    rewrite (Hrun 0) in H0 by lia. discriminate.
  - intros H0. destruct HR as (_ & Hrun & _).
    destruct (black_prefix (rev cols)) as [ | n]; [reflexivity | ].
    specialize (Hrun 0 (Nat.lt_0_succ n)). rewrite Nat.sub_0_r in Hrun.
    rewrite Hrun in H0. discriminate.
Qed.

Lemma find_pillars_edge_runs_witness :
  fst (find_pillars [false; true; true; true; true; false; true]) = 0.
Proof.
  apply (find_pillars_edge_runs [false; true; true; true; true; false; true]).
  reflexivity.
Defined.

(** ** Binary64 rounding *)

Local Open Scope Z_scope.

(** *** Number of binary digits *)

Lemma digits2_pos_size p : digits2_pos p = Pos.size p.
Proof.
  induction p as [p IH | p IH | ]; cbn; rewrite ?IH; reflexivity.
Qed.

Lemma Zdigits2_nonneg M : 0 <= Zdigits2 M.
Proof. destruct M; cbn; lia. Qed.

Lemma Zdigits2_bounds M :
  0 < M -> 2 ^ (Zdigits2 M - 1) <= M < 2 ^ Zdigits2 M.
Proof.
  intros HM. destruct M as [ | p | p]; try lia. cbn [Zdigits2].
  rewrite digits2_pos_size.
  pose proof (Pos.size_gt p) as Hgt. pose proof (Pos.size_le p) as Hle.
  apply Pos2Z.pos_lt_pos in Hgt. apply Pos2Z.pos_le_pos in Hle.
  rewrite Pos2Z.inj_pow in Hgt, Hle.
  change (Z.pos p~0) with (2 * Z.pos p) in Hle.
  replace (2 ^ Z.pos (Pos.size p)) with (2 * 2 ^ (Z.pos (Pos.size p) - 1)) in Hle.
  - lia.
  - rewrite <- Z.pow_succ_r by lia. f_equal. lia.
Qed.

Lemma Zdigits2_unique M d :
  0 < M -> 2 ^ (d - 1) <= M < 2 ^ d -> Zdigits2 M = d.
Proof.
  intros HM [Hlo Hhi]. pose proof (Zdigits2_bounds M HM) as [Hlo' Hhi'].
  pose proof (Zdigits2_nonneg M) as Hd.
  assert (0 <= d).
  { destruct (Z_lt_le_dec d 0) as [Hneg | ]; [ | assumption].
    rewrite Z.pow_neg_r in Hhi by assumption. lia. }
  destruct (Z.lt_trichotomy (Zdigits2 M) d) as [Hlt | [Heq | Hgt]]; [ | exact Heq | ].
  - assert (2 ^ Zdigits2 M <= 2 ^ (d - 1)) by (apply Z.pow_le_mono_r; lia). lia.
  - assert (2 ^ d <= 2 ^ (Zdigits2 M - 1)) by (apply Z.pow_le_mono_r; lia). lia.
Qed.

Lemma Zdigits2_shift M k :
  0 < M -> 0 <= k -> Zdigits2 (M * 2 ^ k) = Zdigits2 M + k.
Proof.
  intros HM Hk. pose proof (Zdigits2_bounds M HM) as [Hlo Hhi].
  assert (0 < 2 ^ k) by (apply Z.pow_pos_nonneg; lia).
  assert (0 < Zdigits2 M).
  { destruct M; cbn in *; lia. }
  apply Zdigits2_unique; [nia | ].
  replace (Zdigits2 M + k - 1) with (Zdigits2 M - 1 + k) by lia.
  rewrite !Z.pow_add_r by lia. nia.
Qed.

Lemma Zdigits2_pos M : 0 < M -> 0 < Zdigits2 M.
Proof. destruct M; cbn; lia. Qed.

Lemma Zdigits2_le_pow M k : 0 <= k -> 0 <= M < 2 ^ k -> Zdigits2 M <= k.
Proof.
  intros Hk [H0 HM]. destruct (Z.eq_dec M 0) as [-> | Hne]; [cbn; lia | ].
  pose proof (Zdigits2_bounds M ltac:(lia)) as [Hlo _].
  pose proof (Zdigits2_pos M ltac:(lia)).
  destruct (Z_lt_le_dec k (Zdigits2 M)) as [Hlt | ]; [ | assumption].
  assert (2 ^ k <= 2 ^ (Zdigits2 M - 1)) by (apply Z.pow_le_mono_r; lia). lia.
Qed.

Lemma Zdigits2_mono M M' : 0 < M <= M' -> Zdigits2 M <= Zdigits2 M'.
Proof.
  intros [H0 Hle]. pose proof (Zdigits2_bounds M' ltac:(lia)) as [_ Hhi].
  apply Zdigits2_le_pow; [apply Zdigits2_nonneg | lia].
Qed.

(** *** Rounding an integer quotient to nearest, ties to even *)

Lemma div_nearest_even_bounds a b :
  0 < b -> a / b <= div_nearest_even a b <= a / b + 1.
Proof.
  intros Hb. unfold div_nearest_even.
  destruct (2 * (a mod b) ?= b); [destruct (Z.even (a / b)) | | ]; lia.
Qed.

Lemma div_nearest_even_mono a a' b :
  0 < b -> a <= a' -> div_nearest_even a b <= div_nearest_even a' b.
Proof.
  intros Hb Hle.
  pose proof (Z.div_le_mono a a' b Hb Hle) as Hq.
  pose proof (div_nearest_even_bounds a b Hb) as Ha.
  pose proof (div_nearest_even_bounds a' b Hb) as Ha'.
  destruct (Z.eq_dec (a / b) (a' / b)) as [Heq | Hne]; [ | lia].
  pose proof (Z.div_mod a b ltac:(lia)) as Hda.
  pose proof (Z.div_mod a' b ltac:(lia)) as Hda'.
  assert (Hr : a mod b <= a' mod b) by nia.
  unfold div_nearest_even in *. rewrite <- Heq in *.
  destruct (Z.compare_spec (2 * (a mod b)) b);
    destruct (Z.compare_spec (2 * (a' mod b)) b);
    destruct (Z.even (a / b)); lia.
Qed.

Lemma div_nearest_even_exact q b :
  0 < b -> div_nearest_even (q * b) b = q.
Proof.
  intros Hb. unfold div_nearest_even.
  rewrite Z.div_mul, Z.mod_mul by lia.
  destruct (Z.compare_spec (2 * 0) b); lia.
Qed.

Lemma div_nearest_even_scale a b c :
  0 < b -> 0 < c -> div_nearest_even (a * c) (b * c) = div_nearest_even a b.
Proof.
  intros Hb Hc. unfold div_nearest_even.
  rewrite Z.div_mul_cancel_r by lia.
  rewrite Zmult_mod_distr_r.
  replace (2 * (a mod b * c) ?= b * c) with (2 * (a mod b) ?= b); [reflexivity | ].
  destruct (Z.compare_spec (2 * (a mod b)) b);
    destruct (Z.compare_spec (2 * (a mod b * c)) (b * c)); try reflexivity; nia.
Qed.

(** *** The right shift of [binary_round_aux] *)

Lemma shr_1_eq m r s :
  0 <= m ->
  shr_1 {| shr_m := m; shr_r := r; shr_s := s |}
  = {| shr_m := m / 2; shr_r := Z.odd m; shr_s := r || s |}.
Proof.
  intros Hm. rewrite <- Z.div2_div.
  destruct m as [ | [p | p | ] | p]; try lia; reflexivity.
Qed.

Lemma pow2_pred n : 1 <= n -> 2 ^ n = 2 * 2 ^ (n - 1).
Proof.
  intros Hn. rewrite <- Z.pow_succ_r by lia. f_equal. lia.
Qed.

Lemma mod_pow2_split M n :
  0 <= M -> 1 <= n ->
  M mod 2 ^ n = M mod 2 ^ (n - 1) + 2 ^ (n - 1) * (if Z.odd (M / 2 ^ (n - 1)) then 1 else 0).
Proof.
  intros HM Hn.
  rewrite (pow2_pred n Hn), (Z.mul_comm 2).
  assert (0 < 2 ^ (n - 1)) by (apply Z.pow_pos_nonneg; lia).
  rewrite Z.rem_mul_r by lia. f_equal. f_equal.
  rewrite Zmod_odd. reflexivity.
Qed.

Lemma shr_1_spec M n :
  0 <= M -> 0 <= n -> shr_1 (shr_spec M n) = shr_spec M (n + 1).
Proof.
  intros HM Hn. unfold shr_spec.
  replace (n + 1 =? 0) with false by (symmetry; apply Z.eqb_neq; lia).
  replace (n + 1 - 1) with n by lia.
  destruct (Z.eqb_spec n 0) as [-> | Hne].
  - rewrite shr_1_eq by lia. cbn. rewrite Z.div_1_r, Z.mod_1_r. reflexivity.
  - assert (0 < 2 ^ n) by (apply Z.pow_pos_nonneg; lia).
    assert (0 < 2 ^ (n - 1)) by (apply Z.pow_pos_nonneg; lia).
    rewrite shr_1_eq by (apply Z.div_pos; lia).
    rewrite Z.div_div by lia.
    replace (2 ^ n * 2) with (2 ^ (n + 1))
      by (rewrite Z.pow_add_r by lia; reflexivity).
    f_equal.
    pose proof (mod_pow2_split M n HM ltac:(lia)) as Hsplit.
    pose proof (Z.mod_pos_bound M (2 ^ (n - 1)) ltac:(lia)) as Hb.
    destruct (Z.odd (M / 2 ^ (n - 1))); cbn.
    + symmetry. apply negb_true_iff, Z.eqb_neq. lia.
    + replace (M mod 2 ^ n) with (M mod 2 ^ (n - 1)) by lia. reflexivity.
Qed.

Lemma iter_pos_family {A : Type} (f : A -> A) (P : Z -> A) :
  (forall n, 0 <= n -> f (P n) = P (n + 1)) ->
  forall p n, 0 <= n -> iter_pos f p (P n) = P (n + Z.pos p).
Proof.
  intros Hstep. induction p as [p IH | p IH | ]; intros n Hn; cbn [iter_pos].
  - rewrite Hstep, !IH by lia. f_equal. lia.
  - rewrite !IH by lia. f_equal. lia.
  - apply Hstep. exact Hn.
Qed.

Lemma shr_exact M e n :
  0 <= M ->
  shr (shr_record_of_loc M loc_Exact) e n = (shr_spec M (Z.max 0 n), e + Z.max 0 n).
Proof.
  intros HM. destruct n as [ | p | p]; cbn [shr shr_record_of_loc].
  - rewrite Z.add_0_r. reflexivity.
  - change {| shr_m := M; shr_r := false; shr_s := false |} with (shr_spec M 0).
    rewrite (iter_pos_family shr_1 (shr_spec M)) by (try lia; intros; apply shr_1_spec; lia).
    rewrite Z.max_r by lia. reflexivity.
  - rewrite Z.max_l by lia. rewrite Z.add_0_r. reflexivity.
Qed.

Lemma shr_m_1 mrs : 0 <= shr_m mrs -> shr_m (shr_1 mrs) = shr_m mrs / 2.
Proof.
  destruct mrs as [m r s]. cbn [shr_m]. intros Hm.
  rewrite shr_1_eq by exact Hm. reflexivity.
Qed.

Lemma pow2_xO p : 2 ^ Z.pos p~0 = 2 ^ Z.pos p * 2 ^ Z.pos p.
Proof.
  rewrite <- Z.pow_add_r by lia. f_equal. lia.
Qed.

Lemma pow2_xI p : 2 ^ Z.pos p~1 = 2 * (2 ^ Z.pos p * 2 ^ Z.pos p).
Proof.
  rewrite <- Z.pow_add_r, <- Z.pow_succ_r by lia. f_equal. lia.
Qed.

Lemma shr_m_iter p : forall mrs,
  0 <= shr_m mrs -> shr_m (iter_pos shr_1 p mrs) = shr_m mrs / 2 ^ Z.pos p.
Proof.
  assert (Hhalf : forall m, 0 <= m -> 0 <= m / 2)
    by (intros; apply Z.div_pos; lia).
  assert (Hpow : forall q, 0 < 2 ^ Z.pos q) by (intros; apply Z.pow_pos_nonneg; lia).
  induction p as [p IH | p IH | ]; intros mrs Hm; cbn [iter_pos].
  - assert (H1 : 0 <= shr_m (shr_1 mrs)) by (rewrite shr_m_1; auto).
    assert (H2 : 0 <= shr_m (iter_pos shr_1 p (shr_1 mrs))).
    { rewrite IH by exact H1. apply Z.div_pos; [exact H1 | apply Hpow]. }
    rewrite IH by exact H2. rewrite IH by exact H1. rewrite shr_m_1 by exact Hm.
    pose proof (Hpow p).
    rewrite !Z.div_div by lia. f_equal.
    rewrite pow2_xI. ring.
  - assert (H2 : 0 <= shr_m (iter_pos shr_1 p mrs)).
    { rewrite IH by exact Hm. apply Z.div_pos; [exact Hm | apply Hpow]. }
    rewrite IH by exact H2. rewrite IH by exact Hm.
    pose proof (Hpow p).
    rewrite !Z.div_div by lia. f_equal.
    rewrite pow2_xO. ring.
  - rewrite shr_m_1 by exact Hm. reflexivity.
Qed.

Lemma shr_m_shr mrs e n :
  0 <= shr_m mrs ->
  shr_m (fst (shr mrs e n)) = shr_m mrs / 2 ^ Z.max 0 n /\
  snd (shr mrs e n) = e + Z.max 0 n.
Proof.
  intros Hm. destruct n as [ | p | p]; cbn [shr fst snd].
  - cbn. rewrite Z.div_1_r. lia.
  - rewrite shr_m_iter by exact Hm. rewrite Z.max_r by lia. split; reflexivity.
  - rewrite Z.max_l by lia. cbn. rewrite Z.div_1_r. lia.
Qed.

Lemma shr_m_of_loc m l : shr_m (shr_record_of_loc m l) = m.
Proof. destruct l as [ | [ | | ]]; reflexivity. Qed.

Lemma round_nearest_even_bounds m l :
  m <= round_nearest_even m l <= m + 1.
Proof.
  destruct l as [ | [ | | ]]; cbn [round_nearest_even]; try lia.
  destruct (Z.even m); lia.
Qed.

(** Rounding the shifted record is rounding the quotient to nearest,
    ties to even. *)
Lemma round_shr_spec M n :
  0 <= M -> 0 <= n ->
  round_nearest_even (shr_m (shr_spec M n)) (loc_of_shr_record (shr_spec M n))
  = div_nearest_even M (2 ^ n).
Proof.
  intros HM Hn. unfold shr_spec.
  destruct (Z.eqb_spec n 0) as [-> | Hne].
  - cbn. unfold div_nearest_even. rewrite Z.div_1_r, Z.mod_1_r. reflexivity.
  - assert (Hh : 0 < 2 ^ (n - 1)) by (apply Z.pow_pos_nonneg; lia).
    assert (Hpow : 2 ^ n = 2 * 2 ^ (n - 1)) by (apply pow2_pred; lia).
    pose proof (mod_pow2_split M n HM ltac:(lia)) as Hsplit.
    pose proof (Z.mod_pos_bound M (2 ^ (n - 1)) Hh) as Hb.
    unfold div_nearest_even. cbn [shr_m loc_of_shr_record].
    destruct (Z.odd (M / 2 ^ (n - 1)));
      destruct (Z.eqb_spec (M mod 2 ^ (n - 1)) 0) as [Hz | Hnz];
      cbn [negb round_nearest_even];
      destruct (Z.compare_spec (2 * (M mod 2 ^ n)) (2 ^ n)); try lia; reflexivity.
Qed.

(** *** [binary_round_aux] on an exact mantissa *)

Lemma fexp64 d : fexp Float64.prec Float64.emax d = Z.max (d - 53) (-1074).
Proof. reflexivity. Qed.

Lemma shift_amount_nonneg M e : 0 <= shift_amount M e.
Proof. unfold shift_amount. lia. Qed.

Lemma shr_fexp_exact M e :
  0 <= M ->
  shr_fexp Float64.prec Float64.emax M e loc_Exact
  = (shr_spec M (shift_amount M e), e + shift_amount M e).
Proof.
  intros HM. unfold shr_fexp. rewrite shr_exact by exact HM. reflexivity.
Qed.

Lemma shr_m_spec M n : 0 <= n -> shr_m (shr_spec M n) = M / 2 ^ n.
Proof.
  intros Hn. unfold shr_spec. destruct (Z.eqb_spec n 0) as [-> | Hne]; cbn [shr_m].
  - rewrite Z.div_1_r. reflexivity.
  - reflexivity.
Qed.

(** After the rounding, the mantissa fits the format, except when it was
    rounded up to [2 ^ 53]: one more exact shift then renormalises it. *)
Lemma renormalise M e :
  0 < M ->
  let k := shift_amount M e in
  let m1 := div_nearest_even M (2 ^ k) in
  shift_amount m1 (e + k) = 0 \/ (m1 = 2 ^ 53 /\ shift_amount m1 (e + k) = 1).
Proof.
  intros HM k m1.
  pose proof (Zdigits2_bounds M HM) as [_ Hhi].
  pose proof (Zdigits2_pos M HM) as Hd.
  assert (Hk : 0 <= k) by apply shift_amount_nonneg.
  assert (Hpk : 0 < 2 ^ k) by (apply Z.pow_pos_nonneg; lia).
  destruct (Z.eq_dec k 0) as [Hk0 | Hk0].
  - left. subst m1. rewrite Hk0. change (2 ^ 0) with 1.
    rewrite <- (Z.mul_1_r M) at 1. rewrite div_nearest_even_exact by lia.
    rewrite Z.add_0_r. exact Hk0.
  - assert (Hfe : e + k = Z.max (Zdigits2 M + e - 53) (-1074)).
    { subst k. unfold shift_amount in *. rewrite fexp64 in *. lia. }
    assert (Hm0 : M / 2 ^ k < 2 ^ 53).
    { apply Z.div_lt_upper_bound; [lia | ].
      rewrite <- Z.pow_add_r by lia.
      apply Z.lt_le_trans with (1 := Hhi). apply Z.pow_le_mono_r; lia. }
    pose proof (div_nearest_even_bounds M (2 ^ k) Hpk) as Hm1. fold m1 in Hm1.
    assert (H0 : 0 <= M / 2 ^ k) by (apply Z.div_pos; lia).
    destruct (Z.eq_dec m1 (2 ^ 53)) as [Htop | Hlow].
    + right. split; [exact Htop | ].
      unfold shift_amount. rewrite Htop, fexp64.
      change (Zdigits2 (2 ^ 53)) with 54. lia.
    + left. unfold shift_amount. rewrite fexp64.
      assert (Zdigits2 m1 <= 53) by (apply Zdigits2_le_pow; lia).
      lia.
Qed.

Lemma binary_round_aux_exact s M e :
  0 < M ->
  let k := shift_amount M e in
  exists m2 e2,
    e + k <= e2 /\
    m2 * 2 ^ (e2 - (e + k)) = div_nearest_even M (2 ^ k) /\
    binary_round_aux Float64.prec Float64.emax s M e loc_Exact = pack s m2 e2.
Proof.
  intros HM k.
  pose proof (shift_amount_nonneg M e) as Hk. fold k in Hk.
  assert (Hpk : 0 < 2 ^ k) by (apply Z.pow_pos_nonneg; lia).
  pose proof (div_nearest_even_bounds M (2 ^ k) Hpk) as Hm1.
  assert (H0 : 0 <= M / 2 ^ k) by (apply Z.div_pos; lia).
  set (m1 := div_nearest_even M (2 ^ k)) in *.
  exists (m1 / 2 ^ shift_amount m1 (e + k)), (e + k + shift_amount m1 (e + k)).
  split; [pose proof (shift_amount_nonneg m1 (e + k)); lia | ].
  split.
  - replace (e + k + shift_amount m1 (e + k) - (e + k)) with (shift_amount m1 (e + k)) by lia.
    destruct (renormalise M e HM) as [Hz | [Htop Hone]]; fold k in Hz || fold k in Htop, Hone;
      fold m1 in Hz || fold m1 in Htop, Hone.
    + rewrite Hz. change (2 ^ 0) with 1. rewrite Z.div_1_r. lia.
    + rewrite Hone, Htop. reflexivity.
  - unfold binary_round_aux. rewrite shr_fexp_exact by lia. fold k.
    rewrite round_shr_spec by lia. fold m1.
    rewrite shr_fexp_exact by lia.
    rewrite shr_m_spec by apply shift_amount_nonneg.
    reflexivity.
Qed.

(** *** Rounding is monotone *)

Lemma pow2_pos k : 0 <= k -> 0 < 2 ^ k.
Proof. intros Hk. apply Z.pow_pos_nonneg; lia. Qed.

Lemma pow2_split a b : 0 <= b <= a -> 2 ^ a = 2 ^ (a - b) * 2 ^ b.
Proof.
  intros H. rewrite <- Z.pow_add_r by lia. f_equal. lia.
Qed.

Lemma round_scaled_nonneg E0 V : 0 <= V -> 0 <= round_scaled E0 V.
Proof.
  intros HV. unfold round_scaled.
  pose proof (pow2_pos _ (shift_amount_nonneg V E0)) as Hp.
  pose proof (div_nearest_even_bounds V _ Hp).
  assert (0 <= V / 2 ^ shift_amount V E0) by (apply Z.div_pos; lia).
  nia.
Qed.

Lemma round_pow2_le V k d :
  0 <= k <= d -> 0 <= V <= 2 ^ d ->
  div_nearest_even V (2 ^ k) * 2 ^ k <= 2 ^ d.
Proof.
  intros Hk HV. pose proof (pow2_pos k ltac:(lia)) as Hp.
  rewrite (pow2_split d k) by lia.
  apply Z.mul_le_mono_nonneg_r; [lia | ].
  rewrite <- (div_nearest_even_exact (2 ^ (d - k)) (2 ^ k)) by lia.
  apply div_nearest_even_mono; [lia | ].
  rewrite <- pow2_split by lia. lia.
Qed.

Lemma round_pow2_ge V k d :
  0 <= k <= d -> 2 ^ d <= V ->
  2 ^ d <= div_nearest_even V (2 ^ k) * 2 ^ k.
Proof.
  intros Hk HV. pose proof (pow2_pos k ltac:(lia)) as Hp.
  rewrite (pow2_split d k) at 1 by lia.
  apply Z.mul_le_mono_nonneg_r; [lia | ].
  rewrite <- (div_nearest_even_exact (2 ^ (d - k)) (2 ^ k)) at 1 by lia.
  apply div_nearest_even_mono; [lia | ].
  rewrite <- pow2_split by lia. lia.
Qed.

Lemma round_scaled_mono E0 V1 V2 :
  0 < V1 <= V2 -> round_scaled E0 V1 <= round_scaled E0 V2.
Proof.
  intros [H1 H12]. unfold round_scaled.
  pose proof (Zdigits2_mono V1 V2 ltac:(lia)) as Hd.
  pose proof (Zdigits2_bounds V1 H1) as [_ Hhi1].
  pose proof (Zdigits2_bounds V2 ltac:(lia)) as [Hlo2 _].
  pose proof (Zdigits2_pos V1 H1) as Hd1.
  set (K1 := shift_amount V1 E0). set (K2 := shift_amount V2 E0).
  assert (HK1 : 0 <= K1) by apply shift_amount_nonneg.
  assert (HK2 : 0 <= K2) by apply shift_amount_nonneg.
  assert (HK : K1 <= K2).
  { subst K1 K2. unfold shift_amount. rewrite !fexp64. lia. }
  destruct (Z.eq_dec K1 K2) as [Heq | Hne].
  - rewrite Heq. apply Z.mul_le_mono_nonneg_r; [pose proof (pow2_pos K2 HK2); lia | ].
    apply div_nearest_even_mono; [apply pow2_pos; exact HK2 | exact H12].
  - assert (HK2d : K2 = Zdigits2 V2 - 53 /\ Zdigits2 V1 < Zdigits2 V2).
    { subst K1 K2. unfold shift_amount in *. rewrite !fexp64 in *. lia. }
    destruct HK2d as [HK2d Hdlt].
    apply Z.le_trans with (2 ^ (Zdigits2 V2 - 1)).
    + apply round_pow2_le; [lia | ].
      split; [lia | ].
      apply Z.le_trans with (2 ^ Zdigits2 V1); [lia | ].
      apply Z.pow_le_mono_r; lia.
    + apply round_pow2_ge; [lia | exact Hlo2].
Qed.

(** The result of [binary_round_aux], in units of [2 ^ E0] for any
    [E0] below the exponent of its argument. *)
Lemma binary_round_aux_scaled s M e E0 :
  0 < M -> E0 <= e ->
  exists m2 e2,
    E0 <= e2 /\ 0 <= m2 /\
    m2 * 2 ^ (e2 - E0) = round_scaled E0 (M * 2 ^ (e - E0)) /\
    binary_round_aux Float64.prec Float64.emax s M e loc_Exact = pack s m2 e2.
Proof.
  intros HM HE.
  destruct (binary_round_aux_exact s M e HM) as (m2 & e2 & He2 & Hval & Hpack).
  pose proof (shift_amount_nonneg M e) as Hk.
  set (k := shift_amount M e) in *.
  pose proof (pow2_pos k Hk) as Hpk.
  pose proof (div_nearest_even_bounds M (2 ^ k) Hpk) as Hb.
  assert (H0 : 0 <= M / 2 ^ k) by (apply Z.div_pos; lia).
  pose proof (pow2_pos (e2 - (e + k)) ltac:(lia)) as Hp2.
  exists m2, e2. split; [lia | split; [nia | split; [ | exact Hpack]]].
  pose proof (pow2_pos (e - E0) ltac:(lia)) as Hpj.
  unfold round_scaled.
  set (V := M * 2 ^ (e - E0)).
  assert (HK : shift_amount V E0
               = Z.max 0 (fexp Float64.prec Float64.emax (Zdigits2 M + e) - E0)).
  { unfold shift_amount, V. rewrite Zdigits2_shift by lia.
    replace (Zdigits2 M + (e - E0) + E0) with (Zdigits2 M + e) by lia. reflexivity. }
  rewrite (pow2_split (e2 - E0) (e + k - E0)) by lia.
  replace (e2 - E0 - (e + k - E0)) with (e2 - (e + k)) by lia.
  rewrite Z.mul_assoc, Hval.
  destruct (Z.eq_dec k 0) as [Hk0 | Hk0].
  - (* no shift at exponent [e]: the value is kept *)
    rewrite Hk0 in *. change (2 ^ 0) with 1.
    rewrite <- (Z.mul_1_r M) at 1. rewrite div_nearest_even_exact by lia.
    rewrite Z.add_0_r.
    set (K := shift_amount V E0) in *.
    assert (HKj : 0 <= K <= e - E0).
    { unfold k, shift_amount in Hk0. lia. }
    pose proof (pow2_pos K ltac:(lia)).
    unfold V at 1. rewrite (pow2_split (e - E0) K) by lia.
    rewrite Z.mul_assoc, div_nearest_even_exact by lia.
    rewrite <- Z.mul_assoc, <- pow2_split by lia. reflexivity.
  - assert (HKk : shift_amount V E0 = k + (e - E0)).
    { rewrite HK. unfold k, shift_amount in *. lia. }
    rewrite HKk. unfold V.
    rewrite (Z.pow_add_r 2 k (e - E0)) by lia.
    rewrite div_nearest_even_scale by lia.
    f_equal. rewrite <- Z.pow_add_r by lia. f_equal. lia.
Qed.

(** *** The ceiling *)

Lemma ceil_scaled_mono E0 X Y :
  X <= Y -> ceil_scaled E0 X <= ceil_scaled E0 Y.
Proof.
  intros HXY. unfold ceil_scaled. destruct (Z.leb_spec 0 E0) as [HE | HE].
  - pose proof (pow2_pos E0 HE). nia.
  - pose proof (pow2_pos (- E0) ltac:(lia)) as Hp.
    pose proof (Z.div_le_mono (- Y) (- X) _ Hp ltac:(lia)). lia.
Qed.

Lemma ceil_scaled_0 E0 : ceil_scaled E0 0 = 0.
Proof.
  unfold ceil_scaled. destruct (0 <=? E0); [reflexivity | ].
  change (- 0) with 0. rewrite Zdiv_0_l. reflexivity.
Qed.

Lemma cond_Zopp_mul s a b : cond_Zopp s (a * b) = cond_Zopp s a * b.
Proof. destruct s; cbn; lia. Qed.

Lemma ceil_scaled_rescale E0 e X :
  E0 <= e -> ceil_scaled E0 (X * 2 ^ (e - E0)) = ceil_scaled e X.
Proof.
  intros HE. unfold ceil_scaled.
  pose proof (pow2_pos (e - E0) ltac:(lia)) as Hp.
  destruct (Z.leb_spec 0 E0) as [H0 | H0]; destruct (Z.leb_spec 0 e) as [H1 | H1]; try lia.
  - rewrite <- Z.mul_assoc, <- Z.pow_add_r by lia. do 2 f_equal. lia.
  - replace (- (X * 2 ^ (e - E0))) with (- X * 2 ^ e * 2 ^ (- E0)).
    + rewrite Z.div_mul by (pose proof (pow2_pos (- E0)); lia). lia.
    + rewrite <- Z.mul_assoc, <- Z.pow_add_r by lia.
      replace (e + - E0) with (e - E0) by lia. lia.
  - f_equal. rewrite (pow2_split (- E0) (e - E0)) by lia.
    replace (- E0 - (e - E0)) with (- e) by lia.
    replace (- (X * 2 ^ (e - E0))) with (- X * 2 ^ (e - E0)) by lia.
    apply Z.div_mul_cancel_r; pose proof (pow2_pos (- e)); lia.
Qed.

Lemma math_ceil_pack s m2 e2 E0 r :
  E0 <= e2 -> 0 <= m2 ->
  math_ceil (pack s m2 e2) = Ok r ->
  r = ceil_scaled E0 (cond_Zopp s (m2 * 2 ^ (e2 - E0))).
Proof.
  intros HE Hm Hr. rewrite cond_Zopp_mul, ceil_scaled_rescale by exact HE.
  destruct m2 as [ | p | p]; [ | | lia]; cbn [pack] in Hr.
  - cbn in Hr. injection Hr as <-.
    replace (cond_Zopp s 0) with 0 by (destruct s; reflexivity).
    rewrite ceil_scaled_0. reflexivity.
  - destruct (e2 <=? Float64.emax - Float64.prec); cbn [math_ceil] in Hr; [ | discriminate].
    injection Hr as <-. reflexivity.
Qed.

(** *** Products by a frame count *)

Lemma pack_cases s m e :
  pack s m e = S754_zero s \/ (exists p e', pack s m e = S754_finite s p e') \/
  pack s m e = S754_infinity s \/ pack s m e = S754_nan.
Proof.
  destruct m as [ | p | p]; cbn [pack]; auto.
  destruct (e <=? Float64.emax - Float64.prec); eauto.
Qed.

(** The conversion of a count is never negative. *)
Lemma of_Z_cases N :
  0 <= N ->
  Float64.of_Z N = S754_zero false \/
  (exists mn en, Float64.of_Z N = S754_finite false mn en) \/
  Float64.of_Z N = S754_infinity false \/ Float64.of_Z N = S754_nan.
Proof.
  intros HN. unfold Float64.of_Z, binary_normalize.
  destruct N as [ | p | p]; [auto | | lia].
  unfold binary_round.
  destruct (shl_align p 0 _) as [mz ez].
  destruct (binary_round_aux_exact false (Z.pos mz) ez ltac:(lia)) as (m2 & e2 & _ & _ & ->).
  apply pack_cases.
Qed.

Lemma round_scaled_0 E0 : round_scaled E0 0 = 0.
Proof.
  unfold round_scaled, div_nearest_even.
  pose proof (pow2_pos _ (shift_amount_nonneg 0 E0)) as Hp.
  rewrite Zdiv_0_l, Zmod_0_l.
  destruct (Z.compare_spec (2 * 0) (2 ^ shift_amount 0 E0)); lia.
Qed.

Lemma round_product_mono E0 mn X Y :
  0 < mn -> X <= Y -> round_product E0 mn X <= round_product E0 mn Y.
Proof.
  intros Hmn HXY. unfold round_product.
  pose proof (round_scaled_nonneg E0 (Z.abs X * mn) ltac:(nia)) as HX.
  pose proof (round_scaled_nonneg E0 (Z.abs Y * mn) ltac:(nia)) as HY.
  destruct (Z.lt_trichotomy X 0) as [Hx | [Hx | Hx]];
    destruct (Z.lt_trichotomy Y 0) as [Hy | [Hy | Hy]]; try lia.
  - rewrite !Z.sgn_neg by lia.
    pose proof (round_scaled_mono E0 (Z.abs Y * mn) (Z.abs X * mn) ltac:(nia)). lia.
  - rewrite !Z.sgn_pos by lia.
    pose proof (round_scaled_mono E0 (Z.abs X * mn) (Z.abs Y * mn) ltac:(nia)). lia.
Qed.

Lemma math_ceil_mul p mn en E0 r :
  match p with S754_zero _ | S754_finite _ _ _ => True | _ => False end ->
  below_exponent (E0 - en) p ->
  math_ceil (Float64.mul p (S754_finite false mn en)) = Ok r ->
  r = ceil_scaled E0 (round_product E0 (Z.pos mn) (scaled_value (E0 - en) p)).
Proof.
  intros Hp HB Hr. destruct p as [s | s | | s m e]; try contradiction.
  - cbn in Hr. injection Hr as <-. cbn [scaled_value]. unfold round_product.
    cbn [Z.sgn Z.mul]. rewrite ceil_scaled_0. reflexivity.
  - cbn [below_exponent] in HB.
    unfold Float64.mul, SFmul in Hr. rewrite xorb_false_r in Hr.
    destruct (binary_round_aux_scaled s (Z.pos (m * mn)) (e + en) E0 ltac:(lia) ltac:(lia))
      as (m2 & e2 & He2 & Hm2 & Hval & Hpack).
    rewrite Hpack in Hr.
    rewrite (math_ceil_pack s m2 e2 E0 r He2 Hm2 Hr), Hval.
    f_equal. cbn [scaled_value]. unfold round_product.
    pose proof (pow2_pos (e - (E0 - en)) ltac:(lia)) as Hpow.
    replace (e + en - E0) with (e - (E0 - en)) by lia.
    set (c := 2 ^ (e - (E0 - en))) in *.
    destruct s; cbn [cond_Zopp].
    + rewrite Z.sgn_neg, Z.abs_neq by lia.
      replace (- - (Z.pos m * c) * Z.pos mn) with (Z.pos (m * mn) * c) by lia. lia.
    + rewrite Z.sgn_pos, Z.abs_eq by lia.
      replace (Z.pos m * c * Z.pos mn) with (Z.pos (m * mn) * c) by lia. lia.
Qed.

(** *** The order of valid floats is the order of their values *)

Lemma bounded_canonical m e :
  bounded Float64.prec Float64.emax m e = true ->
  e = Z.max (Zdigits2 (Z.pos m) + e - 53) (-1074).
Proof.
  unfold bounded, canonical_mantissa. intros H.
  apply andb_prop in H. destruct H as [H _].
  apply Z.eqb_eq in H. rewrite fexp64 in H. cbn [Zdigits2]. lia.
Qed.

Lemma canonical_lt B m1 e1 m2 e2 :
  bounded Float64.prec Float64.emax m1 e1 = true ->
  bounded Float64.prec Float64.emax m2 e2 = true ->
  B <= e1 -> e1 < e2 ->
  Z.pos m1 * 2 ^ (e1 - B) < Z.pos m2 * 2 ^ (e2 - B).
Proof.
  intros H1 H2 HB Hlt.
  apply bounded_canonical in H1. apply bounded_canonical in H2.
  pose proof (Zdigits2_bounds (Z.pos m1) ltac:(lia)) as [_ Hhi].
  pose proof (Zdigits2_bounds (Z.pos m2) ltac:(lia)) as [Hlo _].
  assert (Hd2 : Zdigits2 (Z.pos m2) = 53) by lia.
  assert (Hd1 : Zdigits2 (Z.pos m1) <= 53) by lia.
  rewrite Hd2 in Hlo. change (53 - 1) with 52 in Hlo.
  assert (Hm1 : Z.pos m1 < 2 ^ 53).
  { apply Z.lt_le_trans with (1 := Hhi). apply Z.pow_le_mono_r; lia. }
  pose proof (pow2_pos (e1 - B) ltac:(lia)) as Hp1.
  rewrite (pow2_split (e2 - B) (e1 - B)) by lia.
  assert (Hstep : 2 <= 2 ^ (e2 - B - (e1 - B))).
  { change 2 with (2 ^ 1) at 1. apply Z.pow_le_mono_r; lia. }
  change (2 ^ 53) with (2 * 2 ^ 52) in Hm1.
  set (c := 2 ^ (e1 - B)) in *. set (t := 2 ^ (e2 - B - (e1 - B))) in *.
  set (T := 2 ^ 52) in *.
  assert (HT : 0 < T) by (subst T; apply pow2_pos; lia).
  assert (Ha : Z.pos m1 * c < 2 * T * c) by (apply Z.mul_lt_mono_pos_r; lia).
  assert (Hb : 2 * T <= Z.pos m2 * t) by nia.
  assert (Hc : 2 * T * c <= Z.pos m2 * t * c) by (apply Z.mul_le_mono_nonneg_r; lia).
  lia.
Qed.

Lemma compare_cont_Eq m1 m2 : Pos.compare_cont Eq m1 m2 = (Z.pos m1 ?= Z.pos m2).
Proof. reflexivity. Qed.

Lemma scaled_value_le B p1 p2 :
  match p1 with S754_zero _ | S754_finite _ _ _ => True | _ => False end ->
  match p2 with S754_zero _ | S754_finite _ _ _ => True | _ => False end ->
  Float64.valid p1 = true -> Float64.valid p2 = true ->
  below_exponent B p1 -> below_exponent B p2 ->
  Float64.leb p1 p2 = true ->
  scaled_value B p1 <= scaled_value B p2.
Proof.
  intros Hp1 Hp2 Hv1 Hv2 HB1 HB2 Hle.
  destruct p1 as [s1 | s1 | | s1 m1 e1]; try contradiction;
    destruct p2 as [s2 | s2 | | s2 m2 e2]; try contradiction;
    cbn [scaled_value below_exponent] in *.
  - lia.
  - pose proof (pow2_pos (e2 - B) ltac:(lia)).
    destruct s2; [discriminate | cbn [cond_Zopp]; nia].
  - pose proof (pow2_pos (e1 - B) ltac:(lia)).
    destruct s1; [cbn [cond_Zopp]; nia | discriminate].
  - pose proof (pow2_pos (e1 - B) ltac:(lia)) as Hq1.
    pose proof (pow2_pos (e2 - B) ltac:(lia)) as Hq2.
    unfold Float64.valid, valid_binary in Hv1, Hv2.
    unfold Float64.leb, SFleb, SFcompare in Hle.
    destruct s1, s2; cbn [cond_Zopp]; try discriminate; try nia.
    + destruct (Z.compare_spec e1 e2) as [Heq | Hlt | Hgt]; try discriminate.
      * subst e2. rewrite compare_cont_Eq in Hle.
        destruct (Z.compare_spec (Z.pos m1) (Z.pos m2)); cbn in Hle; try discriminate; nia.
      * pose proof (canonical_lt B m2 e2 m1 e1 Hv2 Hv1 HB2 Hgt). lia.
    + destruct (Z.compare_spec e1 e2) as [Heq | Hlt | Hgt]; try discriminate.
      * subst e2. rewrite compare_cont_Eq in Hle.
        destruct (Z.compare_spec (Z.pos m1) (Z.pos m2)); try discriminate; nia.
      * pose proof (canonical_lt B m1 e1 m2 e2 Hv1 Hv2 HB1 Hlt). lia.
Qed.

(** *** The required count grows with [frame_pct] *)

Lemma required_count_cases p N r :
  0 <= N -> required_count p N = Ok r ->
  match p with S754_zero _ | S754_finite _ _ _ => True | _ => False end /\
  ((Float64.of_Z N = S754_zero false /\ r = 0) \/
   exists mn en,
     Float64.of_Z N = S754_finite false mn en /\
     math_ceil (Float64.mul p (S754_finite false mn en)) = Ok r).
Proof.
  intros HN Hr. unfold required_count, float_mul_int, float_of_int in Hr.
  destruct (of_Z_cases N HN) as [Hz | [(mn & en & Hf) | [Hi | Hn]]].
  - rewrite Hz in *. cbn [bind] in Hr.
    destruct p as [s | s | | s m e]; cbn in Hr; try discriminate.
    + injection Hr as <-. auto.
    + injection Hr as <-. auto.
  - rewrite Hf in *. cbn [bind] in Hr.
    destruct p as [s | s | | s m e]; try (cbn in Hr; discriminate).
    + split; [exact I | right; eauto].
    + split; [exact I | right; eauto].
  - rewrite Hi in Hr. discriminate.
  - rewrite Hn in Hr. cbn [bind] in Hr.
    destruct p; cbn in Hr; discriminate.
Qed.

Lemma required_count_mono p1 p2 N r1 r2 :
  0 <= N ->
  Float64.valid p1 = true -> Float64.valid p2 = true ->
  Float64.leb p1 p2 = true ->
  required_count p1 N = Ok r1 -> required_count p2 N = Ok r2 ->
  r1 <= r2.
Proof.
  intros HN Hv1 Hv2 Hle H1 H2.
  destruct (required_count_cases p1 N r1 HN H1) as [Hp1 [[Hz1 ->] | (mn & en & Hf & Hc1)]];
    destruct (required_count_cases p2 N r2 HN H2) as [Hp2 [[Hz2 ->] | (mn' & en' & Hf' & Hc2)]];
    try lia; try congruence.
  rewrite Hf in Hf'. injection Hf' as <- <-.
  set (B := match p1, p2 with
            | S754_finite _ _ e1, S754_finite _ _ e2 => Z.min e1 e2
            | S754_finite _ _ e1, _ => e1
            | _, S754_finite _ _ e2 => e2
            | _, _ => 0
            end).
  assert (HB1 : below_exponent B p1).
  { subst B. destruct p1, p2; cbn; lia. }
  assert (HB2 : below_exponent B p2).
  { subst B. destruct p1, p2; cbn; lia. }
  replace B with (B + en - en) in HB1, HB2 by lia.
  rewrite (math_ceil_mul p1 mn en (B + en) r1 Hp1 HB1 Hc1).
  rewrite (math_ceil_mul p2 mn en (B + en) r2 Hp2 HB2 Hc2).
  apply ceil_scaled_mono, round_product_mono; [lia | ].
  apply scaled_value_le; assumption.
Qed.

(** *** Quotients of integers that do not overflow *)

Lemma shr_fexp_general m e l :
  0 <= m ->
  shr_m (fst (shr_fexp Float64.prec Float64.emax m e l)) = m / 2 ^ shift_amount m e /\
  snd (shr_fexp Float64.prec Float64.emax m e l) = e + shift_amount m e.
Proof.
  intros Hm. unfold shr_fexp.
  pose proof (shr_m_shr (shr_record_of_loc m l) e
                (fexp Float64.prec Float64.emax (Zdigits2 m + e) - e)) as H.
  rewrite shr_m_of_loc in H. apply H. exact Hm.
Qed.

Lemma binary_round_aux_general s m e l :
  0 <= m ->
  let k := shift_amount m e in
  exists m1,
    m / 2 ^ k <= m1 <= m / 2 ^ k + 1 /\
    binary_round_aux Float64.prec Float64.emax s m e l
    = pack s (m1 / 2 ^ shift_amount m1 (e + k)) (e + k + shift_amount m1 (e + k)).
Proof.
  intros Hm k.
  destruct (shr_fexp_general m e l Hm) as [Hmant Hexp]. fold k in Hmant, Hexp.
  unfold binary_round_aux.
  destruct (shr_fexp Float64.prec Float64.emax m e l) as [mrs' e'].
  cbn [fst snd] in Hmant, Hexp. subst e'.
  pose proof (round_nearest_even_bounds (shr_m mrs') (loc_of_shr_record mrs')) as Hb.
  set (m1 := round_nearest_even (shr_m mrs') (loc_of_shr_record mrs')) in *.
  rewrite Hmant in Hb.
  assert (H0 : 0 <= m / 2 ^ k).
  { apply Z.div_pos; [exact Hm | apply pow2_pos, shift_amount_nonneg]. }
  exists m1. split; [exact Hb | ].
  rewrite shr_fexp_exact by lia.
  rewrite shr_m_spec by apply shift_amount_nonneg.
  reflexivity.
Qed.

Lemma pack_finite s m e :
  e <= Float64.emax - Float64.prec -> forall s', pack s m e <> S754_infinity s'.
Proof.
  intros He s'. destruct m as [ | p | p]; cbn [pack]; try discriminate.
  apply Z.leb_le in He. rewrite He. discriminate.
Qed.

(** A mantissa at exponent [e] whose value is at most [1] is rounded to
    a result whose exponent stays far below the overflow threshold. *)
Lemma binary_round_aux_le_1 s m e l :
  0 <= m <= 2 ^ (- e) -> e <= -53 ->
  forall s', binary_round_aux Float64.prec Float64.emax s m e l <> S754_infinity s'.
Proof.
  intros [Hm0 Hm] He.
  destruct (binary_round_aux_general s m e l Hm0) as (m1 & Hb & ->).
  set (k := shift_amount m e) in *.
  apply pack_finite.
  assert (Hk0 : 0 <= k) by apply shift_amount_nonneg.
  assert (Hdm : Zdigits2 m <= - e + 1).
  { apply Zdigits2_le_pow; [lia | ]. split; [lia | ].
    rewrite Z.pow_add_r by lia. pose proof (pow2_pos (- e) ltac:(lia)). lia. }
  assert (Hk : e + k <= -52).
  { subst k. unfold shift_amount. rewrite fexp64. lia. }
  assert (Hq : m / 2 ^ k <= 2 ^ (- (e + k))).
  { apply Z.div_le_upper_bound; [apply pow2_pos; lia | ].
    rewrite <- Z.pow_add_r by lia. replace (k + - (e + k)) with (- e) by lia. exact Hm. }
  assert (H0 : 0 <= m / 2 ^ k) by (apply Z.div_pos; [lia | apply pow2_pos; lia]).
  assert (Hd1 : Zdigits2 m1 <= - (e + k) + 1).
  { apply Zdigits2_le_pow; [lia | ]. split; [lia | ].
    rewrite Z.pow_add_r by lia.
    assert (2 <= 2 ^ (- (e + k))).
    { change 2 with (2 ^ 1) at 1. apply Z.pow_le_mono_r; lia. }
    lia. }
  unfold shift_amount. rewrite fexp64. unfold Float64.emax, Float64.prec. lia.
Qed.

Lemma div_pos_le_1 s a b :
  0 < a <= b -> forall s', Float64.div_pos s a b <> S754_infinity s'.
Proof.
  intros [Ha Hab]. unfold Float64.div_pos, SFdiv_core_binary.
  rewrite !Z.add_0_r, Z.sub_0_r, fexp64.
  pose proof (Zdigits2_mono a b ltac:(lia)) as Hd.
  set (e' := Z.min (Z.max (Zdigits2 a - Zdigits2 b - 53) (-1074)) 0).
  assert (He' : e' <= -53) by (subst e'; lia).
  replace (0 - e') with (- e') by lia.
  destruct (- e') as [ | p | p] eqn:Hs; try lia.
  rewrite Z.shiftl_mul_pow2 by lia.
  pose proof (pow2_pos (Z.pos p) ltac:(lia)) as Hp.
  pose proof (Z_div_mod (a * 2 ^ Z.pos p) b ltac:(lia)) as Hdm.
  destruct (Z.div_eucl (a * 2 ^ Z.pos p) b) as [q r].
  destruct Hdm as [Hdm Hr].
  apply binary_round_aux_le_1; [ | exact He'].
  rewrite Hs. split; nia.
Qed.

Lemma int_truediv_ok a b :
  b <> 0 -> Z.abs a <= Z.abs b -> exists f, int_truediv a b = Ok f.
Proof.
  intros Hb Hab. unfold int_truediv.
  destruct (Z.eqb_spec b 0) as [ | _]; [contradiction | ].
  destruct (Z.eqb_spec a 0) as [ | Ha]; [eauto | ].
  pose proof (div_pos_le_1 (xorb (a <? 0) (b <? 0)) (Z.abs a) (Z.abs b) ltac:(lia)) as Hfin.
  destruct (Float64.div_pos _ _ _) as [s | s | | s m e]; eauto.
  exfalso. exact (Hfin s eq_refl).
Qed.

Lemma int_truediv_by_zero a : int_truediv a 0 = Raised ZeroDivisionError.
Proof. reflexivity. Qed.

(** The nearest integer is within half a unit of the quotient. *)
Lemma div_nearest_even_nearest a b :
  0 < b -> Z.abs (2 * (a - div_nearest_even a b * b)) <= b.
Proof.
  intros Hb. unfold div_nearest_even.
  pose proof (Z.div_mod a b ltac:(lia)) as Hdm.
  pose proof (Z.mod_pos_bound a b Hb) as Hr.
  destruct (Z.compare_spec (2 * (a mod b)) b); [destruct (Z.even (a / b)) | | ]; nia.
Qed.

(** *** The conversion of the frame count *)

Lemma iter_xO_pow2 mx d : Z.pos (Pos.iter xO mx d) = Z.pos mx * 2 ^ Z.pos d.
Proof.
  induction d as [ | d IH] using Pos.peano_ind.
  - cbn [Pos.iter]. lia.
  - rewrite Pos.iter_succ, Pos2Z.inj_xO, IH, Pos2Z.inj_succ, Z.pow_succ_r by lia. lia.
Qed.

Lemma shl_align_value mx ex ex' :
  snd (shl_align mx ex ex') <= ex /\
  Z.pos (fst (shl_align mx ex ex'))
  = Z.pos mx * 2 ^ (ex - snd (shl_align mx ex ex')).
Proof.
  unfold shl_align. destruct (ex' - ex) as [ | d | d] eqn:Hd; cbn [fst snd].
  - rewrite Z.sub_diag. lia.
  - rewrite Z.sub_diag. lia.
  - rewrite iter_xO_pow2. split; [lia | ]. do 2 f_equal. lia.
Qed.

Lemma round_scaled_int E0 N :
  E0 <= 0 -> 0 < N < 2 ^ 53 ->
  round_scaled E0 (N * 2 ^ (- E0)) = N * 2 ^ (- E0).
Proof.
  intros HE [HN0 HN]. unfold round_scaled.
  set (k := shift_amount (N * 2 ^ (- E0)) E0).
  assert (Hk : 0 <= k <= - E0).
  { subst k. unfold shift_amount. rewrite Zdigits2_shift, fexp64 by lia.
    pose proof (Zdigits2_le_pow N 53 ltac:(lia) ltac:(lia)). lia. }
  rewrite (pow2_split (- E0) k) by lia.
  rewrite Z.mul_assoc, div_nearest_even_exact by (apply pow2_pos; lia).
  reflexivity.
Qed.

Lemma pack_positive s m e :
  0 < m -> e <= Float64.emax - Float64.prec ->
  exists p, m = Z.pos p /\ pack s m e = S754_finite s p e.
Proof.
  intros Hm He. destruct m as [ | p | p]; try lia.
  exists p. split; [reflexivity | ]. cbn [pack].
  apply Z.leb_le in He. rewrite He. reflexivity.
Qed.

(** The conversion of [N >= 1], in units of [2 ^ ez]. *)
Lemma of_Z_scaled N :
  0 < N ->
  exists ez m2 e2,
    ez <= 0 /\ ez <= e2 /\ 0 <= m2 /\
    m2 * 2 ^ (e2 - ez) = round_scaled ez (N * 2 ^ (- ez)) /\
    Float64.of_Z N = pack false m2 e2.
Proof.
  intros HN. destruct N as [ | p | p]; try lia.
  unfold Float64.of_Z, binary_normalize, binary_round.
  pose proof (shl_align_value p 0
                (fexp Float64.prec Float64.emax (Z.pos (digits2_pos p) + 0))) as [Hez Hmz].
  destruct (shl_align p 0 _) as [mz ez]. cbn [fst snd] in Hez, Hmz.
  destruct (binary_round_aux_scaled false (Z.pos mz) ez ez ltac:(lia) ltac:(lia))
    as (m2 & e2 & He2 & Hm2 & Hval & Hpack).
  exists ez, m2, e2. repeat split; try assumption.
  rewrite Hval, Z.sub_diag, Z.mul_1_r, Hmz. reflexivity.
Qed.

(** A count of at least one frame is converted to a float that is at
    least [1.0]. *)
Lemma of_Z_ge_1 N :
  1 <= N ->
  (forall s, Float64.of_Z N <> S754_zero s) /\
  (forall mn en, Float64.of_Z N = S754_finite false mn en ->
                 0 <= en \/ 2 ^ (- en) <= Z.pos mn).
Proof.
  intros HN.
  destruct (of_Z_scaled N ltac:(lia)) as (ez & m2 & e2 & Hez & He2 & Hm2 & Hval & Hof).
  pose proof (pow2_pos (- ez) ltac:(lia)) as Hp.
  pose proof (pow2_pos (e2 - ez) ltac:(lia)) as Hp2.
  assert (Hlow : 2 ^ (- ez) <= m2 * 2 ^ (e2 - ez)).
  { rewrite Hval.
    pose proof (round_scaled_int ez 1 Hez ltac:(split; [lia | reflexivity])) as H1.
    rewrite Z.mul_1_l in H1. rewrite <- H1 at 1.
    apply round_scaled_mono. nia. }
  assert (Hpos : 0 < m2) by nia.
  rewrite Hof. split.
  - intros s. destruct m2 as [ | p | p]; try lia. cbn [pack].
    destruct (e2 <=? _); discriminate.
  - intros mn en Hf. destruct m2 as [ | p | p]; try lia. cbn [pack] in Hf.
    destruct (e2 <=? _); [ | discriminate]. injection Hf as -> ->.
    destruct (Z_lt_le_dec en 0) as [Hneg | ]; [right | left; assumption].
    rewrite (pow2_split (- ez) (en - ez)) in Hlow by lia.
    replace (- ez - (en - ez)) with (- en) in Hlow by lia.
    pose proof (pow2_pos (en - ez) ltac:(lia)). nia.
Qed.

Lemma lt_pow2_exponent m j d :
  1 <= m -> 0 <= j -> m * 2 ^ j < 2 ^ d -> j < d.
Proof.
  intros Hm Hj Hlt. destruct (Z_lt_le_dec j d) as [ | Hge]; [assumption | exfalso].
  destruct (Z_lt_le_dec d 0) as [Hd | Hd].
  - rewrite (Z.pow_neg_r 2 d) in Hlt by assumption. pose proof (pow2_pos j Hj). nia.
  - assert (2 ^ d <= 2 ^ j) by (apply Z.pow_le_mono_r; lia).
    pose proof (pow2_pos j Hj). nia.
Qed.

(** Below [2 ^ 53] the conversion is exact. *)
Lemma of_Z_exact N :
  0 < N < 2 ^ 53 ->
  exists ez mn en,
    ez <= 0 /\ ez <= en /\
    Z.pos mn * 2 ^ (en - ez) = N * 2 ^ (- ez) /\
    Float64.of_Z N = S754_finite false mn en.
Proof.
  intros [HN0 HN].
  destruct (of_Z_scaled N HN0) as (ez & m2 & e2 & Hez & He2 & Hm2 & Hval & Hof).
  rewrite round_scaled_int in Hval by (try split; assumption).
  pose proof (pow2_pos (- ez) ltac:(lia)) as Hp.
  pose proof (pow2_pos (e2 - ez) ltac:(lia)) as Hp2.
  assert (Hpos : 0 < m2) by nia.
  assert (He : e2 - ez < 53 - ez).
  { apply (lt_pow2_exponent m2); [lia | lia | ].
    rewrite Hval. replace (53 - ez) with (53 + - ez) by lia.
    rewrite Z.pow_add_r by lia. apply Z.mul_lt_mono_pos_r; lia. }
  destruct (pack_positive false m2 e2 Hpos) as (mn & -> & Hpk).
  { unfold Float64.emax, Float64.prec. lia. }
  exists ez, mn, e2. repeat split; try assumption. congruence.
Qed.

(** *** The quotient of a number by itself is [1.0] *)

Lemma div_pos_same s a :
  0 < a -> Float64.div_pos s a a = S754_finite s 4503599627370496 (-52).
Proof.
  intros Ha. unfold Float64.div_pos, SFdiv_core_binary.
  replace (Zdigits2 a + 0 - (Zdigits2 a + 0)) with 0 by lia.
  change (Z.min (fexp Float64.prec Float64.emax 0) (0 - 0)) with (-53).
  change (0 - 0 - -53) with 53.
  cbv iota beta. rewrite Z.shiftl_mul_pow2 by lia.
  pose proof (Z_div_mod (a * 2 ^ 53) a ltac:(lia)) as Hdm.
  destruct (Z.div_eucl (a * 2 ^ 53) a) as [q r]. destruct Hdm as [Hdm Hr].
  assert (Hq : q = 2 ^ 53) by nia.
  assert (Hr0 : r = 0) by nia.
  subst q r.
  assert (Hloc : new_location a 0 = loc_Exact).
  { unfold new_location, new_location_even, new_location_odd.
    destruct (Z.even a); reflexivity. }
  rewrite Hloc. destruct s; vm_compute; reflexivity.
Qed.

Lemma int_truediv_same H :
  H <> 0 -> int_truediv H H = Ok one.
Proof.
  intros HH. unfold int_truediv.
  destruct (Z.eqb_spec H 0) as [ | _]; [contradiction | ].
  rewrite xorb_nilpotent, div_pos_same by lia. reflexivity.
Qed.

(** *** Quotients of at most [1] *)

Lemma binary_round_aux_below_1 s m e l :
  0 <= m < 2 ^ (- e) -> e <= -53 ->
  exists m2 e2,
    binary_round_aux Float64.prec Float64.emax s m e l = pack s m2 e2 /\
    0 <= m2 <= 2 ^ (- e2) /\ e2 <= -52.
Proof.
  intros [Hm0 Hm] He.
  destruct (binary_round_aux_general s m e l Hm0) as (m1 & Hb & ->).
  set (k := shift_amount m e) in *.
  assert (Hk0 : 0 <= k) by apply shift_amount_nonneg.
  assert (Hdm : Zdigits2 m <= - e).
  { apply Zdigits2_le_pow; lia. }
  assert (Hk : e + k <= -52).
  { subst k. unfold shift_amount. rewrite fexp64. lia. }
  pose proof (pow2_pos k Hk0) as Hpk.
  assert (Hq : m / 2 ^ k < 2 ^ (- (e + k))).
  { apply Z.div_lt_upper_bound; [lia | ].
    rewrite <- Z.pow_add_r by lia. replace (k + - (e + k)) with (- e) by lia. exact Hm. }
  assert (H0 : 0 <= m / 2 ^ k) by (apply Z.div_pos; lia).
  set (e1 := e + k) in *.
  set (k2 := shift_amount m1 e1).
  assert (Hk20 : 0 <= k2) by apply shift_amount_nonneg.
  assert (Hd1 : Zdigits2 m1 <= - e1 + 1).
  { apply Zdigits2_le_pow; [lia | ]. split; [lia | ].
    rewrite Z.pow_add_r by lia.
    pose proof (pow2_pos (- e1) ltac:(lia)). lia. }
  assert (He2 : e1 + k2 <= -52).
  { subst k2. unfold shift_amount. rewrite fexp64. lia. }
  pose proof (pow2_pos k2 Hk20) as Hpk2.
  exists (m1 / 2 ^ k2), (e1 + k2). split; [reflexivity | ].
  split; [split | exact He2].
  - apply Z.div_pos; lia.
  - apply Z.div_le_upper_bound; [lia | ].
    rewrite <- Z.pow_add_r by lia. replace (k2 + - (e1 + k2)) with (- e1) by lia. lia.
Qed.

Lemma pack_unit_form m2 e2 :
  0 <= m2 <= 2 ^ (- e2) -> e2 <= -52 -> unit_form (pack false m2 e2).
Proof.
  intros [Hm0 Hm] He. unfold unit_form.
  destruct m2 as [ | p | p]; try lia; cbn [pack]; [left; reflexivity | right].
  replace (e2 <=? Float64.emax - Float64.prec) with true
    by (symmetry; apply Z.leb_le; unfold Float64.emax, Float64.prec; lia).
  eauto.
Qed.

Lemma unit_form_in_unit_interval f : unit_form f -> in_unit_interval f.
Proof.
  intros [-> | (m & e & -> & He & Hm)]; [split; reflexivity | ].
  split; [reflexivity | ].
  unfold Float64.leb, one, SFleb, SFcompare.
  destruct (Z.compare_spec e (-52)) as [-> | Hlt | Hgt]; try reflexivity; try lia.
  rewrite compare_cont_Eq.
  change (2 ^ (- -52)) with 4503599627370496 in Hm.
  destruct (Z.compare_spec (Z.pos m) 4503599627370496); try reflexivity. lia.
Qed.

Lemma div_pos_unit_form a b :
  0 < a <= b -> unit_form (Float64.div_pos false a b).
Proof.
  intros [Ha Hab]. destruct (Z.eq_dec a b) as [<- | Hne].
  { rewrite div_pos_same by exact Ha. right.
    exists 4503599627370496%positive, (-52). repeat split; lia. }
  unfold Float64.div_pos, SFdiv_core_binary.
  rewrite !Z.add_0_r, Z.sub_0_r, fexp64.
  pose proof (Zdigits2_mono a b ltac:(lia)) as Hd.
  set (e' := Z.min (Z.max (Zdigits2 a - Zdigits2 b - 53) (-1074)) 0).
  assert (He' : e' <= -53) by (subst e'; lia).
  replace (0 - e') with (- e') by lia.
  destruct (- e') as [ | p | p] eqn:Hs; try lia.
  rewrite Z.shiftl_mul_pow2 by lia.
  pose proof (pow2_pos (Z.pos p) ltac:(lia)) as Hp.
  pose proof (Z_div_mod (a * 2 ^ Z.pos p) b ltac:(lia)) as Hdm.
  destruct (Z.div_eucl (a * 2 ^ Z.pos p) b) as [q r].
  destruct Hdm as [Hdm Hr].
  destruct (binary_round_aux_below_1 false q e' (new_location b r))
    as (m2 & e2 & -> & Hm2 & He2).
  - rewrite Hs. split; nia.
  - exact He'.
  - apply pack_unit_form; assumption.
Qed.

Lemma int_truediv_unit_form a b q :
  0 <= a <= b -> int_truediv a b = Ok q -> unit_form q.
Proof.
  intros Hab. unfold int_truediv.
  destruct (Z.eqb_spec b 0) as [ | Hb]; [discriminate | ].
  replace (b <? 0) with false by (symmetry; apply Z.ltb_ge; lia).
  destruct (Z.eqb_spec a 0) as [ | Ha].
  - intros [= <-]. left. reflexivity.
  - replace (a <? 0) with false by (symmetry; apply Z.ltb_ge; lia).
    rewrite !Z.abs_eq by lia. cbn [xorb].
    pose proof (div_pos_unit_form a b ltac:(lia)) as Hu.
    destruct (Float64.div_pos false a b); intros [= <-]; exact Hu.
Qed.

Lemma float_round_unit_form q :
  unit_form q -> unit_form (float_round q 6).
Proof.
  intros [-> | (m & e & -> & He & Hm)]; [left; reflexivity | ].
  unfold float_round.
  replace (0 <=? e) with false by (symmetry; apply Z.leb_gt; lia).
  pose proof (pow2_pos (- e) ltac:(lia)) as Hp.
  set (k := div_nearest_even (Z.pos m * 10 ^ 6) (2 ^ (- e))).
  assert (Hk : 0 <= k <= 10 ^ 6).
  { subst k. split.
    - pose proof (div_nearest_even_bounds (Z.pos m * 10 ^ 6) _ Hp).
      assert (0 <= Z.pos m * 10 ^ 6 / 2 ^ (- e)) by (apply Z.div_pos; lia). lia.
    - rewrite <- (div_nearest_even_exact (10 ^ 6) (2 ^ (- e)) Hp) at 2.
      apply div_nearest_even_mono; [exact Hp | ]. lia. }
  destruct (Z.eqb_spec k 0) as [ | Hk0]; [left; reflexivity | ].
  apply div_pos_unit_form. lia.
Qed.

(** *** The right shift of a quotient and its remainder *)

Lemma shr_ratio_0 A b :
  0 < b ->
  shr_record_of_loc (A / b) (new_location b (A mod b)) = shr_ratio A b 0.
Proof.
  intros Hb. unfold shr_ratio. change (2 ^ 0) with 1. rewrite Z.mul_1_r.
  pose proof (Z.mod_pos_bound A b Hb) as Hr.
  set (r := A mod b) in *.
  assert (Hbig : b < 2 * r -> 2 * r mod b = 2 * r - b).
  { intros Hgt. symmetry. apply Zmod_unique with 1; lia. }
  unfold new_location.
  destruct (Z.even b) eqn:Heven;
    unfold new_location_even, new_location_odd;
    destruct (Z.eqb_spec r 0) as [Hz | Hnz].
  - rewrite Hz. cbn [Z.mul]. rewrite Zmod_0_l.
    replace (b <=? 0) with false by (symmetry; apply Z.leb_gt; lia). reflexivity.
  - destruct (Z.compare_spec (2 * r) b) as [Heq | Hlt | Hgt]; cbn [shr_record_of_loc].
    + rewrite Heq, Z.leb_refl, Z_mod_same_full. reflexivity.
    + replace (b <=? 2 * r) with false by (symmetry; apply Z.leb_gt; lia).
      rewrite Z.mod_small by lia.
      replace (2 * r =? 0) with false by (symmetry; apply Z.eqb_neq; lia).
      reflexivity.
    + replace (b <=? 2 * r) with true by (symmetry; apply Z.leb_le; lia).
      rewrite Hbig by lia.
      replace (2 * r - b =? 0) with false by (symmetry; apply Z.eqb_neq; lia).
      reflexivity.
  - rewrite Hz. cbn [Z.mul]. rewrite Zmod_0_l.
    replace (b <=? 0) with false by (symmetry; apply Z.leb_gt; lia). reflexivity.
  - assert (Hodd : 2 * r <> b).
    { intros Heq. rewrite <- Heq, Z.even_mul in Heven. discriminate. }
    destruct (Z.compare_spec (2 * r + 1) b) as [Heq | Hlt | Hgt]; cbn [shr_record_of_loc].
    + replace (b <=? 2 * r) with false by (symmetry; apply Z.leb_gt; lia).
      rewrite Z.mod_small by lia.
      replace (2 * r =? 0) with false by (symmetry; apply Z.eqb_neq; lia).
      reflexivity.
    + replace (b <=? 2 * r) with false by (symmetry; apply Z.leb_gt; lia).
      rewrite Z.mod_small by lia.
      replace (2 * r =? 0) with false by (symmetry; apply Z.eqb_neq; lia).
      reflexivity.
    + replace (b <=? 2 * r) with true by (symmetry; apply Z.leb_le; lia).
      rewrite Hbig by lia.
      replace (2 * r - b =? 0) with false by (symmetry; apply Z.eqb_neq; lia).
      reflexivity.
Qed.

Lemma mod_double A B :
  0 < B -> A mod (2 * B) = A mod B + B * (if Z.odd (A / B) then 1 else 0).
Proof.
  intros HB. rewrite (Z.mul_comm 2 B), Z.rem_mul_r by lia.
  rewrite Zmod_odd. reflexivity.
Qed.

Lemma shr_1_ratio A b n :
  0 <= A -> 0 < b -> 0 <= n -> shr_1 (shr_ratio A b n) = shr_ratio A b (n + 1).
Proof.
  intros HA Hb Hn. unfold shr_ratio.
  pose proof (pow2_pos n Hn) as Hp.
  rewrite (Z.pow_add_r 2 n 1) by lia. change (2 ^ 1) with 2.
  set (B := b * 2 ^ n). assert (HB : 0 < B) by (subst B; nia).
  replace (b * (2 ^ n * 2)) with (2 * B) by (subst B; ring).
  rewrite shr_1_eq by (apply Z.div_pos; lia).
  rewrite (Z.mul_comm 2 B) at 1. rewrite <- Z.div_div by lia.
  pose proof (mod_double A B HB) as Hsplit.
  pose proof (Z.mod_pos_bound A B HB) as Hr.
  f_equal.
  - destruct (Z.odd (A / B)).
    + symmetry. apply Z.leb_le. lia.
    + symmetry. apply Z.leb_gt. lia.
  - replace (2 * (A mod (2 * B)) mod (2 * B)) with (2 * (A mod B)).
    + destruct (Z.leb_spec B (2 * (A mod B))) as [Hge | Hlt]; cbn [orb].
      * symmetry. apply negb_true_iff, Z.eqb_neq. lia.
      * rewrite (Z.mod_small (2 * (A mod B)) B) by lia. reflexivity.
    + rewrite Zmult_mod_distr_l. f_equal.
      rewrite Hsplit. destruct (Z.odd (A / B)).
      * replace (A mod B + B * 1) with (A mod B + 1 * B) by ring.
        rewrite Z.mod_add by lia. rewrite Z.mod_mod by lia. reflexivity.
      * rewrite Z.mul_0_r, Z.add_0_r, Z.mod_mod by lia. reflexivity.
Qed.

Lemma shr_ratio_shr A b e n :
  0 <= A -> 0 < b ->
  shr (shr_ratio A b 0) e n = (shr_ratio A b (Z.max 0 n), e + Z.max 0 n).
Proof.
  intros HA Hb. destruct n as [ | p | p]; cbn [shr].
  - rewrite Z.add_0_r. reflexivity.
  - rewrite (iter_pos_family shr_1 (shr_ratio A b))
      by (try lia; intros; apply shr_1_ratio; lia).
    rewrite Z.max_r by lia. reflexivity.
  - rewrite Z.max_l by lia. rewrite Z.add_0_r. reflexivity.
Qed.

(** Rounding the shifted record is rounding the quotient to nearest,
    ties to even. *)
Lemma round_shr_ratio A b n :
  0 <= A -> 0 < b -> 0 <= n ->
  round_nearest_even (shr_m (shr_ratio A b n)) (loc_of_shr_record (shr_ratio A b n))
  = div_nearest_even A (b * 2 ^ n).
Proof.
  intros HA Hb Hn. unfold shr_ratio, div_nearest_even.
  pose proof (pow2_pos n Hn) as Hp.
  set (B := b * 2 ^ n). assert (HB : 0 < B) by (subst B; nia).
  pose proof (Z.mod_pos_bound A B HB) as Hr.
  cbn [shr_m loc_of_shr_record].
  destruct (Z.compare_spec (2 * (A mod B)) B) as [Heq | Hlt | Hgt].
  - rewrite Heq, Z.leb_refl, Z_mod_same_full. reflexivity.
  - replace (B <=? 2 * (A mod B)) with false by (symmetry; apply Z.leb_gt; lia).
    destruct (negb _); reflexivity.
  - replace (B <=? 2 * (A mod B)) with true by (symmetry; apply Z.leb_le; lia).
    replace (2 * (A mod B) mod B) with (2 * (A mod B) - B)
      by (apply Zmod_unique with 1; lia).
    replace (2 * (A mod B) - B =? 0) with false by (symmetry; apply Z.eqb_neq; lia).
    reflexivity.
Qed.

(** *** [binary_round_aux] on a quotient and its remainder *)

Lemma shr_fexp_ratio A b e :
  0 <= A -> 0 < b ->
  shr_fexp Float64.prec Float64.emax (A / b) e (new_location b (A mod b))
  = (shr_ratio A b (shift_amount (A / b) e), e + shift_amount (A / b) e).
Proof.
  intros HA Hb. unfold shr_fexp.
  rewrite shr_ratio_0, shr_ratio_shr by assumption. reflexivity.
Qed.

Lemma shifted_mantissa_lt q e :
  0 <= q -> q / 2 ^ shift_amount q e < 2 ^ 53.
Proof.
  intros Hq. pose proof (shift_amount_nonneg q e) as Hk.
  pose proof (pow2_pos _ Hk) as Hp.
  destruct (Z.eq_dec q 0) as [-> | Hne]; [rewrite Zdiv_0_l; reflexivity | ].
  pose proof (Zdigits2_bounds q ltac:(lia)) as [_ Hhi].
  apply Z.div_lt_upper_bound; [lia | ].
  rewrite <- Z.pow_add_r by lia.
  apply Z.lt_le_trans with (1 := Hhi). apply Z.pow_le_mono_r; [lia | ].
  unfold shift_amount. rewrite fexp64. lia.
Qed.

Lemma shifted_exponent_ge q e : -1074 <= e + shift_amount q e.
Proof. unfold shift_amount. rewrite fexp64. lia. Qed.

(** After the rounding, the mantissa fits the format, except when it
    was rounded up to [2 ^ 53]. *)
Lemma renormalise_general q e m1 :
  0 <= q ->
  let k := shift_amount q e in
  q / 2 ^ k <= m1 <= q / 2 ^ k + 1 ->
  shift_amount m1 (e + k) = 0 \/ (m1 = 2 ^ 53 /\ shift_amount m1 (e + k) = 1).
Proof.
  intros Hq k Hm1.
  pose proof (shifted_mantissa_lt q e Hq) as Hm0. fold k in Hm0.
  pose proof (shifted_exponent_ge q e) as Hfe. fold k in Hfe.
  assert (H0 : 0 <= q / 2 ^ k).
  { apply Z.div_pos; [exact Hq | apply pow2_pos, shift_amount_nonneg]. }
  destruct (Z.eq_dec m1 (2 ^ 53)) as [Htop | Hlow].
  - right. split; [exact Htop | ].
    unfold shift_amount. rewrite Htop, fexp64.
    change (Zdigits2 (2 ^ 53)) with 54. lia.
  - left. unfold shift_amount. rewrite fexp64.
    assert (Zdigits2 m1 <= 53) by (apply Zdigits2_le_pow; lia).
    lia.
Qed.

Lemma binary_round_aux_ratio s A b e :
  0 <= A -> 0 < b ->
  let k := shift_amount (A / b) e in
  exists m2 e2,
    e + k <= e2 /\ 0 <= m2 /\
    m2 * 2 ^ (e2 - (e + k)) = div_nearest_even A (b * 2 ^ k) /\
    binary_round_aux Float64.prec Float64.emax s (A / b) e (new_location b (A mod b))
    = pack s m2 e2.
Proof.
  intros HA Hb k.
  pose proof (shift_amount_nonneg (A / b) e) as Hk. fold k in Hk.
  pose proof (pow2_pos k Hk) as Hpk.
  assert (Hq : 0 <= A / b) by (apply Z.div_pos; lia).
  assert (HB : 0 < b * 2 ^ k) by nia.
  pose proof (div_nearest_even_bounds A (b * 2 ^ k) HB) as Hm1.
  rewrite <- Z.div_div in Hm1 by lia.
  assert (H0 : 0 <= A / b / 2 ^ k) by (apply Z.div_pos; lia).
  set (m1 := div_nearest_even A (b * 2 ^ k)) in *.
  pose proof (shift_amount_nonneg m1 (e + k)) as Hk2.
  exists (m1 / 2 ^ shift_amount m1 (e + k)), (e + k + shift_amount m1 (e + k)).
  split; [lia | ].
  split; [apply Z.div_pos; [lia | apply pow2_pos; exact Hk2] | ].
  split.
  - replace (e + k + shift_amount m1 (e + k) - (e + k)) with (shift_amount m1 (e + k)) by lia.
    destruct (renormalise_general (A / b) e m1 Hq Hm1) as [Hz | [Htop Hone]];
      fold k in Hz || fold k in Hone.
    + rewrite Hz. change (2 ^ 0) with 1. rewrite Z.div_1_r. lia.
    + rewrite Hone, Htop. reflexivity.
  - unfold binary_round_aux. rewrite shr_fexp_ratio by assumption. fold k.
    rewrite round_shr_ratio by lia. fold m1.
    rewrite shr_fexp_exact by lia.
    rewrite shr_m_spec by apply shift_amount_nonneg.
    reflexivity.
Qed.

(** *** The results of [binary_round_aux] are valid floats *)

Lemma Zdigits2_ge M d : 0 < M -> 2 ^ (d - 1) <= M -> d <= Zdigits2 M.
Proof.
  intros HM Hlo. pose proof (Zdigits2_bounds M HM) as [_ Hhi].
  pose proof (Zdigits2_nonneg M).
  destruct (Z_lt_le_dec (Zdigits2 M) d) as [Hlt | ]; [ | assumption].
  assert (2 ^ Zdigits2 M <= 2 ^ (d - 1)) by (apply Z.pow_le_mono_r; lia). lia.
Qed.

Lemma pack_valid s m e :
  0 <= m ->
  (0 < m -> fexp Float64.prec Float64.emax (Zdigits2 m + e) = e) ->
  Float64.valid (pack s m e) = true.
Proof.
  intros Hm Hc. destruct m as [ | p | p]; try lia; cbn [pack]; [reflexivity | ].
  destruct (e <=? Float64.emax - Float64.prec) eqn:He; [ | reflexivity].
  unfold Float64.valid, valid_binary, bounded, canonical_mantissa.
  specialize (Hc ltac:(lia)). cbn [Zdigits2] in Hc.
  rewrite Hc, Z.eqb_refl, He. reflexivity.
Qed.

(** A mantissa that has at least the digits of the format is rounded to
    a canonical one. *)
Lemma binary_round_aux_valid s m e l :
  0 <= m ->
  e <= fexp Float64.prec Float64.emax (Zdigits2 m + e) ->
  Float64.valid (binary_round_aux Float64.prec Float64.emax s m e l) = true.
Proof.
  intros Hm HP.
  destruct (binary_round_aux_general s m e l Hm) as (m1 & Hb & ->).
  pose proof (renormalise_general m e m1 Hm Hb) as Hren.
  pose proof (shifted_exponent_ge m e) as Hfe.
  pose proof (shift_amount_nonneg m e) as Hk0.
  set (k := shift_amount m e) in *.
  assert (Hk : e + k = fexp Float64.prec Float64.emax (Zdigits2 m + e)).
  { subst k. unfold shift_amount. lia. }
  rewrite fexp64 in Hk, HP.
  pose proof (pow2_pos k Hk0) as Hpk.
  assert (H0 : 0 <= m / 2 ^ k) by (apply Z.div_pos; lia).
  destruct Hren as [Hz | [Htop Hone]].
  - rewrite Hz. change (2 ^ 0) with 1. rewrite Z.div_1_r, Z.add_0_r.
    apply pack_valid; [lia | ]. intros Hpos.
    unfold shift_amount in Hz. rewrite fexp64 in *.
    destruct (Z_le_gt_dec (Zdigits2 m + e - 53) (-1074)) as [Hsub | Hnorm]; [lia | ].
    assert (Hdm : 53 <= Zdigits2 m) by lia.
    assert (Hmpos : 0 < m).
    { destruct (Z.eq_dec m 0) as [-> | ]; [cbn in Hdm; lia | lia]. }
    pose proof (Zdigits2_bounds m Hmpos) as [Hlo _].
    assert (Hm0 : 2 ^ 52 <= m / 2 ^ k).
    { apply Z.div_le_lower_bound; [lia | ].
      rewrite <- Z.pow_add_r by lia.
      apply Z.le_trans with (2 := Hlo). apply Z.pow_le_mono_r; lia. }
    assert (53 <= Zdigits2 m1).
    { apply Zdigits2_ge; [lia | ]. change (53 - 1) with 52. lia. }
    lia.
  - rewrite Hone, Htop. change (2 ^ 53 / 2 ^ 1) with (2 ^ 52).
    apply pack_valid; [lia | ]. intros _.
    rewrite fexp64. change (Zdigits2 (2 ^ 52)) with 53. lia.
Qed.

(** *** The quotient that [SFdiv] rounds *)

Lemma div_eucl_div_mod a b : Z.div_eucl a b = (a / b, a mod b).
Proof.
  unfold Z.div, Z.modulo. destruct (Z.div_eucl a b). reflexivity.
Qed.

Lemma div_core_eq m1 e1 m2 e2 :
  0 < m1 -> 0 < m2 ->
  let e' := Z.min (fexp Float64.prec Float64.emax
                     (Zdigits2 m1 + e1 - (Zdigits2 m2 + e2))) (e1 - e2) in
  let A := m1 * 2 ^ (e1 - e2 - e') in
  SFdiv_core_binary Float64.prec Float64.emax m1 e1 m2 e2
  = (A / m2, e', new_location m2 (A mod m2)) /\
  e' <= fexp Float64.prec Float64.emax (Zdigits2 (A / m2) + e').
Proof.
  intros H1 H2 e' A.
  assert (Hs : 0 <= e1 - e2 - e') by (subst e'; lia).
  split.
  - unfold SFdiv_core_binary. fold e'.
    assert (HA : match e1 - e2 - e' with
                 | Z.pos _ => Z.shiftl m1 (e1 - e2 - e')
                 | 0 => m1
                 | Z.neg _ => 0
                 end = A).
    { subst A. destruct (e1 - e2 - e') as [ | p | p] eqn:Hp; [ | | lia].
      - change (2 ^ 0) with 1. lia.
      - rewrite Z.shiftl_mul_pow2 by lia. reflexivity. }
    rewrite HA, div_eucl_div_mod. reflexivity.
  - pose proof (pow2_pos _ Hs) as Hp.
    pose proof (Zdigits2_bounds m1 H1) as [Hlo1 _].
    pose proof (Zdigits2_bounds m2 H2) as [_ Hhi2].
    pose proof (Zdigits2_pos m1 H1) as Hd1.
    pose proof (Zdigits2_pos m2 H2) as Hd2.
    set (s := e1 - e2 - e') in *.
    assert (Hq0 : 0 <= A / m2) by (apply Z.div_pos; subst A; nia).
    assert (Hdq : Zdigits2 m1 + s - Zdigits2 m2 <= Zdigits2 (A / m2)).
    { pose proof (Zdigits2_nonneg (A / m2)).
      destruct (Z_lt_le_dec (Zdigits2 m1 + s - Zdigits2 m2) 1) as [Hsmall | Hbig]; [lia | ].
      assert (Hlow : 2 ^ (Zdigits2 m1 + s - Zdigits2 m2 - 1) <= A / m2).
      { apply Z.div_le_lower_bound; [lia | ].
        apply Z.le_trans with (2 ^ Zdigits2 m2 * 2 ^ (Zdigits2 m1 + s - Zdigits2 m2 - 1)).
        - apply Z.mul_le_mono_nonneg_r; [apply Z.pow_nonneg | ]; lia.
        - rewrite <- Z.pow_add_r by lia.
          replace (Zdigits2 m2 + (Zdigits2 m1 + s - Zdigits2 m2 - 1))
            with (Zdigits2 m1 - 1 + s) by lia.
          rewrite Z.pow_add_r by lia. subst A.
          apply Z.mul_le_mono_nonneg_r; lia. }
      apply Zdigits2_ge; [ | exact Hlow].
      pose proof (pow2_pos (Zdigits2 m1 + s - Zdigits2 m2 - 1) ltac:(lia)). lia. }
    rewrite fexp64. subst s. subst e'. rewrite fexp64 in *. lia.
Qed.

(** *** The order of valid floats, in both directions *)

Lemma scaled_value_gt B p1 p2 :
  match p1 with S754_zero _ | S754_finite _ _ _ => True | _ => False end ->
  match p2 with S754_zero _ | S754_finite _ _ _ => True | _ => False end ->
  Float64.valid p1 = true -> Float64.valid p2 = true ->
  below_exponent B p1 -> below_exponent B p2 ->
  Float64.leb p1 p2 = false ->
  scaled_value B p2 < scaled_value B p1.
Proof.
  intros Hp1 Hp2 Hv1 Hv2 HB1 HB2 Hle.
  destruct p1 as [s1 | s1 | | s1 m1 e1]; try contradiction;
    destruct p2 as [s2 | s2 | | s2 m2 e2]; try contradiction;
    cbn [scaled_value below_exponent] in *.
  - discriminate.
  - pose proof (pow2_pos (e2 - B) ltac:(lia)).
    destruct s2; [cbn [cond_Zopp]; nia | discriminate].
  - pose proof (pow2_pos (e1 - B) ltac:(lia)).
    destruct s1; [discriminate | cbn [cond_Zopp]; nia].
  - pose proof (pow2_pos (e1 - B) ltac:(lia)) as Hq1.
    pose proof (pow2_pos (e2 - B) ltac:(lia)) as Hq2.
    unfold Float64.valid, valid_binary in Hv1, Hv2.
    unfold Float64.leb, SFleb, SFcompare in Hle.
    destruct s1, s2; cbn [cond_Zopp]; try discriminate; try nia.
    + destruct (Z.compare_spec e1 e2) as [Heq | Hlt | Hgt]; try discriminate.
      * subst e2. rewrite compare_cont_Eq in Hle.
        destruct (Z.compare_spec (Z.pos m1) (Z.pos m2)); cbn in Hle; try discriminate; nia.
      * pose proof (canonical_lt B m1 e1 m2 e2 Hv1 Hv2 HB1 Hlt). lia.
    + destruct (Z.compare_spec e1 e2) as [Heq | Hlt | Hgt]; try discriminate.
      * subst e2. rewrite compare_cont_Eq in Hle.
        destruct (Z.compare_spec (Z.pos m1) (Z.pos m2)); try discriminate; nia.
      * pose proof (canonical_lt B m2 e2 m1 e1 Hv2 Hv1 HB2 Hgt). lia.
Qed.

Lemma leb_scaled_value B p1 p2 :
  match p1 with S754_zero _ | S754_finite _ _ _ => True | _ => False end ->
  match p2 with S754_zero _ | S754_finite _ _ _ => True | _ => False end ->
  Float64.valid p1 = true -> Float64.valid p2 = true ->
  below_exponent B p1 -> below_exponent B p2 ->
  Float64.leb p1 p2 = (scaled_value B p1 <=? scaled_value B p2).
Proof.
  intros Hp1 Hp2 Hv1 Hv2 HB1 HB2.
  destruct (Float64.leb p1 p2) eqn:Hle.
  - symmetry. apply Z.leb_le. apply scaled_value_le; assumption.
  - symmetry. apply Z.leb_gt. apply scaled_value_gt; assumption.
Qed.

(** Two canonical representations of one value are equal. *)
Lemma bounded_unique B m1 e1 m2 e2 :
  bounded Float64.prec Float64.emax m1 e1 = true ->
  bounded Float64.prec Float64.emax m2 e2 = true ->
  B <= e1 -> B <= e2 ->
  Z.pos m1 * 2 ^ (e1 - B) = Z.pos m2 * 2 ^ (e2 - B) ->
  m1 = m2 /\ e1 = e2.
Proof.
  intros H1 H2 HB1 HB2 Heq.
  destruct (Z.lt_trichotomy e1 e2) as [Hlt | [<- | Hgt]].
  - pose proof (canonical_lt B m1 e1 m2 e2 H1 H2 HB1 Hlt). lia.
  - pose proof (pow2_pos (e1 - B) ltac:(lia)).
    split; [ | reflexivity].
    apply Z.mul_reg_r in Heq; [congruence | lia].
  - pose proof (canonical_lt B m2 e2 m1 e1 H2 H1 HB2 Hgt). lia.
Qed.

(** *** [binary_round]: validity and value *)

Lemma shl_align_le mx ex ex' :
  ex' <= ex ->
  shl_align mx ex ex' = (fst (shl_align mx ex ex'), ex') /\
  Z.pos (fst (shl_align mx ex ex')) = Z.pos mx * 2 ^ (ex - ex').
Proof.
  intros Hle. unfold shl_align. destruct (ex' - ex) as [ | d | d] eqn:Hd; cbn [fst].
  - replace ex' with ex by lia. rewrite Z.sub_diag. split; [reflexivity | lia].
  - lia.
  - rewrite iter_xO_pow2. split; [reflexivity | ]. do 2 f_equal. lia.
Qed.

Lemma shl_align_ge mx ex ex' : ex <= ex' -> shl_align mx ex ex' = (mx, ex).
Proof.
  intros Hle. unfold shl_align. destruct (ex' - ex) as [ | d | d] eqn:Hd; try reflexivity. lia.
Qed.

(** The mantissa that [binary_round] passes to [binary_round_aux]. *)
Lemma binary_round_aligned mx ex :
  exists mz ez,
    shl_align mx ex (fexp Float64.prec Float64.emax (Z.pos (digits2_pos mx) + ex)) = (mz, ez) /\
    ez = Z.min ex (fexp Float64.prec Float64.emax (Zdigits2 (Z.pos mx) + ex)) /\
    Z.pos mz = Z.pos mx * 2 ^ (ex - ez) /\
    ez <= fexp Float64.prec Float64.emax (Zdigits2 (Z.pos mz) + ez).
Proof.
  change (Z.pos (digits2_pos mx)) with (Zdigits2 (Z.pos mx)).
  set (ex' := fexp Float64.prec Float64.emax (Zdigits2 (Z.pos mx) + ex)).
  destruct (Z_lt_le_dec ex' ex) as [Hlt | Hge].
  - destruct (shl_align_le mx ex ex' ltac:(lia)) as [Heq Hval].
    exists (fst (shl_align mx ex ex')), ex'.
    split; [exact Heq | split; [lia | split; [exact Hval | ]]].
    rewrite Hval, Zdigits2_shift by lia.
    replace (Zdigits2 (Z.pos mx) + (ex - ex') + ex') with (Zdigits2 (Z.pos mx) + ex) by lia.
    fold ex'. lia.
  - exists mx, ex. rewrite shl_align_ge by exact Hge.
    split; [reflexivity | split; [lia | split]].
    + rewrite Z.sub_diag. lia.
    + exact Hge.
Qed.

Lemma binary_round_valid s mx ex :
  Float64.valid (binary_round Float64.prec Float64.emax s mx ex) = true.
Proof.
  unfold binary_round.
  destruct (binary_round_aligned mx ex) as (mz & ez & -> & _ & _ & HP).
  apply binary_round_aux_valid; [lia | exact HP].
Qed.

Lemma of_Z_valid N : Float64.valid (Float64.of_Z N) = true.
Proof.
  unfold Float64.of_Z, binary_normalize.
  destruct N as [ | p | p]; [reflexivity | | ]; apply binary_round_valid.
Qed.

(** The value of [binary_round], in units of [2 ^ E0]. *)
Lemma binary_round_value s mx ex E0 :
  E0 <= ex -> E0 <= fexp Float64.prec Float64.emax (Zdigits2 (Z.pos mx) + ex) ->
  exists m2 e2,
    E0 <= e2 /\ 0 <= m2 /\
    m2 * 2 ^ (e2 - E0) = round_scaled E0 (Z.pos mx * 2 ^ (ex - E0)) /\
    binary_round Float64.prec Float64.emax s mx ex = pack s m2 e2.
Proof.
  intros HE1 HE2. unfold binary_round.
  destruct (binary_round_aligned mx ex) as (mz & ez & -> & Hez & Hmz & _).
  destruct (binary_round_aux_scaled s (Z.pos mz) ez E0 ltac:(lia) ltac:(lia))
    as (m2 & e2 & He2 & Hm2 & Hval & Hpack).
  exists m2, e2. repeat split; try assumption.
  rewrite Hval, Hmz, <- Z.mul_assoc, <- Z.pow_add_r by lia.
  do 3 f_equal. lia.
Qed.

(** *** Integers below [2 ^ 53] are floats *)

Lemma rescale_value m e E B N :
  B <= E -> E <= e -> E <= 0 ->
  m * 2 ^ (e - E) = N * 2 ^ (- E) ->
  m * 2 ^ (e - B) = N * 2 ^ (- B).
Proof.
  intros HB HE H0 Hval.
  replace (e - B) with (e - E + (E - B)) by lia.
  replace (- B) with (- E + (E - B)) by lia.
  rewrite !Z.pow_add_r, !Z.mul_assoc, Hval by lia. reflexivity.
Qed.

(** The canonical representation of the conversion of [N]. *)
Lemma of_Z_canonical N :
  0 < N < 2 ^ 53 ->
  exists mn en,
    Float64.of_Z N = S754_finite false mn en /\
    bounded Float64.prec Float64.emax mn en = true /\
    en <= 0 /\ Z.pos mn = N * 2 ^ (- en).
Proof.
  intros HN.
  destruct (of_Z_exact N HN) as (ez & mn & en & Hez & Hen & Hval & Hof).
  pose proof (of_Z_valid N) as Hv. rewrite Hof in Hv.
  unfold Float64.valid, valid_binary in Hv.
  exists mn, en. split; [exact Hof | split; [exact Hv | ]].
  pose proof (bounded_canonical mn en Hv) as Hc.
  pose proof (pow2_pos (- ez) ltac:(lia)) as Hp.
  pose proof (pow2_pos (en - ez) ltac:(lia)) as Hp2.
  assert (Hen0 : en <= 0).
  { destruct (Z_le_gt_dec en 0) as [ | Hpos]; [assumption | exfalso].
    assert (Hd : Zdigits2 (Z.pos mn) = 53) by lia.
    pose proof (Zdigits2_bounds (Z.pos mn) ltac:(lia)) as [Hlo _].
    rewrite Hd in Hlo. change (53 - 1) with 52 in Hlo.
    replace (en - ez) with (en + - ez) in Hval by lia.
    rewrite Z.pow_add_r, Z.mul_assoc in Hval by lia.
    apply Z.mul_reg_r in Hval; [ | lia].
    assert (2 <= 2 ^ en).
    { change 2 with (2 ^ 1) at 1. apply Z.pow_le_mono_r; lia. }
    assert (2 ^ 52 * 2 <= Z.pos mn * 2 ^ en) by (apply Z.mul_le_mono_nonneg; lia).
    change (2 ^ 52 * 2) with (2 ^ 53) in *. lia. }
  split; [exact Hen0 | ].
  replace (- ez) with (- en + (en - ez)) in Hval by lia.
  rewrite Z.pow_add_r, Z.mul_assoc in Hval by lia.
  apply Z.mul_reg_r in Hval; [exact Hval | lia].
Qed.

Lemma float_of_int_small t : 0 <= t < 2 ^ 53 -> threshold_converts t.
Proof.
  intros Ht. unfold threshold_converts, float_of_int.
  destruct (Z.eq_dec t 0) as [-> | Hne]; [reflexivity | ].
  destruct (of_Z_canonical t ltac:(lia)) as (mn & en & -> & _). reflexivity.
Qed.

(** Below [2 ^ 53] the sum of two converted integers is the conversion
    of their sum: the addition is exact. *)
Lemma add_of_Z a b :
  0 <= a -> 0 <= b -> a + b < 2 ^ 53 ->
  Float64.add (Float64.of_Z a) (Float64.of_Z b) = Float64.of_Z (a + b).
Proof.
  intros Ha Hb Hab.
  destruct (Z.eq_dec a 0) as [-> | Hane].
  { rewrite Z.add_0_l. destruct (Z.eq_dec b 0) as [-> | Hbne]; [reflexivity | ].
    destruct (of_Z_canonical b ltac:(lia)) as (mb & eb & -> & _). reflexivity. }
  destruct (Z.eq_dec b 0) as [-> | Hbne].
  { rewrite Z.add_0_r.
    destruct (of_Z_canonical a ltac:(lia)) as (ma & ea & -> & _). reflexivity. }
  destruct (of_Z_canonical a ltac:(lia)) as (ma & ea & -> & _ & Hea & Hma).
  destruct (of_Z_canonical b ltac:(lia)) as (mb & eb & -> & _ & Heb & Hmb).
  destruct (of_Z_canonical (a + b) ltac:(lia)) as (mc & ec & -> & Hbc & Hec & Hmc).
  unfold Float64.add, SFadd. cbn [cond_Zopp].
  set (ez := Z.min ea eb).
  destruct (shl_align_le ma ea ez ltac:(lia)) as [_ Hva].
  destruct (shl_align_le mb eb ez ltac:(lia)) as [_ Hvb].
  set (pa := fst (shl_align ma ea ez)) in *.
  set (pb := fst (shl_align mb eb ez)) in *.
  change (Z.pos pa + Z.pos pb) with (Z.pos (pa + pb)).
  cbn [binary_normalize].
  assert (Hsum : Z.pos (pa + pb) = (a + b) * 2 ^ (- ez)).
  { rewrite Pos2Z.inj_add, Hva, Hvb, Hma, Hmb.
    rewrite <- !Z.mul_assoc, <- !Z.pow_add_r by lia.
    replace (- ea + (ea - ez)) with (- ez) by lia.
    replace (- eb + (eb - ez)) with (- ez) by lia. ring. }
  set (E0 := Z.min ez (fexp Float64.prec Float64.emax (Zdigits2 (Z.pos (pa + pb)) + ez))).
  destruct (binary_round_value false (pa + pb) ez E0 ltac:(lia) ltac:(lia))
    as (m2 & e2 & He2 & Hm2 & Hval & Hpack).
  pose proof (binary_round_valid false (pa + pb) ez) as Hv.
  rewrite Hpack in *.
  assert (HE0 : E0 <= 0) by lia.
  assert (HV : Z.pos (pa + pb) * 2 ^ (ez - E0) = (a + b) * 2 ^ (- E0)).
  { rewrite Hsum, <- Z.mul_assoc, <- Z.pow_add_r by lia. do 2 f_equal. lia. }
  rewrite HV, round_scaled_int in Hval by lia.
  pose proof (pow2_pos (- E0) ltac:(lia)) as Hp.
  pose proof (pow2_pos (e2 - E0) ltac:(lia)) as Hp2.
  assert (Hpos : 0 < m2) by nia.
  assert (He : e2 - E0 < 53 - E0).
  { apply (lt_pow2_exponent m2); [lia | lia | ].
    rewrite Hval. replace (53 - E0) with (53 + - E0) by lia.
    rewrite Z.pow_add_r by lia. apply Z.mul_lt_mono_pos_r; lia. }
  destruct (pack_positive false m2 e2 Hpos) as (p2 & Hp2eq & Hpk).
  { unfold Float64.emax, Float64.prec. lia. }
  rewrite Hpk in *. unfold Float64.valid, valid_binary in Hv.
  set (B := Z.min E0 ec).
  destruct (bounded_unique B p2 e2 mc ec Hv Hbc ltac:(lia) ltac:(lia)) as [-> ->];
    [ | reflexivity].
  rewrite <- Hp2eq.
  rewrite (rescale_value m2 e2 E0 B (a + b)) by (try lia; exact Hval).
  rewrite Hmc, <- Z.mul_assoc, <- Z.pow_add_r by lia.
  do 2 f_equal. lia.
Qed.

Lemma fold_add_of_Z vs : forall acc,
  0 <= acc -> Forall (fun v => 0 <= v) vs ->
  acc + fold_right Z.add 0 vs < 2 ^ 53 ->
  fold_left Float64.add (map Float64.of_Z vs) (Float64.of_Z acc)
  = Float64.of_Z (acc + fold_right Z.add 0 vs).
Proof.
  induction vs as [ | v vs IH]; intros acc Hacc Hall Hsum; cbn [map fold_left fold_right] in *.
  - rewrite Z.add_0_r. reflexivity.
  - inversion Hall as [ | ? ? Hv Hrest]; subst.
    assert (Hnn : 0 <= fold_right Z.add 0 vs).
    { clear -Hrest. induction Hrest; cbn [fold_right]; lia. }
    rewrite add_of_Z by lia. rewrite IH by (try assumption; lia).
    f_equal. lia.
Qed.

(** *** The rounded quotient of two mantissas *)

(** What [SFdiv] does with two positive mantissas: the quotient
    [A / m2] at exponent [e'] and the location of its remainder are
    rounded at the exponent [E1] of the format, to the integer nearest
    to the exact quotient in units of [2 ^ E1]. *)
Lemma div_round_spec s m1 e1 m2 e2 :
  0 < m1 -> 0 < m2 ->
  let e' := Z.min (fexp Float64.prec Float64.emax
                     (Zdigits2 m1 + e1 - (Zdigits2 m2 + e2))) (e1 - e2) in
  let A := m1 * 2 ^ (e1 - e2 - e') in
  let E1 := fexp Float64.prec Float64.emax (Zdigits2 (A / m2) + e') in
  exists m3 e3,
    (let '(mz, ez, lz) := SFdiv_core_binary Float64.prec Float64.emax m1 e1 m2 e2 in
     binary_round_aux Float64.prec Float64.emax s mz ez lz) = pack s m3 e3 /\
    Float64.valid (pack s m3 e3) = true /\
    e' <= E1 /\ E1 <= e3 /\ 0 <= m3 /\
    m3 * 2 ^ (e3 - E1) = div_nearest_even A (m2 * 2 ^ (E1 - e')) /\
    div_nearest_even A (m2 * 2 ^ (E1 - e')) <= 2 ^ 53.
Proof.
  intros H1 H2 e' A E1.
  destruct (div_core_eq m1 e1 m2 e2 H1 H2) as [Hcore HP].
  fold e' in Hcore, HP. fold A in Hcore, HP. fold E1 in HP.
  assert (Hs : 0 <= e1 - e2 - e') by (subst e'; lia).
  assert (HA : 0 <= A) by (subst A; pose proof (pow2_pos _ Hs); nia).
  assert (Hk : shift_amount (A / m2) e' = E1 - e').
  { unfold shift_amount. fold E1. lia. }
  destruct (binary_round_aux_ratio s A m2 e' HA H2) as (m3 & e3 & He3 & Hm3 & Hval & Hpack).
  rewrite Hk in He3, Hval. replace (e' + (E1 - e')) with E1 in He3, Hval by lia.
  pose proof (binary_round_aux_valid s (A / m2) e' (new_location m2 (A mod m2))
                ltac:(apply Z.div_pos; lia) HP) as Hv.
  rewrite Hpack in Hv.
  exists m3, e3. rewrite Hcore.
  split; [exact Hpack | split; [exact Hv | split; [lia | split; [exact He3 | ]]]].
  split; [exact Hm3 | split; [exact Hval | ]].
  assert (Hpk : 0 < 2 ^ (E1 - e')) by (apply pow2_pos; lia).
  pose proof (div_nearest_even_bounds A (m2 * 2 ^ (E1 - e')) ltac:(nia)) as Hb.
  rewrite <- Z.div_div in Hb by lia.
  pose proof (shifted_mantissa_lt (A / m2) e' ltac:(apply Z.div_pos; lia)) as Hlt.
  rewrite Hk in Hlt. lia.
Qed.

Lemma scaled_value_pack B s m e :
  0 <= m -> B <= e -> e <= Float64.emax - Float64.prec ->
  match pack s m e with S754_zero _ | S754_finite _ _ _ => True | _ => False end /\
  below_exponent B (pack s m e) /\
  scaled_value B (pack s m e) = cond_Zopp s (m * 2 ^ (e - B)).
Proof.
  intros Hm HB He. destruct m as [ | p | p]; try lia; cbn [pack].
  - cbn. destruct s; auto.
  - apply Z.leb_le in He. rewrite He. cbn. auto.
Qed.

(** The conversion of a threshold, in units of [2 ^ B]. *)
Lemma of_Z_scaled_value t :
  0 <= t < 2 ^ 53 ->
  match Float64.of_Z t with S754_zero _ | S754_finite _ _ _ => True | _ => False end /\
  exists Et, Et <= 0 /\
    forall B, B <= Et ->
      below_exponent B (Float64.of_Z t) /\
      scaled_value B (Float64.of_Z t) = t * 2 ^ (- B).
Proof.
  intros Ht. destruct (Z.eq_dec t 0) as [-> | Hne].
  - split; [exact I | ]. exists 0. split; [lia | ]. intros B HB. cbn. auto.
  - destruct (of_Z_canonical t ltac:(lia)) as (mt & et & -> & _ & Het & Hmt).
    split; [exact I | ]. exists et. split; [exact Het | ]. intros B HB.
    cbn [below_exponent scaled_value cond_Zopp]. split; [exact HB | ].
    rewrite Hmt, <- Z.mul_assoc, <- Z.pow_add_r by lia. do 2 f_equal. lia.
Qed.

(** *** The mean of a column and the threshold *)

(** For [H] rows of samples below [256] that sum to [S], the binary64
    quotient of [S] by [H] is at most the threshold [t] exactly when
    the exact mean is: [S <= t * H]. *)
Lemma mean_leb_threshold S H t :
  0 <= S <= 255 * H -> 1 <= H <= 2 ^ 45 -> 0 <= t < 2 ^ 53 ->
  Float64.leb (Float64.div (Float64.of_Z S) (Float64.of_Z H)) (Float64.of_Z t)
  = (S <=? t * H).
Proof.
  intros HS HH Ht.
  assert (H53 : 255 * 2 ^ 45 < 2 ^ 53) by reflexivity.
  destruct (of_Z_canonical H ltac:(lia)) as (mh & eh & HofH & _ & Heh & Hmh).
  destruct (of_Z_scaled_value t Ht) as (Htf & Et & HEt & Hsv).
  pose proof (of_Z_valid t) as Hvt.
  destruct (Z.eq_dec S 0) as [-> | HSne].
  { rewrite HofH. cbn [Float64.of_Z binary_normalize Float64.div SFdiv xorb].
    destruct (Hsv Et ltac:(lia)) as [HBt Hval].
    rewrite (leb_scaled_value Et (S754_zero false) (Float64.of_Z t) I Htf eq_refl Hvt I HBt).
    rewrite Hval. cbn [scaled_value].
    pose proof (pow2_pos (- Et) ltac:(lia)).
    destruct (Z.leb_spec 0 (t * 2 ^ (- Et))); destruct (Z.leb_spec 0 (t * H)); try reflexivity; nia. }
  destruct (of_Z_canonical S ltac:(lia)) as (ms & es & HofS & _ & Hes & Hms).
  rewrite HofS, HofH. unfold Float64.div, SFdiv. cbn [xorb].
  destruct (div_round_spec false (Z.pos ms) es (Z.pos mh) eh ltac:(lia) ltac:(lia))
    as (m3 & e3 & -> & Hv & He' & He3 & Hm3 & Hval & Htop).
  set (e' := Z.min (fexp Float64.prec Float64.emax
                      (Zdigits2 (Z.pos ms) + es - (Zdigits2 (Z.pos mh) + eh))) (es - eh)) in *.
  set (A := Z.pos ms * 2 ^ (es - eh - e')) in *.
  set (E1 := fexp Float64.prec Float64.emax (Zdigits2 (A / Z.pos mh) + e')) in *.
  set (B' := Z.pos mh * 2 ^ (E1 - e')) in *.
  set (m1 := div_nearest_even A B') in *.
  (* the exponents *)
  assert (Hs : 0 <= es - eh - e') by (subst e'; lia).
  assert (HdS : Zdigits2 (Z.pos ms) + es <= 53).
  { rewrite Hms, Zdigits2_shift by lia.
    pose proof (Zdigits2_le_pow S 53 ltac:(lia) ltac:(lia)). lia. }
  assert (HdH : 1 <= Zdigits2 (Z.pos mh) + eh).
  { rewrite Hmh, Zdigits2_shift by lia.
    pose proof (Zdigits2_pos H ltac:(lia)). lia. }
  assert (He'neg : e' <= -1).
  { subst e'. rewrite fexp64. lia. }
  pose proof (pow2_pos (- eh - e') ltac:(lia)) as HP.
  set (P := 2 ^ (- eh - e')) in *.
  assert (HA : A = S * P).
  { subst A P. rewrite Hms, <- Z.mul_assoc, <- Z.pow_add_r by lia. do 2 f_equal. lia. }
  assert (Hq : A / Z.pos mh < 2 ^ (8 - e')).
  { apply Z.div_lt_upper_bound; [lia | ].
    rewrite HA, Hmh.
    replace (8 - e') with (8 + - e') by lia. rewrite Z.pow_add_r by lia.
    pose proof (pow2_pos (- e') ltac:(lia)) as Hpe.
    pose proof (pow2_pos (- eh) ltac:(lia)) as Hph.
    assert (HPs : P = 2 ^ (- eh) * 2 ^ (- e')).
    { subst P. rewrite <- Z.pow_add_r by lia. f_equal. }
    rewrite HPs. change (2 ^ 8) with 256.
    assert (S * (2 ^ (- eh) * 2 ^ (- e')) <= 255 * H * (2 ^ (- eh) * 2 ^ (- e')))
      by (apply Z.mul_le_mono_nonneg_r; nia).
    nia. }
  assert (HE1 : E1 <= -45).
  { subst E1. rewrite fexp64.
    assert (0 <= A / Z.pos mh) by (apply Z.div_pos; lia).
    pose proof (Zdigits2_le_pow (A / Z.pos mh) (8 - e') ltac:(lia) ltac:(lia)). lia. }
  pose proof (pow2_pos (- E1) ltac:(lia)) as HpE.
  pose proof (pow2_pos (E1 - e') ltac:(lia)) as Hpk.
  assert (HB' : B' * 2 ^ (- E1) = H * P).
  { subst B' P. rewrite Hmh, <- !Z.mul_assoc, <- !Z.pow_add_r by lia. do 2 f_equal. lia. }
  assert (HB'pos : 0 < B') by (subst B'; nia).
  assert (HB'P : B' <= P).
  { assert (Hpow : 2 ^ 45 <= 2 ^ (- E1)) by (apply Z.pow_le_mono_r; lia).
    assert (Hmul : B' * 2 ^ (- E1) <= P * 2 ^ (- E1)).
    { rewrite HB', (Z.mul_comm P). apply Z.mul_le_mono_nonneg_r; lia. }
    apply Z.mul_le_mono_pos_r in Hmul; lia. }
  set (n := t * 2 ^ (- E1)).
  assert (HnB : n * B' = t * H * P).
  { subst n. rewrite <- Z.mul_assoc, (Z.mul_comm (2 ^ (- E1))), HB'. ring. }
  (* the comparison of the mantissas *)
  assert (Hcmp : (m1 <=? n) = (S <=? t * H)).
  { destruct (Z.leb_spec S (t * H)) as [Hle | Hgt].
    - apply Z.leb_le. rewrite <- (div_nearest_even_exact n B' HB'pos).
      apply div_nearest_even_mono; [exact HB'pos | ].
      rewrite HnB, HA. apply Z.mul_le_mono_nonneg_r; lia.
    - apply Z.leb_gt.
      pose proof (div_nearest_even_bounds A B' HB'pos) as Hb. fold m1 in Hb.
      assert (n + 1 <= A / B'); [ | lia].
      apply Z.div_le_lower_bound; [exact HB'pos | ].
      rewrite HA.
      assert ((t * H + 1) * P <= S * P) by (apply Z.mul_le_mono_nonneg_r; lia).
      nia. }
  (* the comparison of the floats *)
  assert (He3max : m3 = 0 \/ e3 <= Float64.emax - Float64.prec).
  { destruct (Z.eq_dec m3 0) as [ | Hnz]; [left; assumption | right].
    pose proof (pow2_pos (e3 - E1) ltac:(lia)).
    assert (e3 - E1 < 54).
    { apply (lt_pow2_exponent m3); [lia | lia | ].
      rewrite Hval. apply Z.le_lt_trans with (1 := Htop). reflexivity. }
    unfold Float64.emax, Float64.prec. lia. }
  set (B := Z.min E1 Et).
  destruct (Hsv B ltac:(lia)) as [HBt HvalT].
  assert (Hpack : match pack false m3 e3 with
                  | S754_zero _ | S754_finite _ _ _ => True | _ => False end /\
                  below_exponent B (pack false m3 e3) /\
                  scaled_value B (pack false m3 e3) = m3 * 2 ^ (e3 - B)).
  { destruct He3max as [-> | He3max]; [cbn; auto | ].
    apply (scaled_value_pack B false m3 e3); [exact Hm3 | lia | exact He3max]. }
  destruct Hpack as (Hpf & HBp & HvalP).
  rewrite (leb_scaled_value B _ _ Hpf Htf Hv Hvt HBp HBt).
  rewrite HvalP, HvalT, <- Hcmp.
  pose proof (pow2_pos (E1 - B) ltac:(lia)) as HpB.
  replace (m3 * 2 ^ (e3 - B)) with (m1 * 2 ^ (E1 - B)).
  - replace (t * 2 ^ (- B)) with (n * 2 ^ (E1 - B)).
    + destruct (Z.leb_spec m1 n); destruct (Z.leb_spec (m1 * 2 ^ (E1 - B)) (n * 2 ^ (E1 - B)));
        try reflexivity; nia.
    + subst n. rewrite <- Z.mul_assoc, <- Z.pow_add_r by lia. do 2 f_equal. lia.
  - rewrite <- Hval, <- Z.mul_assoc, <- Z.pow_add_r by lia. do 2 f_equal. lia.
Qed.

(** *** The quotient of two integers, rounded *)

Lemma div_nearest_even_spec a b :
  0 < b -> nearest_even (div_nearest_even a b) a b.
Proof.
  intros Hb. unfold nearest_even, div_nearest_even.
  pose proof (Z.div_mod a b ltac:(lia)) as Hdm.
  pose proof (Z.mod_pos_bound a b Hb) as Hr.
  destruct (Z.compare_spec (2 * (a mod b)) b) as [Heq | Hlt | Hgt].
  - destruct (Z.even (a / b)) eqn:Heven.
    + split; [ | intros _; exact Heven].
      replace (a - a / b * b) with (a mod b) by lia. lia.
    + split.
      * replace (a - (a / b + 1) * b) with (a mod b - b) by lia. lia.
      * intros _. rewrite Z.even_add, Heven. reflexivity.
  - replace (a - a / b * b) with (a mod b) by lia. split; lia.
  - replace (a - (a / b + 1) * b) with (a mod b - b) by lia. split; lia.
Qed.

(** The binade of a quotient that is at most [1]. *)
Lemma doublings a b :
  0 < a <= b -> exists j, 0 <= j /\ b <= a * 2 ^ j < 2 * b.
Proof.
  intros [Ha Hab].
  pose proof (Zdigits2_mono a b ltac:(lia)) as Hd.
  pose proof (Zdigits2_bounds b ltac:(lia)) as [Hlob Hhib].
  pose proof (Zdigits2_pos b ltac:(lia)) as Hdb.
  set (j0 := Zdigits2 b - Zdigits2 a) in *.
  assert (Hda : Zdigits2 (a * 2 ^ j0) = Zdigits2 b).
  { rewrite Zdigits2_shift by lia. subst j0. lia. }
  pose proof (pow2_pos j0 ltac:(lia)) as Hp.
  pose proof (Zdigits2_bounds (a * 2 ^ j0) ltac:(nia)) as [Hlo Hhi].
  rewrite Hda in Hlo, Hhi.
  rewrite (pow2_pred (Zdigits2 b)) in Hhi, Hhib by lia.
  destruct (Z_le_gt_dec b (a * 2 ^ j0)) as [Hge | Hlt].
  - exists j0. split; [lia | ]. lia.
  - exists (j0 + 1). split; [lia | ].
    rewrite Z.pow_add_r by lia. change (2 ^ 1) with 2. lia.
Qed.

Lemma pow2_lt_exponent a b : 0 <= b -> 2 ^ a < 2 ^ b -> a < b.
Proof.
  intros Hb Hlt. destruct (Z_lt_le_dec a b) as [ | Hge]; [assumption | exfalso].
  assert (2 ^ b <= 2 ^ a) by (apply Z.pow_le_mono_r; lia). lia.
Qed.

Lemma div_pos_rounded a b :
  0 < a <= b -> rounded_quotient a b (Float64.div_pos false a b).
Proof.
  intros [Ha Hab].
  pose proof (div_pos_le_1 false a b ltac:(lia)) as Hfin.
  unfold rounded_quotient.
  replace (a =? 0) with false by (symmetry; apply Z.eqb_neq; lia).
  destruct (div_round_spec false a 0 b 0 Ha ltac:(lia))
    as (m3 & e3 & Hpack & Hv & He' & He3 & Hm3 & Hval & _).
  change (Float64.div_pos false a b = pack false m3 e3) in Hpack.
  rewrite Hpack in Hfin |- *. clear Hpack.
  split; [exact Hv | ].
  rewrite !Z.add_0_r, !Z.sub_0_r, Z.sub_0_l in He', He3, Hval.
  pose proof (Zdigits2_mono a b ltac:(lia)) as Hd.
  pose proof (Zdigits2_pos a Ha) as Hda.
  set (e' := Z.min (fexp Float64.prec Float64.emax (Zdigits2 a - Zdigits2 b)) 0) in *.
  set (A := a * 2 ^ (- e')) in *.
  set (E1 := fexp Float64.prec Float64.emax (Zdigits2 (A / b) + e')) in *.
  assert (He'eq : e' = Z.max (Zdigits2 a - Zdigits2 b - 53) (-1074)).
  { subst e'. rewrite fexp64. lia. }
  pose proof (pow2_pos (- e') ltac:(lia)) as Hpe.
  destruct (doublings a b ltac:(lia)) as (j & Hj & Hlo & Hhi).
  pose proof (pow2_pos j Hj) as Hpj.
  assert (HE1 : E1 = Z.max (-52 - j) (-1074)).
  { subst E1. rewrite fexp64.
    destruct (Z_le_gt_dec j (- e')) as [Hle | Hgt].
    - pose proof (pow2_pos (- e' - j) ltac:(lia)) as Hps.
      assert (HA : A = a * 2 ^ j * 2 ^ (- e' - j)).
      { subst A. rewrite <- Z.mul_assoc, <- Z.pow_add_r by lia. do 2 f_equal. lia. }
      assert (Hqlo : 2 ^ (- e' - j) <= A / b).
      { apply Z.div_le_lower_bound; [lia | ]. rewrite HA.
        apply Z.mul_le_mono_nonneg_r; lia. }
      assert (Hqhi : A / b < 2 ^ (- e' - j + 1)).
      { apply Z.div_lt_upper_bound; [lia | ]. rewrite HA.
        rewrite Z.pow_add_r by lia. change (2 ^ 1) with 2.
        assert (a * 2 ^ j * 2 ^ (- e' - j) < 2 * b * 2 ^ (- e' - j))
          by (apply Z.mul_lt_mono_pos_r; lia).
        lia. }
      rewrite (Zdigits2_unique (A / b) (- e' - j + 1)); [lia | lia | ].
      replace (- e' - j + 1 - 1) with (- e' - j) by lia. lia.
    - assert (Hq : A / b = 0).
      { apply Z.div_small. split; [subst A; nia | ].
        assert (HA2 : A * 2 ^ (j - - e') = a * 2 ^ j).
        { subst A. rewrite <- Z.mul_assoc, <- Z.pow_add_r by lia. do 2 f_equal. lia. }
        assert (2 <= 2 ^ (j - - e')).
        { change 2 with (2 ^ 1) at 1. apply Z.pow_le_mono_r; lia. }
        assert (0 <= A) by (subst A; nia).
        nia. }
      rewrite Hq. cbn [Zdigits2].
      assert (Hmin : e' = -1074).
      { destruct (Z_le_gt_dec (Zdigits2 a - Zdigits2 b - 53) (-1074)) as [ | Hnorm]; [lia | exfalso].
        pose proof (Zdigits2_bounds a Ha) as [Hloa _].
        pose proof (Zdigits2_bounds b ltac:(lia)) as [_ Hhib].
        assert (Hpow : 2 ^ (Zdigits2 a - 1 + j) < 2 ^ (Zdigits2 b + 1)).
        { rewrite !Z.pow_add_r by lia. change (2 ^ 1) with 2.
          assert (2 ^ (Zdigits2 a - 1) * 2 ^ j <= a * 2 ^ j)
            by (apply Z.mul_le_mono_nonneg_r; lia).
          lia. }
        apply pow2_lt_exponent in Hpow; lia. }
      lia. }
  assert (HE1neg : E1 <= -52) by lia.
  pose proof (pow2_pos (E1 - e') ltac:(lia)) as Hpk.
  pose proof (pow2_pos (- E1) ltac:(lia)) as HpE.
  assert (Hn : div_nearest_even A (b * 2 ^ (E1 - e')) = div_nearest_even (a * 2 ^ (- E1)) b).
  { replace A with (a * 2 ^ (- E1) * 2 ^ (E1 - e')).
    - apply div_nearest_even_scale; lia.
    - subst A. rewrite <- Z.mul_assoc, <- Z.pow_add_r by lia. do 2 f_equal. lia. }
  rewrite Hn in Hval.
  exists j, E1, (div_nearest_even (a * 2 ^ (- E1)) b).
  split; [exact Hj | split; [lia | split; [exact HE1 | ]]].
  split; [apply div_nearest_even_spec; lia | ].
  rewrite <- Hval.
  destruct m3 as [ | p | p]; [ | | lia]; cbn [pack float_value] in *.
  - reflexivity.
  - destruct (e3 <=? Float64.emax - Float64.prec).
    + cbn [float_value]. split; [exact He3 | reflexivity].
    + exfalso. exact (Hfin false eq_refl).
Qed.

Lemma int_truediv_rounded a b q :
  0 <= a <= b -> 0 < b -> int_truediv a b = Ok q -> rounded_quotient a b q.
Proof.
  intros Hab Hb. unfold int_truediv.
  replace (b =? 0) with false by (symmetry; apply Z.eqb_neq; lia).
  replace (b <? 0) with false by (symmetry; apply Z.ltb_ge; lia).
  destruct (Z.eqb_spec a 0) as [-> | Ha].
  - intros [= <-]. split; reflexivity.
  - replace (a <? 0) with false by (symmetry; apply Z.ltb_ge; lia).
    rewrite !Z.abs_eq by lia. cbn [xorb].
    pose proof (div_pos_rounded a b ltac:(lia)) as Hr.
    destruct (Float64.div_pos false a b); intros [= <-]; exact Hr.
Qed.

(** [round(a / b, 6)], for [0 <= a <= b]. *)
Lemma float_round_normalized a b q :
  0 <= a <= b -> 0 < b -> int_truediv a b = Ok q -> normalized a b (float_round q 6).
Proof.
  intros Hab Hb Hq.
  pose proof (int_truediv_rounded a b q Hab Hb Hq) as Hr.
  pose proof (int_truediv_unit_form a b q Hab Hq) as [-> | (m & e & -> & He & Hm)].
  - exists (S754_zero false), 0. split; [exact Hr | ].
    split; [ | split; [lia | split; reflexivity]].
    exists 0, 0. cbn. repeat split; lia.
  - pose proof (pow2_pos (- e) ltac:(lia)) as Hp.
    set (k := div_nearest_even (Z.pos m * 10 ^ 6) (2 ^ (- e))).
    assert (Hk : 0 <= k <= 10 ^ 6).
    { subst k. split.
      - pose proof (div_nearest_even_bounds (Z.pos m * 10 ^ 6) _ Hp).
        assert (0 <= Z.pos m * 10 ^ 6 / 2 ^ (- e)) by (apply Z.div_pos; lia). lia.
      - rewrite <- (div_nearest_even_exact (10 ^ 6) (2 ^ (- e)) Hp) at 2.
        apply div_nearest_even_mono; [exact Hp | ]. lia. }
    exists (S754_finite false m e), k. split; [exact Hr | ].
    split; [ | split; [exact Hk | ]].
    + exists (Z.pos m), e. split; [lia | split].
      * cbn [float_value]. rewrite Z.sub_diag. lia.
      * apply div_nearest_even_spec. exact Hp.
    + unfold float_round.
      replace (0 <=? e) with false by (symmetry; apply Z.leb_gt; lia).
      fold k. destruct (Z.eqb_spec k 0) as [Hk0 | Hk0].
      * rewrite Hk0. split; reflexivity.
      * apply div_pos_rounded. lia.
Qed.

Local Close Scope Z_scope.

(** ** The frame loop of [analyze_frames] *)

Lemma Ok_inj {A : Type} (a b : A) : Ok a = Ok b -> a = b.
Proof. congruence. Qed.

Lemma for_each_app {S X : Type} (body : S -> X -> result S) xs ys st :
  for_each body (xs ++ ys) st = (st' <- for_each body xs st ;; for_each body ys st').
Proof.
  revert st. induction xs as [ | x xs IH]; intros st; cbn; [reflexivity | ].
  destruct (body st x) as [st' | e]; cbn; [apply IH | reflexivity].
Qed.

(** A threshold is converted, or the comparison raises. *)
Lemma threshold_converts_dec threshold :
  threshold_converts threshold \/ float_of_int threshold = Raised OverflowError.
Proof.
  unfold threshold_converts, float_of_int.
  destruct (Float64.of_Z threshold); auto.
Qed.

(** The flags of a frame, as [column_blackness] returns them. *)
Lemma column_blackness_eq img threshold :
  threshold_converts threshold ->
  column_blackness img threshold =
  Ok (map (flag_at threshold img) (seq 0 (width img)),
      mean_axis0 (width img) (np_array img)).
Proof.
  intros Hthr. unfold column_blackness. rewrite Hthr. cbn [bind].
  unfold mean_axis0, flag_at. rewrite map_map. reflexivity.
Qed.

Lemma column_blackness_overflow img threshold :
  float_of_int threshold = Raised OverflowError ->
  column_blackness img threshold = Raised OverflowError.
Proof.
  intros Hthr. unfold column_blackness. rewrite Hthr. reflexivity.
Qed.

Lemma loop_body_first threshold img store n :
  threshold_converts threshold ->
  loop_body threshold
    {| ls_first := None; ls_col_means_store := store; ls_n := n |} img
  = Ok {| ls_first :=
            Some {| ff_counts :=
                      astype_int (map (flag_at threshold img) (seq 0 (width img)));
                    ff_width := width img;
                    ff_height := height img |};
          ls_col_means_store := store ++ [mean_axis0 (width img) (np_array img)];
          ls_n := (n + 1)%Z |}.
Proof.
  intros Hthr. unfold loop_body. rewrite column_blackness_eq by exact Hthr. reflexivity.
Qed.

Lemma loop_body_next threshold img ff store n :
  threshold_converts threshold ->
  width img = ff_width ff ->
  loop_body threshold
    {| ls_first := Some ff; ls_col_means_store := store; ls_n := n |} img
  = Ok {| ls_first :=
            Some {| ff_counts :=
                      iadd (ff_counts ff)
                        (astype_int (map (flag_at threshold img) (seq 0 (ff_width ff))));
                    ff_width := ff_width ff;
                    ff_height := ff_height ff |};
          ls_col_means_store := store ++ [mean_axis0 (width img) (np_array img)];
          ls_n := (n + 1)%Z |}.
Proof.
  intros Hthr Hw. unfold loop_body. rewrite column_blackness_eq by exact Hthr. cbn.
  rewrite Hw, Nat.eqb_refl. reflexivity.
Qed.

Lemma loop_body_mismatch threshold img ff store n :
  threshold_converts threshold ->
  width img <> ff_width ff ->
  loop_body threshold
    {| ls_first := Some ff; ls_col_means_store := store; ls_n := n |} img
  = Raised (RuntimeError widths_vary).
Proof.
  intros Hthr Hw. unfold loop_body. rewrite column_blackness_eq by exact Hthr. cbn.
  apply Nat.eqb_neq in Hw. rewrite Hw. reflexivity.
Qed.

(** Frames of the width of the first one are all accepted, whatever
    their heights. *)
Lemma for_each_same_width threshold rest : forall ff store n,
  threshold_converts threshold ->
  Forall (fun img => width img = ff_width ff) rest ->
  for_each (loop_body threshold) rest
    {| ls_first := Some ff; ls_col_means_store := store; ls_n := n |}
  = Ok {| ls_first :=
            Some {| ff_counts := counts_after threshold (ff_width ff) (ff_counts ff) rest;
                    ff_width := ff_width ff;
                    ff_height := ff_height ff |};
          ls_col_means_store :=
            store ++ map (fun img => mean_axis0 (width img) (np_array img)) rest;
          ls_n := (n + Z.of_nat (length rest))%Z |}.
Proof.
  induction rest as [ | img rest IH]; intros ff store n Hthr Hall.
  - cbn. rewrite app_nil_r, Z.add_0_r. destruct ff; reflexivity.
  - inversion Hall as [ | ? ? Hw Hrest]; subst.
    cbn [for_each]. rewrite loop_body_next by assumption. cbn [bind].
    rewrite IH by assumption. cbn [ff_counts ff_width ff_height].
    rewrite <- app_assoc. cbn [app map length counts_after fold_left].
    replace (n + 1 + Z.of_nat (length rest))%Z
      with (n + Z.of_nat (S (length rest)))%Z by lia.
    reflexivity.
Qed.

Lemma for_each_frames threshold f0 rest :
  threshold_converts threshold ->
  Forall (fun img => width img = width f0) rest ->
  for_each (loop_body threshold) (f0 :: rest) loop_init
  = Ok {| ls_first :=
            Some {| ff_counts :=
                      counts_after threshold (width f0)
                        (astype_int (map (flag_at threshold f0) (seq 0 (width f0)))) rest;
                    ff_width := width f0;
                    ff_height := height f0 |};
          ls_col_means_store :=
            map (fun img => mean_axis0 (width img) (np_array img)) (f0 :: rest);
          ls_n := Z.of_nat (length (f0 :: rest)) |}.
Proof.
  intros Hthr Hall. cbn [for_each]. unfold loop_init.
  rewrite loop_body_first by exact Hthr. cbn [bind].
  rewrite for_each_same_width by assumption.
  cbn [ff_counts ff_width ff_height app map length].
  replace (0 + 1 + Z.of_nat (length rest))%Z
    with (Z.of_nat (S (length rest))) by lia.
  reflexivity.
Qed.

(** ** The counts are the numbers of frames that flag each column *)

Lemma combine_map_map {X A B : Type} (f : X -> A) (g : X -> B) (l : list X) :
  combine (map f l) (map g l) = map (fun x => (f x, g x)) l.
Proof.
  induction l as [ | x l IH]; cbn; [reflexivity | rewrite IH; reflexivity].
Qed.

Lemma int64_small v : (- 2 ^ 63 <= v < 2 ^ 63)%Z -> int64 v = v.
Proof.
  intros Hv. unfold int64. rewrite Z.mod_small by lia. lia.
Qed.

Lemma black_frames_le threshold frames i :
  black_frames threshold frames i <= length frames.
Proof.
  unfold black_frames. apply filter_length_le.
Qed.

Lemma black_frames_snoc threshold pre img i :
  Z.of_nat (black_frames threshold (pre ++ [img]) i)
  = (Z.of_nat (black_frames threshold pre i)
     + (if flag_at threshold img i then 1 else 0))%Z.
Proof.
  unfold black_frames. rewrite filter_app, length_app. cbn.
  destruct (flag_at threshold img i); cbn; lia.
Qed.

Lemma iadd_black_counts threshold ncols pre img :
  (Z.of_nat (length pre) + 1 < 2 ^ 63)%Z ->
  iadd (black_counts threshold pre ncols)
       (astype_int (map (flag_at threshold img) (seq 0 ncols)))
  = black_counts threshold (pre ++ [img]) ncols.
Proof.
  intros Hn. unfold iadd, black_counts, astype_int.
  rewrite map_map, combine_map_map, map_map. apply map_ext. intros i. cbn.
  rewrite black_frames_snoc.
  pose proof (black_frames_le threshold pre i).
  apply int64_small. destruct (flag_at threshold img i); lia.
Qed.

Lemma counts_after_black_counts threshold ncols rest : forall pre,
  (Z.of_nat (length (pre ++ rest)) < 2 ^ 63)%Z ->
  counts_after threshold ncols (black_counts threshold pre ncols) rest
  = black_counts threshold (pre ++ rest) ncols.
Proof.
  induction rest as [ | img rest IH]; intros pre Hn.
  - rewrite app_nil_r. reflexivity.
  - cbn [counts_after fold_left]. rewrite length_app in Hn. cbn [length] in Hn.
    rewrite iadd_black_counts by lia.
    change (fold_left _ rest ?c) with (counts_after threshold ncols c rest).
    rewrite IH.
    + rewrite <- app_assoc. reflexivity.
    + rewrite !length_app. cbn [length]. lia.
Qed.

Lemma astype_int_black_counts threshold ncols img :
  astype_int (map (flag_at threshold img) (seq 0 ncols))
  = black_counts threshold [img] ncols.
Proof.
  unfold astype_int, black_counts, black_frames. rewrite map_map.
  apply map_ext. intros i. cbn. destruct (flag_at threshold img i); reflexivity.
Qed.

Lemma nth_map_seq {A : Type} (f : nat -> A) n i d :
  i < n -> nth i (map f (seq 0 n)) d = f i.
Proof.
  intros Hi. rewrite (nth_indep _ d (f 0)) by (rewrite length_map, length_seq; exact Hi).
  rewrite (map_nth f (seq 0 n) 0 i), seq_nth by exact Hi. reflexivity.
Qed.

(** ** What [analyze_frames] returns *)

Lemma first_mismatch (W : nat) (frames : list image) :
  Forall (fun img => width img = W) frames \/
  exists pre g post,
    frames = pre ++ g :: post /\
    Forall (fun img => width img = W) pre /\ width g <> W.
Proof.
  induction frames as [ | img rest IH]; [left; constructor | ].
  destruct (Nat.eq_dec (width img) W) as [Heq | Hne].
  - destruct IH as [Hall | (pre & g & post & -> & Hpre & Hg)].
    + left. constructor; assumption.
    + right. exists (img :: pre), g, post. repeat split; try assumption.
      constructor; assumption.
  - right. exists [], img, rest. repeat split; [constructor | assumption].
Qed.

Lemma analyze_frames_mismatch_raised f0 pre g post threshold frame_pct :
  threshold_converts threshold ->
  Forall (fun img => width img = width f0) pre ->
  width g <> width f0 ->
  analyze_frames (f0 :: pre ++ g :: post) threshold frame_pct
  = Raised (RuntimeError widths_vary).
Proof.
  intros Hthr Hpre Hg. unfold analyze_frames.
  change (f0 :: pre ++ g :: post) with ((f0 :: pre) ++ [g] ++ post).
  rewrite for_each_app, for_each_frames by assumption. cbn [bind].
  rewrite for_each_app. cbn [for_each].
  rewrite loop_body_mismatch by assumption. reflexivity.
Qed.

(** A threshold out of the range of binary64 stops the analysis at the
    first frame. *)
Lemma analyze_frames_overflow f0 rest threshold frame_pct :
  float_of_int threshold = Raised OverflowError ->
  analyze_frames (f0 :: rest) threshold frame_pct = Raised OverflowError.
Proof.
  intros Hthr. unfold analyze_frames. cbn [for_each]. unfold loop_body.
  rewrite column_blackness_overflow by exact Hthr. reflexivity.
Qed.

Lemma analyze_frames_ok_threshold frames threshold frame_pct a :
  analyze_frames frames threshold frame_pct = Ok a -> threshold_converts threshold.
Proof.
  intros Ha. destruct frames as [ | f0 rest].
  - unfold analyze_frames in Ha. cbn [for_each bind loop_init ls_n ls_first] in Ha.
    destruct (required_count frame_pct 0); discriminate.
  - destruct (threshold_converts_dec threshold) as [Hthr | Hthr]; [exact Hthr | ].
    rewrite analyze_frames_overflow in Ha by exact Hthr. discriminate.
Qed.

Lemma length_iadd c d : length (iadd c d) = Nat.min (length c) (length d).
Proof.
  unfold iadd. rewrite length_map, length_combine. reflexivity.
Qed.

Lemma length_counts_after threshold ncols rest : forall c0,
  length c0 = ncols -> length (counts_after threshold ncols c0 rest) = ncols.
Proof.
  induction rest as [ | img rest IH]; intros c0 Hc; [exact Hc | ].
  cbn [counts_after fold_left]. apply IH.
  rewrite length_iadd. unfold astype_int.
  rewrite !length_map, length_seq. lia.
Qed.

(** A returned analysis comes from a non-empty list of frames of one
    width, and is the record built after the loop. *)
Lemma analyze_frames_ok_inv frames threshold frame_pct a :
  analyze_frames frames threshold frame_pct = Ok a ->
  exists f0 rest required,
    frames = f0 :: rest /\
    Forall (fun img => width img = width f0) rest /\
    required_count frame_pct (Z.of_nat (length frames)) = Ok required /\
    a = {| n_frames := Z.of_nat (length frames);
           a_width := width f0;
           a_height := height f0;
           counts :=
             counts_after threshold (width f0)
               (astype_int (map (flag_at threshold f0) (seq 0 (width f0)))) rest;
           black_cols :=
             map (fun c => (required <=? c)%Z)
               (counts_after threshold (width f0)
                  (astype_int (map (flag_at threshold f0) (seq 0 (width f0)))) rest);
           col_means :=
             map (fun img => mean_axis0 (width img) (np_array img)) frames |}.
Proof.
  intros Ha. pose proof (analyze_frames_ok_threshold _ _ _ _ Ha) as Hthr.
  destruct frames as [ | f0 rest].
  - unfold analyze_frames in Ha. cbn [for_each bind loop_init ls_n ls_first] in Ha.
    destruct (required_count frame_pct 0); discriminate.
  - destruct (first_mismatch (width f0) rest)
      as [Hall | (pre & g & post & -> & Hpre & Hg)].
    + unfold analyze_frames in Ha. rewrite for_each_frames in Ha by assumption.
      cbn [bind ls_n ls_first ff_counts ff_width ff_height ls_col_means_store] in Ha.
      destruct (required_count frame_pct (Z.of_nat (length (f0 :: rest))))
        as [required | e] eqn:Hreq; [ | discriminate].
      cbn [bind] in Ha. injection Ha as <-.
      exists f0, rest, required. repeat split; assumption.
    + rewrite analyze_frames_mismatch_raised in Ha by assumption. discriminate.
Qed.

Lemma counts_after_eq_black_counts threshold f0 rest :
  (Z.of_nat (length (f0 :: rest)) < 2 ^ 63)%Z ->
  counts_after threshold (width f0)
    (astype_int (map (flag_at threshold f0) (seq 0 (width f0)))) rest
  = black_counts threshold (f0 :: rest) (width f0).
Proof.
  intros HN. rewrite astype_int_black_counts.
  rewrite counts_after_black_counts by exact HN. reflexivity.
Qed.

Lemma analyze_frames_same_width f0 rest threshold frame_pct :
  threshold_converts threshold ->
  Forall (fun img => width img = width f0) rest ->
  (Z.of_nat (length (f0 :: rest)) < 2 ^ 63)%Z ->
  analyze_frames (f0 :: rest) threshold frame_pct
  = (required <- required_count frame_pct (Z.of_nat (length (f0 :: rest))) ;;
     Ok {| n_frames := Z.of_nat (length (f0 :: rest));
           a_width := width f0;
           a_height := height f0;
           counts := black_counts threshold (f0 :: rest) (width f0);
           black_cols :=
             map (fun c => (required <=? c)%Z)
               (black_counts threshold (f0 :: rest) (width f0));
           col_means :=
             map (fun img => mean_axis0 (width img) (np_array img)) (f0 :: rest) |}).
Proof.
  intros Hthr Hall HN. unfold analyze_frames. rewrite for_each_frames by assumption.
  cbn [bind ls_n ls_first ff_counts ff_width ff_height ls_col_means_store].
  rewrite counts_after_eq_black_counts by exact HN. reflexivity.
Qed.

(** ** The flag of a column and its exact mean *)

Lemma column_samples img i :
  Forall (fun v => 0 <= v <= 255)%Z (column (np_array img) i).
Proof.
  unfold column, np_array. rewrite map_map. apply Forall_map, Forall_forall.
  intros row _.
  change (nth i (map uint8 row) 0%Z) with (nth i (map uint8 row) (uint8 0)).
  rewrite map_nth. unfold uint8.
  pose proof (Z.mod_pos_bound (nth i row 0%Z) 256 ltac:(lia)). lia.
Qed.

Lemma sum_samples vs :
  Forall (fun v => 0 <= v <= 255)%Z vs ->
  (0 <= fold_right Z.add 0 vs <= 255 * Z.of_nat (length vs))%Z.
Proof.
  induction 1 as [ | v vs Hv _ IH]; cbn [fold_right length]; lia.
Qed.

Lemma column_sum_bounds img i :
  (0 <= column_sum img i <= 255 * rows img)%Z.
Proof.
  pose proof (sum_samples _ (column_samples img i)) as Hs.
  unfold column, np_array in Hs. rewrite !length_map in Hs. exact Hs.
Qed.

(** The sum of a column in [float64] is exact, so the mean is the
    binary64 quotient of the exact sum by the number of rows. *)
Lemma column_mean_exact img i :
  (rows img <= 2 ^ 45)%Z ->
  column_mean (np_array img) i
  = Float64.div (Float64.of_Z (column_sum img i)) (Float64.of_Z (rows img)).
Proof.
  intros Hrows. pose proof (column_sum_bounds img i) as Hs.
  unfold column_mean. change Float64.zero with (Float64.of_Z 0).
  rewrite fold_add_of_Z.
  - unfold np_array at 2. rewrite length_map. reflexivity.
  - lia.
  - refine (Forall_impl _ _ (column_samples img i)). intros v Hv. lia.
  - fold (column_sum img i).
    assert (255 * 2 ^ 45 < 2 ^ 53)%Z by reflexivity. lia.
Qed.

(** The flag of a column is the comparison of its exact mean with the
    threshold. *)
Lemma flag_at_mean_le threshold img i :
  (0 <= threshold < 2 ^ 53)%Z -> (rows img <= 2 ^ 45)%Z ->
  flag_at threshold img i = mean_le threshold img i.
Proof.
  intros Ht Hrows. unfold flag_at. rewrite column_mean_exact by exact Hrows.
  pose proof (column_sum_bounds img i) as Hs.
  unfold mean_le. destruct (Z.leb_spec 1 (rows img)) as [Hpos | Hzero].
  - cbn [andb]. apply mean_leb_threshold; [exact Hs | lia | exact Ht].
  - assert (Hr : rows img = 0%Z) by (unfold rows in *; lia).
    rewrite Hr in *. replace (column_sum img i) with 0%Z by lia. reflexivity.
Qed.

Lemma black_frames_dark_frames threshold frames i :
  (0 <= threshold < 2 ^ 53)%Z ->
  Forall (fun img => rows img <= 2 ^ 45)%Z frames ->
  black_frames threshold frames i = dark_frames threshold frames i.
Proof.
  intros Ht Hall. unfold black_frames, dark_frames.
  induction Hall as [ | img frames Himg _ IH]; [reflexivity | ].
  cbn [filter]. rewrite (flag_at_mean_le threshold img i Ht Himg).
  destruct (mean_le threshold img i); cbn [length]; rewrite IH; reflexivity.
Qed.

(** [math.ceil] returns the least integer that is not below its
    argument. *)
Lemma math_ceil_is_ceiling x r : math_ceil x = Ok r -> is_ceiling x r.
Proof.
  unfold is_ceiling. destruct x as [s | s | | s m e]; cbn [math_ceil float_le_Z];
    try discriminate.
  - intros [= <-]. lia.
  - intros Hr. apply Ok_inj in Hr. subst r.
    destruct (Z.leb_spec 0 e) as [He | He]; [lia | ].
    pose proof (pow2_pos (- e) ltac:(lia)) as Hp.
    set (num := cond_Zopp s (Z.pos m)). set (d := (2 ^ (- e))%Z) in *.
    pose proof (Z.div_mod (- num) d ltac:(lia)) as Hdm.
    pose proof (Z.mod_pos_bound (- num) d Hp) as Hmod.
    split; nia.
Qed.

Lemma required_count_product frame_pct N :
  (0 <= N < 2 ^ 53)%Z ->
  required_count frame_pct N = math_ceil (Float64.mul frame_pct (Float64.of_Z N)).
Proof.
  intros HN. unfold required_count, float_mul_int.
  rewrite (float_of_int_small N HN). reflexivity.
Qed.

Lemma math_ceil_finite x :
  match x with S754_zero _ | S754_finite _ _ _ => True | _ => False end ->
  exists r, math_ceil x = Ok r.
Proof.
  destruct x; try contradiction; intros _; eexists; reflexivity.
Qed.

(** ** C3: flags, counts and the final decision *)

(** C3.  For every non-empty sequence of [N] frames of one width [W]
    (fewer than [2 ^ 53] frames of at most [2 ^ 45] rows each), every
    threshold [0 <= t < 2 ^ 53] and every fraction [frame_pct]:

    - on any frame of at most [2 ^ 45] rows, [column_blackness]
      returns one flag and one mean per column; the mean of column [i]
      is the binary64 quotient of the exact sum of its samples by
      their number (the sum in [float64] loses nothing), and its flag
      is true iff the exact mean is [<= t] (inclusive), that is iff the
      sum is at most [t] times the number of rows; a frame without
      rows flags nothing;
    - the frame count is converted exactly, and with a finite product
      [frame_pct * N] (the binary64 product) [analyze_frames] returns;
    - whenever it returns, [counts[i]] is the number of frames whose
      mean at column [i] is [<= t], and
      [black_cols[i] = (counts[i] >= required)], where [required] is
      the ceiling of the product: the least integer that is not below
      it. *)
Theorem analyze_frames_decision
    (f0 : image) (rest : list image) (threshold : Z) (frame_pct : float) :
  let frames := f0 :: rest in
  let N := Z.of_nat (length frames) in
  let W := width f0 in
  let product := Float64.mul frame_pct (Float64.of_Z N) in
  Forall (fun img => width img = W) rest ->
  Forall (fun img => rows img <= 2 ^ 45)%Z frames ->
  (0 <= threshold < 2 ^ 53)%Z ->
  (N < 2 ^ 53)%Z ->
  (forall img, (rows img <= 2 ^ 45)%Z ->
     exists flags means,
       column_blackness img threshold = Ok (flags, means) /\
       length flags = width img /\ length means = width img /\
       forall i, i < width img ->
         nth i means S754_nan
         = Float64.div (Float64.of_Z (column_sum img i)) (Float64.of_Z (rows img)) /\
         nth i flags false = mean_le threshold img i) /\
  (exists en, (en <= 0)%Z /\ float_value (Float64.of_Z N) (N * 2 ^ (- en)) en) /\
  (match product with S754_zero _ | S754_finite _ _ _ => True | _ => False end ->
   exists a, analyze_frames frames threshold frame_pct = Ok a) /\
  (forall a, analyze_frames frames threshold frame_pct = Ok a ->
     n_frames a = N /\ a_width a = W /\
     length (counts a) = W /\ length (black_cols a) = W /\
     exists required,
       is_ceiling product required /\
       forall i, i < W ->
         nth i (counts a) 0%Z = Z.of_nat (dark_frames threshold frames i) /\
         nth i (black_cols a) false
         = (required <=? Z.of_nat (dark_frames threshold frames i))%Z).
Proof.
  intros frames N W product Hwidth Hrows Ht HN.
  pose proof (float_of_int_small threshold Ht) as Hthr.
  assert (HN63 : (N < 2 ^ 63)%Z).
  { apply Z.lt_trans with (1 := HN). reflexivity. }
  assert (HN1 : (0 < N < 2 ^ 53)%Z) by (subst N frames; cbn [length] in *; lia).
  assert (Hrun : analyze_frames frames threshold frame_pct
                 = (required <- math_ceil product ;;
                    Ok {| n_frames := N;
                          a_width := W;
                          a_height := height f0;
                          counts := black_counts threshold frames W;
                          black_cols :=
                            map (fun c => (required <=? c)%Z)
                              (black_counts threshold frames W);
                          col_means :=
                            map (fun img => mean_axis0 (width img) (np_array img))
                              frames |})).
  { subst frames. rewrite analyze_frames_same_width by assumption.
    fold N. rewrite required_count_product by lia. reflexivity. }
  split; [ | split; [ | split]].
  - intros img Himg.
    exists (map (flag_at threshold img) (seq 0 (width img))),
           (mean_axis0 (width img) (np_array img)).
    split; [apply column_blackness_eq; exact Hthr | ].
    unfold mean_axis0. rewrite !length_map, length_seq.
    split; [reflexivity | split; [reflexivity | ]].
    intros i Hi. rewrite !nth_map_seq by exact Hi.
    split; [apply column_mean_exact; exact Himg | ].
    apply flag_at_mean_le; [exact Ht | exact Himg].
  - destruct (of_Z_canonical N HN1) as (mn & en & -> & _ & Hen & Hmn).
    exists en. split; [exact Hen | ].
    cbn [float_value]. rewrite Z.sub_diag, Z.mul_1_r. split; [lia | exact Hmn].
  - intros Hfinite. destruct (math_ceil_finite product Hfinite) as [required Hreq].
    rewrite Hrun, Hreq. cbn [bind]. eexists. reflexivity.
  - intros a Ha. rewrite Hrun in Ha.
    destruct (math_ceil product) as [required | e] eqn:Hreq; [ | discriminate].
    cbn [bind] in Ha. apply Ok_inj in Ha. subst a.
    cbn [n_frames a_width counts black_cols].
    unfold black_counts. rewrite !length_map, length_seq.
    repeat split.
    exists required. split; [apply math_ceil_is_ceiling; exact Hreq | ].
    intros i Hi. rewrite map_map.
    rewrite (nth_map_seq (fun j => Z.of_nat (black_frames threshold frames j))) by exact Hi.
    rewrite (nth_map_seq
               (fun j => (required <=? Z.of_nat (black_frames threshold frames j))%Z))
      by exact Hi.
    rewrite black_frames_dark_frames by assumption.
    split; reflexivity.
Qed.

Lemma analyze_frames_decision_witness :
  exists a, analyze_frames [sample_dark; sample_bright] 16 nine_tenths = Ok a.
Proof.
  apply (analyze_frames_decision sample_dark [sample_bright] 16 nine_tenths).
  - repeat constructor.
  - repeat constructor; vm_compute; discriminate.
  - lia.
  - vm_compute. reflexivity.
  - vm_compute. exact I.
Defined.

(** ** C5: the empty frame sequence *)

Lemma analyze_frames_empty_not_NoFramesError :
  analyze_frames [] 16 nine_tenths = Raised TypeError /\
  exception_name TypeError <> "NoFramesError"%string.
Proof.
  split; [vm_compute; reflexivity | discriminate].
Qed.

(** C5, as the code has it.  Given an empty frame sequence,
    [analyze_frames] returns no analysis: comparing [counts], still
    [None], with the required count raises [TypeError] (and [ValueError]
    already in [math.ceil] when [frame_pct] is NaN or infinite).  The
    rejection of an empty sequence is the caller's: [main] exits with
    status 3 before it calls [analyze_frames]. *)
Theorem analyze_frames_empty (threshold : Z) (frame_pct : float) :
  analyze_frames [] threshold frame_pct
  = Raised match frame_pct with
           | S754_nan | S754_infinity _ => ValueError
           | _ => TypeError
           end /\
  main [] threshold frame_pct = Exit 3.
Proof.
  split; [ | reflexivity].
  destruct frame_pct as [s | s | | s m e]; reflexivity.
Qed.

(** ** C6: frames of different widths *)

Lemma analyze_frames_mismatch_is_RuntimeError :
  analyze_frames [frame_800; frame_801] 16 nine_tenths
  = Raised (RuntimeError widths_vary) /\
  exception_name (RuntimeError widths_vary) = "RuntimeError"%string /\
  exception_name (RuntimeError widths_vary) <> "InconsistentWidthError"%string.
Proof.
  split; [vm_compute; reflexivity | split; [reflexivity | discriminate]].
Qed.

(** C6, as the code has it.  For a threshold that binary64 holds
    exactly ([0 <= t < 2 ^ 53]; the documented range is 0-255), when
    some frame's width differs from the first frame's width,
    [analyze_frames] raises, at the first such frame, the built-in
    [RuntimeError] with the message
    ["Extracted frame widths vary; unexpected."], and returns no result
    ([main] turns it, like any other exception, into exit status 5);
    the frames before it are accepted whatever their heights, which are
    never compared. *)
Theorem analyze_frames_width_mismatch
    (f0 : image) (pre : list image) (g : image) (post : list image)
    (threshold : Z) (frame_pct : float) :
  (0 <= threshold < 2 ^ 53)%Z ->
  Forall (fun img => width img = width f0) pre ->
  width g <> width f0 ->
  (exists st, for_each (loop_body threshold) (f0 :: pre) loop_init = Ok st) /\
  for_each (loop_body threshold) (f0 :: pre ++ [g]) loop_init
  = Raised (RuntimeError widths_vary) /\
  analyze_frames (f0 :: pre ++ g :: post) threshold frame_pct
  = Raised (RuntimeError widths_vary) /\
  main (f0 :: pre ++ g :: post) threshold frame_pct = Exit 5.
Proof.
  intros Ht Hpre Hg.
  pose proof (float_of_int_small threshold Ht) as Hthr.
  pose proof (for_each_frames threshold f0 pre Hthr Hpre) as Hloop.
  assert (Hstop : for_each (loop_body threshold) (f0 :: pre ++ [g]) loop_init
                  = Raised (RuntimeError widths_vary)).
  { change (f0 :: pre ++ [g]) with ((f0 :: pre) ++ [g]).
    rewrite for_each_app, Hloop. cbn [bind for_each].
    rewrite loop_body_mismatch by assumption. reflexivity. }
  pose proof (analyze_frames_mismatch_raised f0 pre g post threshold frame_pct
                Hthr Hpre Hg) as Hall.
  split; [eexists; exact Hloop | ].
  split; [exact Hstop | ].
  split; [exact Hall | ].
  unfold main. cbn [length Nat.eqb]. rewrite Hall. reflexivity.
Qed.

Lemma analyze_frames_width_mismatch_witness :
  analyze_frames ([sample_dark; sample_bright] ++ [sample_wide; sample_dark])
    16 nine_tenths
  = Raised (RuntimeError widths_vary).
Proof.
  apply (analyze_frames_width_mismatch sample_dark [sample_bright] sample_wide
           [sample_dark] 16 nine_tenths).
  - lia.
  - repeat constructor.
  - vm_compute. discriminate.
Defined.

(** ** C7: frames without columns or without rows *)

Lemma column_blackness_zero_dimension_ok :
  column_blackness {| width := 0; height := 0; pixels := [] |} 16 = Ok ([], []) /\
  column_blackness {| width := 2; height := 0; pixels := [] |} 16
  = Ok ([false; false], [S754_nan; S754_nan]).
Proof.
  split; vm_compute; reflexivity.
Qed.

Lemma map_const_repeat {A B : Type} (f : A -> B) (c : B) (l : list A) :
  (forall a, f a = c) -> map f l = repeat c (length l).
Proof.
  intros Hf. induction l as [ | a l IH]; cbn; [reflexivity | ].
  rewrite Hf, IH. reflexivity.
Qed.

(** C7, as the code has it.  For a threshold that binary64 holds
    exactly ([0 <= t < 2 ^ 53]; the documented range is 0-255),
    [column_blackness] does not fail on a frame without columns or
    without rows: a frame of zero width gives two empty vectors, and a
    frame of zero height gives one NaN mean and one false flag per
    column. *)
Theorem column_blackness_empty_frame (img : image) (threshold : Z) :
  (0 <= threshold < 2 ^ 53)%Z ->
  (width img = 0 -> column_blackness img threshold = Ok ([], [])) /\
  (pixels img = [] ->
   column_blackness img threshold
   = Ok (repeat false (width img), repeat S754_nan (width img))).
Proof.
  intros Ht. pose proof (float_of_int_small threshold Ht) as Hthr.
  split.
  - intros Hw. rewrite column_blackness_eq, Hw by exact Hthr. reflexivity.
  - intros Hp. rewrite column_blackness_eq by exact Hthr.
    unfold mean_axis0, flag_at, np_array.
    rewrite Hp. cbn [map].
    rewrite (map_const_repeat _ false) by reflexivity.
    rewrite (map_const_repeat _ S754_nan) by reflexivity.
    rewrite length_seq. reflexivity.
Qed.

Lemma column_blackness_empty_frame_witness :
  column_blackness {| width := 2; height := 0; pixels := [] |} 16
  = Ok (repeat false 2, repeat S754_nan 2).
Proof.
  apply (column_blackness_empty_frame {| width := 2; height := 0; pixels := [] |} 16).
  - lia.
  - reflexivity.
Defined.

Local Open Scope Z_scope.

(** ** C4: the crop rectangle *)

Lemma to_norm_ok left right W H :
  0 <= left <= W -> 0 <= right -> W <> 0 -> H <> 0 ->
  exists qx qw qh,
    int_truediv left W = Ok qx /\
    int_truediv (Z.max 0 (W - left - right)) W = Ok qw /\
    int_truediv H H = Ok qh /\
    to_norm left right W H
    = Ok {| x := left; y := 0; w := Z.max 0 (W - left - right); h := H;
            nx := float_round qx 6;
            ny := S754_zero (H <? 0);
            nw := float_round qw 6;
            nh := float_round qh 6 |}.
Proof.
  intros Hl Hr HW HH.
  destruct (int_truediv_ok left W HW ltac:(lia)) as [qx Hqx].
  destruct (int_truediv_ok (Z.max 0 (W - left - right)) W HW ltac:(lia)) as [qw Hqw].
  destruct (int_truediv_ok H H HH ltac:(lia)) as [qh Hqh].
  exists qx, qw, qh. repeat split; try assumption.
  unfold to_norm. rewrite Hqx, Hqw, Hqh. cbn [bind].
  unfold int_truediv at 1.
  destruct (Z.eqb_spec H 0) as [ | _]; [contradiction | ].
  reflexivity.
Qed.

(** C4.  For every pillar-width pair [(leftPx, rightPx)] of a frame
    ([0 <= leftPx <= W], [0 <= rightPx]) and frame dimensions [W > 0],
    [H > 0], [to_norm] returns the rectangle [x = leftPx], [y = 0],
    [w = max(0, W - leftPx - rightPx)], [h = H], and each normalized
    field is its pixel field divided by the frame dimension of its
    axis and rounded to 6 decimal places: the binary64 number nearest
    to [k / 10 ^ 6], where [k] is the integer nearest to [10 ^ 6 * q]
    and [q] the binary64 number nearest to the exact quotient (ties to
    even in the three roundings). *)
Theorem to_norm_rectangle (leftPx rightPx W H : Z) :
  0 <= leftPx <= W -> 0 <= rightPx -> 0 < W -> 0 < H ->
  exists c,
    to_norm leftPx rightPx W H = Ok c /\
    x c = leftPx /\ y c = 0 /\
    w c = Z.max 0 (W - leftPx - rightPx) /\ h c = H /\
    normalized (x c) W (nx c) /\
    normalized (y c) H (ny c) /\
    normalized (w c) W (nw c) /\
    normalized (h c) H (nh c).
Proof.
  intros Hl Hr HW HH.
  destruct (to_norm_ok leftPx rightPx W H Hl Hr ltac:(lia) ltac:(lia))
    as (qx & qw & qh & Hqx & Hqw & Hqh & Hn).
  assert (Hqy : int_truediv 0 H = Ok (S754_zero (H <? 0))).
  { unfold int_truediv. destruct (Z.eqb_spec H 0) as [ | _]; [lia | reflexivity]. }
  eexists. split; [exact Hn | ]. cbn [x y w h nx ny nw nh].
  repeat split.
  - apply (float_round_normalized leftPx W qx); [lia | lia | exact Hqx].
  - apply (float_round_normalized 0 H (S754_zero (H <? 0))); [lia | lia | exact Hqy].
  - apply (float_round_normalized (Z.max 0 (W - leftPx - rightPx)) W qw);
      [lia | lia | exact Hqw].
  - apply (float_round_normalized H H qh); [lia | lia | exact Hqh].
Qed.

Lemma to_norm_rectangle_witness :
  exists c,
    to_norm 3 0 10 6 = Ok c /\
    x c = 3 /\ y c = 0 /\
    w c = Z.max 0 (10 - 3 - 0) /\ h c = 6 /\
    normalized (x c) 10 (nx c) /\
    normalized (y c) 6 (ny c) /\
    normalized (w c) 10 (nw c) /\
    normalized (h c) 6 (nh c).
Proof.
  apply (to_norm_rectangle 3 0 10 6); lia.
Defined.

(** ** C8: division by zero *)

(** C8.  [to_norm] fails with [ZeroDivisionError] if and only if [W] is
    zero or [H] is zero; for [W > 0] and [H > 0] it never fails.  The
    pillar widths are those of a frame of width [W]:
    [0 <= leftPx <= W] and [0 <= rightPx]. *)
Theorem to_norm_division_by_zero (leftPx rightPx W H : Z) :
  0 <= leftPx <= W -> 0 <= rightPx ->
  (to_norm leftPx rightPx W H = Raised ZeroDivisionError <-> W = 0 \/ H = 0) /\
  (forall e, to_norm leftPx rightPx W H = Raised e -> e = ZeroDivisionError) /\
  (0 < W -> 0 < H -> exists c, to_norm leftPx rightPx W H = Ok c).
Proof.
  intros Hl Hr.
  assert (Hfail : W = 0 \/ H = 0 -> to_norm leftPx rightPx W H = Raised ZeroDivisionError).
  { intros [-> | ->].
    - reflexivity.
    - destruct (Z.eq_dec W 0) as [-> | HW]; [reflexivity | ].
      destruct (int_truediv_ok leftPx W HW ltac:(lia)) as [qx Hqx].
      unfold to_norm. rewrite Hqx. reflexivity. }
  assert (Hok : W <> 0 -> H <> 0 -> exists c, to_norm leftPx rightPx W H = Ok c).
  { intros HW HH.
    destruct (to_norm_ok leftPx rightPx W H Hl Hr HW HH) as (qx & qw & qh & _ & _ & _ & Hn).
    eauto. }
  split; [split; [ | exact Hfail] | split].
  - intros Hraised.
    destruct (Z.eq_dec W 0) as [ | HW]; [auto | ].
    destruct (Z.eq_dec H 0) as [ | HH]; [auto | ].
    destruct (Hok HW HH) as [c Hc]. congruence.
  - intros e He.
    destruct (Z.eq_dec W 0) as [HW | HW]; [rewrite Hfail in He by auto; congruence | ].
    destruct (Z.eq_dec H 0) as [HH | HH]; [rewrite Hfail in He by auto; congruence | ].
    destruct (Hok HW HH) as [c Hc]. congruence.
  - intros HW HH. apply Hok; lia.
Qed.

Lemma to_norm_division_by_zero_witness :
  (to_norm 0 0 0 6 = Raised ZeroDivisionError <-> 0 = 0 \/ 6 = 0) /\
  exists c, to_norm 3 0 10 6 = Ok c.
Proof.
  split.
  - apply (to_norm_division_by_zero 0 0 0 6); lia.
  - apply (to_norm_division_by_zero 3 0 10 6); lia.
Defined.

(** ** C9: the decision is antitone in [frame_pct] *)

(** C9.  For fixed counts and a fixed number [N] of frames, if column
    [i] is not black at [frame_pct1] and [frame_pct1 <= frame_pct2],
    then it is not black at [frame_pct2]: the required count
    [ceil(frame_pct * N)] only grows with [frame_pct]. *)
Theorem final_decision_antitone
    (cnts : list Z) (N : Z) (frame_pct1 frame_pct2 : float) (required1 required2 : Z) :
  0 <= N ->
  Float64.valid frame_pct1 = true -> Float64.valid frame_pct2 = true ->
  Float64.leb frame_pct1 frame_pct2 = true ->
  required_count frame_pct1 N = Ok required1 ->
  required_count frame_pct2 N = Ok required2 ->
  required1 <= required2 /\
  forall i : nat,
    nth i (map (fun c => required1 <=? c) cnts) false = false ->
    nth i (map (fun c => required2 <=? c) cnts) false = false.
Proof.
  intros HN Hv1 Hv2 Hle H1 H2.
  pose proof (required_count_mono _ _ _ _ _ HN Hv1 Hv2 Hle H1 H2) as Hr.
  split; [exact Hr | ].
  intros i. revert i. induction cnts as [ | c cnts IH]; intros [ | i]; cbn [map nth]; auto.
  intros Hc. apply Z.leb_gt in Hc. apply Z.leb_gt. lia.
Qed.

Lemma final_decision_antitone_witness :
  nth 3 (map (fun c => 4 <=? c) [4; 4; 4; 0; 0; 0; 0; 0; 3; 3]) false = false.
Proof.
  apply (final_decision_antitone [4; 4; 4; 0; 0; 0; 0; 0; 3; 3] 4
           one_half nine_tenths 2 4).
  - lia.
  - reflexivity.
  - reflexivity.
  - reflexivity.
  - vm_compute. reflexivity.
  - vm_compute. reflexivity.
  - vm_compute. reflexivity.
Defined.

(** ** C10: the crop lies inside the frame *)

(** C10.  For every boolean column vector of length [W >= 1] and every
    [H >= 1], [find_pillars] followed by [to_norm] yields a rectangle
    inside the frame: [0 <= x], [x + w = W - rightPx <= W], [y = 0] and
    [y + h = H]. *)
Theorem crop_inside_frame (cols : list bool) (H : Z) :
  (1 <= length cols)%nat -> 1 <= H ->
  let W := Z.of_nat (length cols) in
  let leftPx := Z.of_nat (fst (find_pillars cols)) in
  let rightPx := Z.of_nat (snd (find_pillars cols)) in
  exists c,
    to_norm leftPx rightPx W H = Ok c /\
    0 <= x c /\ 0 <= w c /\
    x c + w c = W - rightPx /\ x c + w c <= W /\
    y c = 0 /\ y c + h c = H.
Proof.
  intros HW HH W leftPx rightPx.
  destruct (find_pillars_le_half cols) as [Hl Hr].
  pose proof (half_plus_half (length cols)) as Hhalf.
  apply Nat2Z.inj_le in Hl, Hr, Hhalf. rewrite Nat2Z.inj_add in Hhalf.
  fold leftPx in Hl. fold rightPx in Hr.
  destruct (to_norm_ok leftPx rightPx W H ltac:(lia) ltac:(lia) ltac:(lia) ltac:(lia))
    as (qx & qw & qh & _ & _ & _ & Hn).
  eexists. split; [exact Hn | ].
  cbn [x y w h]. lia.
Qed.

Lemma crop_inside_frame_witness :
  exists c,
    to_norm (Z.of_nat (fst (find_pillars [true; true; false; false; true])))
            (Z.of_nat (snd (find_pillars [true; true; false; false; true])))
            (Z.of_nat (length [true; true; false; false; true])) 6 = Ok c /\
    0 <= x c /\ 0 <= w c /\
    x c + w c
    = Z.of_nat (length [true; true; false; false; true])
      - Z.of_nat (snd (find_pillars [true; true; false; false; true])) /\
    x c + w c <= Z.of_nat (length [true; true; false; false; true]) /\
    y c = 0 /\ y c + h c = 6.
Proof.
  apply (crop_inside_frame [true; true; false; false; true] 6).
  - cbn. lia.
  - lia.
Defined.

(** ** The scenario of the specification *)

(** Ten columns, four frames, counts [4,4,4,0,0,0,0,0,3,3] and
    [frame_pct = 0.9]: four frames are required, the left pillar is
    three columns wide, there is no right pillar, and the crop is
    [(3, 0, 7, H)]. *)
Example scenario_ten_columns :
  required_count nine_tenths 4 = Ok 4 /\
  find_pillars (map (fun c => 4 <=? c) [4; 4; 4; 0; 0; 0; 0; 0; 3; 3]) = (3%nat, 0%nat) /\
  exists c, to_norm 3 0 10 6 = Ok c /\ (x c, y c, w c, h c) = (3, 0, 7, 6).
Proof.
  split; [vm_compute; reflexivity | split; [vm_compute; reflexivity | ]].
  eexists. split; [vm_compute; reflexivity | reflexivity].
Qed.

(** * Further properties of the program *)

Local Close Scope Z_scope.

(** ** [find_pillars]: symmetry and the empty crop *)

(** X1.  Mirroring the column vector swaps the two pillar widths. *)
Theorem find_pillars_mirror (cols : list bool) :
  find_pillars (rev cols) = (snd (find_pillars cols), fst (find_pillars cols)).
Proof.
  rewrite !find_pillars_runs. cbn [fst snd].
  rewrite rev_involutive, length_rev. reflexivity.
Qed.

Lemma black_prefix_nth cols i :
  i < black_prefix cols -> nth i cols false = true.
Proof.
  revert i. induction cols as [ | [ | ] rest IH]; intros i Hi; cbn in *; try lia.
  destruct i as [ | i]; [reflexivity | apply IH; lia].
Qed.

Lemma all_black_of_halves cols :
  length cols = 2 * (length cols / 2) ->
  length cols / 2 <= black_prefix cols ->
  length cols / 2 <= black_prefix (rev cols) ->
  Forall (fun b => b = true) cols.
Proof.
  intros Heven HL HR. apply Forall_forall. intros b Hb.
  destruct (In_nth cols b false Hb) as (i & Hi & <-).
  destruct (Nat.lt_ge_cases i (length cols / 2)) as [Hlo | Hhi].
  - apply black_prefix_nth. lia.
  - assert (Hj : length cols - S i < black_prefix (rev cols)) by lia.
    apply black_prefix_nth in Hj.
    rewrite rev_nth in Hj by lia.
    replace (length cols - S (length cols - S i)) with i in Hj by lia.
    exact Hj.
Qed.

(** X2.  The crop that [find_pillars] leaves, [W - leftPx - rightPx]
    columns, is empty exactly when the width is even and every column
    is black; for an odd width at least one column is always kept. *)
Theorem crop_empty_iff_all_black (cols : list bool) :
  let W := length cols in
  let leftPx := fst (find_pillars cols) in
  let rightPx := snd (find_pillars cols) in
  (W - leftPx - rightPx = 0 <->
   Nat.even W = true /\ Forall (fun b => b = true) cols) /\
  (Nat.even W = false -> 1 <= W - leftPx - rightPx).
Proof.
  cbv zeta. rewrite find_pillars_runs. cbn [fst snd].
  pose proof (Nat.div_mod_eq (length cols) 2) as Hdm.
  pose proof (Nat.mod_upper_bound (length cols) 2 ltac:(lia)) as Hm.
  pose proof (black_prefix_le cols) as HL.
  pose proof (black_prefix_le (rev cols)) as HR. rewrite length_rev in HR.
  assert (Hev : Nat.even (length cols) = true <-> length cols mod 2 = 0).
  { rewrite Nat.even_spec. split.
    - intros [m Hm']. lia.
    - intros Hz. exists (length cols / 2). lia. }
  split; [split | ].
  - intros Hw.
    assert (Hmod : length cols mod 2 = 0) by lia.
    split; [apply Hev; exact Hmod | ].
    apply all_black_of_halves; lia.
  - intros [Heven Hall]. apply Hev in Heven.
    rewrite (black_prefix_all _ Hall).
    rewrite black_prefix_all by (apply Forall_rev; exact Hall).
    rewrite length_rev. lia.
  - intros Hodd.
    destruct (Nat.eq_dec (length cols mod 2) 0) as [Hz | Hnz].
    + apply Hev in Hz. congruence.
    + lia.
Qed.

Lemma crop_empty_iff_all_black_witness :
  1 <= length [true; true; true] - fst (find_pillars [true; true; true])
       - snd (find_pillars [true; true; true]).
Proof.
  apply (crop_empty_iff_all_black [true; true; true]). reflexivity.
Defined.

(** ** [analyze_frames]: what a returned analysis tells *)

(** X3.  A returned analysis has a consistent shape: the frames were
    not empty and all of the width of the first one, which is the
    reported width; [n_frames] is their number; there is one count and
    one decision per column and one row of means per frame; and (below
    [2 ^ 63] frames) every count lies between [0] and [n_frames]. *)
Theorem analyze_frames_ok_shape
    (frames : list image) (threshold : Z) (frame_pct : float) (a : analysis) :
  analyze_frames frames threshold frame_pct = Ok a ->
  (Z.of_nat (length frames) < 2 ^ 63)%Z ->
  frames <> [] /\
  Forall (fun img => width img = a_width a) frames /\
  n_frames a = Z.of_nat (length frames) /\
  length (counts a) = a_width a /\
  length (black_cols a) = a_width a /\
  length (col_means a) = length frames /\
  Forall (fun row => length row = a_width a) (col_means a) /\
  Forall (fun c => 0 <= c <= n_frames a)%Z (counts a).
Proof.
  intros Ha HN.
  destruct (analyze_frames_ok_inv _ _ _ _ Ha) as (f0 & rest & required & -> & Hall & _ & ->).
  cbn [n_frames a_width a_height counts black_cols col_means].
  rewrite counts_after_eq_black_counts by exact HN.
  unfold black_counts. rewrite !length_map, length_seq.
  repeat split; try reflexivity.
  - discriminate.
  - constructor; [reflexivity | exact Hall].
  - apply Forall_map. apply Forall_forall. intros img Himg.
    unfold mean_axis0. rewrite length_map, length_seq.
    destruct Himg as [<- | Hin]; [reflexivity | ].
    rewrite Forall_forall in Hall. apply Hall. exact Hin.
  - apply Forall_map. apply Forall_forall. intros i _.
    pose proof (black_frames_le threshold (f0 :: rest) i). lia.
Qed.

Lemma analyze_frames_ok_shape_witness :
  length (counts {| n_frames := 2; a_width := 3; a_height := 2;
                    counts := [2; 1; 1]%Z;
                    black_cols := [true; false; false];
                    col_means := map (fun img => mean_axis0 (width img) (np_array img))
                                   [sample_dark; sample_bright] |}) = 3.
Proof.
  apply (analyze_frames_ok_shape [sample_dark; sample_bright] 16 nine_tenths).
  - vm_compute. reflexivity.
  - vm_compute. reflexivity.
Defined.

Lemma black_frames_permutation threshold frames frames' i :
  Permutation frames frames' ->
  black_frames threshold frames i = black_frames threshold frames' i.
Proof.
  unfold black_frames. induction 1 as [ | img l l' _ IH | img img' l | l l' l'' _ IH1 _ IH2].
  - reflexivity.
  - cbn. destruct (flag_at threshold img i); cbn; rewrite IH; reflexivity.
  - cbn. destruct (flag_at threshold img i), (flag_at threshold img' i); reflexivity.
  - rewrite IH1. exact IH2.
Qed.

(** X4.  The decision does not depend on the order of the frames: a
    reordered frame list is analysed to the same counts, the same black
    columns, the same width and the same number of frames (only the
    reported height and the order of the rows of means follow the
    order of the frames). *)
Theorem analyze_frames_permutation
    (frames frames' : list image) (threshold : Z) (frame_pct : float) (a : analysis) :
  Permutation frames frames' ->
  (Z.of_nat (length frames) < 2 ^ 63)%Z ->
  analyze_frames frames threshold frame_pct = Ok a ->
  exists a',
    analyze_frames frames' threshold frame_pct = Ok a' /\
    n_frames a' = n_frames a /\
    a_width a' = a_width a /\
    counts a' = counts a /\
    black_cols a' = black_cols a.
Proof.
  intros Hperm HN Ha.
  pose proof (analyze_frames_ok_threshold _ _ _ _ Ha) as Hthr.
  destruct (analyze_frames_ok_inv _ _ _ _ Ha) as (f0 & rest & required & -> & Hall & Hreq & _).
  rewrite analyze_frames_same_width in Ha by assumption.
  rewrite Hreq in Ha. cbn [bind] in Ha. injection Ha as <-.
  assert (Hall' : Forall (fun img => width img = width f0) frames').
  { apply (Permutation_Forall Hperm). constructor; [reflexivity | exact Hall]. }
  pose proof (Permutation_length Hperm) as Hlen.
  destruct frames' as [ | f0' rest']; [discriminate | ].
  inversion Hall' as [ | ? ? Hw0 Hrest']; subst.
  rewrite analyze_frames_same_width; [ | exact Hthr | | ].
  - rewrite <- Hlen, Hreq. cbn [bind]. eexists. split; [reflexivity | ].
    cbn [n_frames a_width counts black_cols].
    assert (Hcounts : black_counts threshold (f0' :: rest') (width f0')
                      = black_counts threshold (f0 :: rest) (width f0)).
    { rewrite Hw0. unfold black_counts. apply map_ext. intros i.
      rewrite (black_frames_permutation threshold _ _ i Hperm). reflexivity. }
    rewrite Hcounts. repeat split; assumption.
  - rewrite Hw0. exact Hrest'.
  - rewrite <- Hlen. exact HN.
Qed.

Lemma analyze_frames_permutation_witness :
  exists a',
    analyze_frames [sample_bright; sample_dark] 16 nine_tenths = Ok a' /\
    n_frames a' = 2%Z /\
    a_width a' = 3 /\
    counts a' = [2; 1; 1]%Z /\
    black_cols a' = [true; false; false].
Proof.
  apply (analyze_frames_permutation [sample_dark; sample_bright]
           [sample_bright; sample_dark] 16 nine_tenths
           {| n_frames := 2; a_width := 3; a_height := 2;
              counts := [2; 1; 1]%Z;
              black_cols := [true; false; false];
              col_means := map (fun img => mean_axis0 (width img) (np_array img))
                             [sample_dark; sample_bright] |}).
  - apply perm_swap.
  - vm_compute. reflexivity.
  - vm_compute. reflexivity.
Defined.

(** ** [main]: frames without columns or rows, and the printed report *)

Lemma to_norm_ok_inv left right W H c :
  to_norm left right W H = Ok c ->
  W <> 0%Z /\ H <> 0%Z /\
  exists qx qy qw qh,
    int_truediv left W = Ok qx /\
    int_truediv 0 H = Ok qy /\
    int_truediv (Z.max 0 (W - left - right)) W = Ok qw /\
    int_truediv H H = Ok qh /\
    c = {| x := left; y := 0%Z; w := Z.max 0 (W - left - right); h := H;
           nx := float_round qx 6; ny := float_round qy 6;
           nw := float_round qw 6; nh := float_round qh 6 |}.
Proof.
  unfold to_norm. intros Hc.
  destruct (int_truediv left W) as [qx | e] eqn:Hqx; [ | discriminate].
  destruct (int_truediv 0 H) as [qy | e] eqn:Hqy; [ | discriminate].
  destruct (int_truediv (Z.max 0 (W - left - right)) W) as [qw | e] eqn:Hqw; [ | discriminate].
  destruct (int_truediv H H) as [qh | e] eqn:Hqh; [ | discriminate].
  cbn [bind] in Hc. injection Hc as <-.
  split; [ | split].
  - intros ->. rewrite int_truediv_by_zero in Hqx. discriminate.
  - intros ->. rewrite int_truediv_by_zero in Hqy. discriminate.
  - exists qx, qy, qw, qh. repeat split; reflexivity.
Qed.

Lemma to_norm_zero_dimension left right W H :
  (0 <= left <= W)%Z -> W = 0%Z \/ H = 0%Z ->
  to_norm left right W H = Raised ZeroDivisionError.
Proof.
  intros Hl [-> | ->]; [reflexivity | ].
  destruct (Z.eq_dec W 0) as [-> | HW]; [reflexivity | ].
  destruct (int_truediv_ok left W HW ltac:(lia)) as [qx Hqx].
  unfold to_norm. rewrite Hqx. reflexivity.
Qed.

(** X5.  Once frames are extracted, a first frame without columns or
    without rows never yields a report: the part of [main] that
    follows the extraction ends in the handler of [except Exception],
    with status 5, whatever the threshold and [frame_pct] (when the
    analysis itself succeeds, by the [ZeroDivisionError] of
    [to_norm]). *)
Theorem main_zero_dimension_frame
    (f0 : image) (rest : list image) (threshold : Z) (frame_pct : float) :
  width f0 = 0 \/ height f0 = 0 ->
  main (f0 :: rest) threshold frame_pct = Exit 5.
Proof.
  intros Hzero. unfold main. cbn [length Nat.eqb].
  destruct (analyze_frames (f0 :: rest) threshold frame_pct) as [a | e] eqn:Ha;
    [ | reflexivity].
  destruct (analyze_frames_ok_inv _ _ _ _ Ha) as (g0 & rest' & required & Hf & _ & _ & Hrec).
  injection Hf as <- <-.
  cbn [bind].
  destruct (find_pillars_le_half (black_cols a)) as [Hl _].
  assert (Hlen : length (black_cols a) = a_width a).
  { rewrite Hrec. cbn [black_cols a_width].
    rewrite length_map. apply length_counts_after.
    unfold astype_int. rewrite !length_map, length_seq. reflexivity. }
  rewrite Hlen in Hl.
  assert (Hhalf : a_width a / 2 <= a_width a) by (apply Nat.Div0.div_le_upper_bound; lia).
  rewrite to_norm_zero_dimension; [reflexivity | lia | ].
  rewrite Hrec. cbn [a_width a_height]. lia.
Qed.

Lemma main_zero_dimension_frame_witness :
  main [{| width := 2; height := 0; pixels := [] |}] 16 nine_tenths = Exit 5.
Proof.
  apply (main_zero_dimension_frame {| width := 2; height := 0; pixels := [] |} [] 16 nine_tenths).
  right. reflexivity.
Defined.

(** X6.  Whenever [main] prints a report, the frames were of one width
    [W > 0] and the first of height [H > 0]; both pillars are at most
    [W // 2] wide; the crop is [x = left], [y = 0],
    [w = W - left - right >= 0], [h = H], so it lies inside the frame;
    and [pillar_percent_left] is the crop's [nx]. *)
Theorem main_printed_report
    (frames : list image) (threshold : Z) (frame_pct : float) (out : report) :
  main frames threshold frame_pct = Printed out ->
  let W := fst (video_size_used_for_analysis out) in
  let H := snd (video_size_used_for_analysis out) in
  let c := report_crop out in
  Forall (fun img => width img = W) frames /\
  (exists f0 rest, frames = f0 :: rest /\ H = height f0) /\
  0 < W /\ 0 < H /\
  n_sampled_frames out = Z.of_nat (length frames) /\
  left_pillar_px out <= W / 2 /\
  right_pillar_px out <= W / 2 /\
  x c = Z.of_nat (left_pillar_px out) /\
  y c = 0%Z /\
  w c = (Z.of_nat W - Z.of_nat (left_pillar_px out) - Z.of_nat (right_pillar_px out))%Z /\
  (0 <= w c)%Z /\
  h c = Z.of_nat H /\
  pillar_percent_left out = nx c.
Proof.
  unfold main. destruct frames as [ | f0 rest]; cbn [length Nat.eqb]; [discriminate | ].
  destruct (analyze_frames (f0 :: rest) threshold frame_pct) as [a | e] eqn:Ha;
    [ | discriminate].
  cbn [bind].
  destruct (analyze_frames_ok_inv _ _ _ _ Ha) as (g0 & rest' & required & Hf & Hall & _ & Hrec).
  injection Hf as <- <-.
  assert (Hlen : length (black_cols a) = a_width a).
  { rewrite Hrec. cbn [black_cols a_width].
    rewrite length_map. apply length_counts_after.
    unfold astype_int. rewrite !length_map, length_seq. reflexivity. }
  assert (HW : a_width a = width f0) by (rewrite Hrec; reflexivity).
  assert (HH : a_height a = height f0) by (rewrite Hrec; reflexivity).
  assert (HN : n_frames a = Z.of_nat (length (f0 :: rest))) by (rewrite Hrec; reflexivity).
  destruct (find_pillars_le_half (black_cols a)) as [Hl Hr]. rewrite Hlen in Hl, Hr.
  pose proof (half_plus_half (a_width a)) as Hhalf.
  set (left := fst (find_pillars (black_cols a))) in *.
  set (right := snd (find_pillars (black_cols a))) in *.
  destruct (to_norm _ _ _ _) as [c | e] eqn:Hc; [ | discriminate].
  destruct (to_norm_ok_inv _ _ _ _ _ Hc)
    as (HW0 & HH0 & qx & qy & qw & qh & Hqx & _ & _ & _ & ->).
  cbn [bind]. rewrite Hqx. cbn [bind].
  destruct (int_truediv (Z.of_nat right) (Z.of_nat (a_width a))) as [pr | e]; [ | discriminate].
  cbn [bind]. intros [= <-].
  cbn [video_size_used_for_analysis n_sampled_frames left_pillar_px right_pillar_px
       pillar_percent_left report_crop fst snd x y w h nx].
  rewrite HW in *. rewrite HH in *.
  repeat split; try lia; try assumption.
  - constructor; [reflexivity | exact Hall].
  - eauto.
Qed.

Lemma main_printed_report_witness :
  exists out,
    main [sample_dark; sample_bright] 16 nine_tenths = Printed out /\
    w (report_crop out)
    = (Z.of_nat (fst (video_size_used_for_analysis out))
       - Z.of_nat (left_pillar_px out) - Z.of_nat (right_pillar_px out))%Z.
Proof.
  destruct (main [sample_dark; sample_bright] 16 nine_tenths) as [status | out] eqn:Hm.
  - vm_compute in Hm. discriminate.
  - exists out. split; [reflexivity | ].
    apply (main_printed_report [sample_dark; sample_bright] 16 nine_tenths out Hm).
Defined.

Local Open Scope Z_scope.

(** ** [to_norm]: the vertical fields and the crop without pillars *)

(** X7.  Whatever [to_norm] returns, its vertical fields span the whole
    height: [y = 0], [h = H], [ny] is a zero and [nh] is exactly [1.0];
    and the width [w] is never negative. *)
Theorem to_norm_full_height (left right W H : Z) (c : crop) :
  to_norm left right W H = Ok c ->
  x c = left /\ y c = 0 /\ h c = H /\ 0 <= w c /\
  ny c = S754_zero (H <? 0) /\ nh c = one.
Proof.
  intros Hc.
  destruct (to_norm_ok_inv _ _ _ _ _ Hc)
    as (HW & HH & qx & qy & qw & qh & Hqx & Hqy & Hqw & Hqh & ->).
  cbn [x y w h ny nh].
  rewrite int_truediv_same in Hqh by exact HH. injection Hqh as <-.
  unfold int_truediv in Hqy.
  destruct (Z.eqb_spec H 0) as [ | _]; [contradiction | ].
  cbn in Hqy. injection Hqy as <-.
  repeat split; try lia; reflexivity.
Qed.

Lemma to_norm_full_height_witness :
  nh {| x := 3; y := 0; w := 7; h := 6;
        nx := S754_finite false 5404319552844595 (-54);
        ny := S754_zero false;
        nw := S754_finite false 6305039478318694 (-53);
        nh := one |} = one.
Proof.
  apply (to_norm_full_height 3 0 10 6). vm_compute. reflexivity.
Defined.

(** X8.  Without pillars the crop is the whole frame: for [W > 0] and
    [H > 0], [to_norm 0 0 W H] is the rectangle [(0, 0, W, H)] with the
    normalized fields [(0.0, 0.0, 1.0, 1.0)]. *)
Theorem to_norm_no_pillars (W H : Z) :
  0 < W -> 0 < H ->
  to_norm 0 0 W H
  = Ok {| x := 0; y := 0; w := W; h := H;
          nx := S754_zero false; ny := S754_zero false; nw := one; nh := one |}.
Proof.
  intros HW HH. unfold to_norm.
  replace (Z.max 0 (W - 0 - 0)) with W by lia.
  rewrite !int_truediv_same by lia.
  unfold int_truediv.
  destruct (Z.eqb_spec W 0) as [ | _]; [lia | ].
  destruct (Z.eqb_spec H 0) as [ | _]; [lia | ].
  cbn [Z.eqb bind].
  replace (W <? 0) with false by (symmetry; apply Z.ltb_ge; lia).
  replace (H <? 0) with false by (symmetry; apply Z.ltb_ge; lia).
  reflexivity.
Qed.

Lemma to_norm_no_pillars_witness :
  to_norm 0 0 800 450
  = Ok {| x := 0; y := 0; w := 800; h := 450;
          nx := S754_zero false; ny := S754_zero false; nw := one; nh := one |}.
Proof.
  apply (to_norm_no_pillars 800 450); lia.
Defined.

(** ** The required count at the ends of the range of [frame_pct] *)

Lemma required_count_zero_ok p N r :
  0 <= N -> required_count p N = Ok r ->
  required_count Float64.zero N = Ok 0.
Proof.
  intros HN Hr.
  destruct (required_count_cases p N r HN Hr) as [_ [[Hz _] | (mn & en & Hf & _)]];
    unfold required_count, float_mul_int, float_of_int.
  - rewrite Hz. reflexivity.
  - rewrite Hf. reflexivity.
Qed.

Lemma all_black_pillars (cols : list bool) :
  Forall (fun b => b = true) cols ->
  find_pillars cols = (length cols / 2, length cols / 2)%nat.
Proof.
  intros Hall. rewrite find_pillars_runs.
  rewrite (black_prefix_all _ Hall).
  rewrite black_prefix_all by (apply Forall_rev; exact Hall).
  rewrite length_rev.
  pose proof (Nat.Div0.div_le_upper_bound (length cols) 2 (length cols)).
  f_equal; apply Nat.min_r; lia.
Qed.

Lemma black_counts_nonneg threshold frames ncols :
  Forall (fun c => 0 <= c) (black_counts threshold frames ncols).
Proof.
  unfold black_counts. apply Forall_map, Forall_forall. intros i _. lia.
Qed.

(** X9.  With a [frame_pct] that is zero or negative the required count
    is at most [0], so every column is reported black and both pillars
    are cut at half the width. *)
Theorem nonpositive_frame_pct_all_black
    (frames : list image) (threshold : Z) (frame_pct : float) (a : analysis) :
  analyze_frames frames threshold frame_pct = Ok a ->
  Z.of_nat (length frames) < 2 ^ 63 ->
  Float64.valid frame_pct = true ->
  Float64.leb frame_pct Float64.zero = true ->
  Forall (fun b => b = true) (black_cols a) /\
  find_pillars (black_cols a) = (a_width a / 2, a_width a / 2)%nat.
Proof.
  intros Ha HN Hv Hle.
  destruct (analyze_frames_ok_inv _ _ _ _ Ha) as (f0 & rest & required & -> & Hall & Hreq & Hrec).
  pose proof (required_count_zero_ok _ _ _ (Nat2Z.is_nonneg _) Hreq) as Hz.
  pose proof (required_count_mono frame_pct Float64.zero _ _ _ (Nat2Z.is_nonneg _)
                Hv eq_refl Hle Hreq Hz) as Hr.
  rewrite counts_after_eq_black_counts in Hrec by exact HN.
  assert (Hblack : Forall (fun b => b = true) (black_cols a)).
  { rewrite Hrec. cbn [black_cols]. apply Forall_map.
    refine (Forall_impl _ _ (black_counts_nonneg _ _ _)).
    intros c Hc. apply Z.leb_le. lia. }
  split; [exact Hblack | ].
  rewrite (all_black_pillars _ Hblack).
  rewrite Hrec. cbn [black_cols a_width]. unfold black_counts.
  rewrite !length_map, length_seq. reflexivity.
Qed.

Lemma nonpositive_frame_pct_all_black_witness :
  find_pillars [true; true; true] = (3 / 2, 3 / 2)%nat.
Proof.
  apply (nonpositive_frame_pct_all_black [sample_dark; sample_bright] 16
           (S754_finite true 4503599627370496 (-53))
           {| n_frames := 2; a_width := 3; a_height := 2;
              counts := [2; 1; 1];
              black_cols := [true; true; true];
              col_means := map (fun img => mean_axis0 (width img) (np_array img))
                             [sample_dark; sample_bright] |}).
  - vm_compute. reflexivity.
  - vm_compute. reflexivity.
  - reflexivity.
  - reflexivity.
Defined.

(** *** A positive [frame_pct] requires at least one frame *)

Lemma round_scaled_min E0 :
  E0 <= -1074 ->
  round_scaled E0 (2 ^ (-1074 - E0)) = 2 ^ (-1074 - E0).
Proof.
  intros HE. unfold round_scaled.
  assert (Hk : shift_amount (2 ^ (-1074 - E0)) E0 = -1074 - E0).
  { unfold shift_amount. rewrite <- (Z.mul_1_l (2 ^ (-1074 - E0))).
    rewrite Zdigits2_shift, fexp64 by lia. cbn [Zdigits2 digits2_pos]. lia. }
  rewrite Hk. rewrite <- (Z.mul_1_l (2 ^ (-1074 - E0))) at 1.
  rewrite div_nearest_even_exact by (apply pow2_pos; lia). lia.
Qed.

Lemma math_ceil_positive p e r :
  math_ceil (S754_finite false p e) = Ok r -> 1 <= r.
Proof.
  unfold math_ceil, cond_Zopp. intros Hr. apply Ok_inj in Hr. subst r.
  destruct (Z.leb_spec 0 e) as [He | He].
  - pose proof (pow2_pos e He).
    assert (1 * 1 <= Z.pos p * 2 ^ e) by (apply Z.mul_le_mono_nonneg; lia). lia.
  - pose proof (pow2_pos (- e) ltac:(lia)) as Hp.
    assert (- Z.pos p / 2 ^ (- e) < 0) by (apply Z.div_lt_upper_bound; lia).
    lia.
Qed.

Lemma required_count_positive m e N r :
  Float64.valid (S754_finite false m e) = true ->
  1 <= N ->
  required_count (S754_finite false m e) N = Ok r ->
  1 <= r.
Proof.
  intros Hv HN Hr.
  destruct (of_Z_ge_1 N HN) as [Hnz Hge].
  destruct (required_count_cases _ N r ltac:(lia) Hr) as [_ [[Hz _] | (mn & en & Hf & Hc)]].
  { exfalso. exact (Hnz _ Hz). }
  specialize (Hge mn en Hf).
  apply bounded_canonical in Hv.
  assert (He : -1074 <= e) by lia.
  unfold Float64.mul, SFmul in Hc. cbn [xorb] in Hc.
  set (E0 := Z.min (e + en) (-1074)).
  destruct (binary_round_aux_scaled false (Z.pos (m * mn)) (e + en) E0 ltac:(lia) ltac:(lia))
    as (m3 & e3 & He3 & Hm3 & Hval & Hpack).
  rewrite Hpack in Hc.
  assert (Hlow : 2 ^ (-1074 - E0) <= Z.pos (m * mn) * 2 ^ (e + en - E0)).
  { rewrite Pos2Z.inj_mul.
    destruct (Z_lt_le_dec (e + en) (-1074)) as [Hsmall | Hbig].
    - replace E0 with (e + en) by lia. rewrite Z.sub_diag, Z.mul_1_r.
      destruct Hge as [Hen | Hmn]; [lia | ].
      assert (2 ^ (-1074 - (e + en)) <= 2 ^ (- en)) by (apply Z.pow_le_mono_r; lia).
      nia.
    - replace E0 with (-1074) by lia. change (2 ^ (-1074 - -1074)) with 1.
      pose proof (pow2_pos (e + en - -1074) ltac:(lia)). nia. }
  pose proof (pow2_pos (-1074 - E0) ltac:(lia)) as Hpmin.
  assert (Hpos : 0 < round_scaled E0 (Z.pos (m * mn) * 2 ^ (e + en - E0))).
  { apply Z.lt_le_trans with (round_scaled E0 (2 ^ (-1074 - E0))).
    - rewrite round_scaled_min by lia. exact Hpmin.
    - apply round_scaled_mono. lia. }
  rewrite <- Hval in Hpos.
  destruct m3 as [ | p3 | p3]; try lia.
  cbn [pack] in Hc. destruct (e3 <=? _); [ | discriminate].
  exact (math_ceil_positive _ _ _ Hc).
Qed.

(** *** A [frame_pct] of [1.0] requires every frame *)

Lemma required_count_one N :
  0 <= N < 2 ^ 53 -> required_count one N = Ok N.
Proof.
  intros [HN0 HN].
  destruct (Z.eq_dec N 0) as [-> | Hne]; [reflexivity | ].
  destruct (of_Z_exact N ltac:(lia)) as (ez & mn & en & Hez & Hen & Hval & Hof).
  unfold required_count, float_mul_int, float_of_int. rewrite Hof. cbn [bind].
  unfold one, Float64.mul, SFmul. cbn [xorb].
  set (E0 := -52 + ez).
  destruct (binary_round_aux_scaled false (Z.pos (4503599627370496 * mn)) (-52 + en) E0
              ltac:(lia) ltac:(lia))
    as (m3 & e3 & He3 & Hm3 & Hv3 & Hpack).
  rewrite Hpack.
  assert (Hscaled : Z.pos (4503599627370496 * mn) * 2 ^ (-52 + en - E0) = N * 2 ^ (- E0)).
  { rewrite Pos2Z.inj_mul. replace (-52 + en - E0) with (en - ez) by lia.
    rewrite <- Z.mul_assoc, Hval.
    replace (- E0) with (52 + - ez) by lia. rewrite Z.pow_add_r by lia.
    change (Z.pos 4503599627370496) with (2 ^ 52). ring. }
  rewrite Hscaled, round_scaled_int in Hv3 by lia.
  pose proof (pow2_pos (- E0) ltac:(lia)) as Hp.
  pose proof (pow2_pos (e3 - E0) ltac:(lia)) as Hp3.
  assert (Hpos : 0 < m3) by nia.
  assert (He : e3 - E0 < 53 - E0).
  { apply (lt_pow2_exponent m3); [lia | lia | ].
    rewrite Hv3. replace (53 - E0) with (53 + - E0) by lia.
    rewrite Z.pow_add_r by lia. apply Z.mul_lt_mono_pos_r; lia. }
  destruct (pack_positive false m3 e3 Hpos) as (p3 & Hp3eq & Hpk).
  { unfold Float64.emax, Float64.prec. lia. }
  destruct (math_ceil (pack false m3 e3)) as [r | err] eqn:Hc.
  - rewrite (math_ceil_pack false m3 e3 E0 r He3 Hm3 Hc). cbn [cond_Zopp].
    rewrite Hv3.
    replace (- E0) with (0 - E0) by lia.
    rewrite ceil_scaled_rescale by lia.
    unfold ceil_scaled. cbn. f_equal. lia.
  - rewrite Hpk in Hc. discriminate.
Qed.

(** *** What the two bounds mean for the decision *)

(** The decision of a returned analysis, column by column. *)
Lemma analyze_frames_black_cols frames threshold frame_pct a :
  analyze_frames frames threshold frame_pct = Ok a ->
  Z.of_nat (length frames) < 2 ^ 63 ->
  exists required,
    1 <= Z.of_nat (length frames) /\
    required_count frame_pct (Z.of_nat (length frames)) = Ok required /\
    black_cols a
    = map (fun i => required <=? Z.of_nat (black_frames threshold frames i))
          (seq 0 (a_width a)).
Proof.
  intros Ha HN.
  destruct (analyze_frames_ok_inv _ _ _ _ Ha) as (f0 & rest & required & -> & Hall & Hreq & ->).
  exists required. split; [cbn [length]; lia | split; [exact Hreq | ]].
  cbn [black_cols a_width].
  rewrite counts_after_eq_black_counts by exact HN.
  unfold black_counts. rewrite map_map. reflexivity.
Qed.

Lemma no_black_pillars (cols : list bool) :
  Forall (fun b => b = false) cols -> find_pillars cols = (0, 0)%nat.
Proof.
  intros Hall. rewrite find_pillars_runs.
  assert (Hp : forall l, Forall (fun b => b = false) l -> black_prefix l = 0%nat).
  { intros l Hl. destruct Hl as [ | b l Hb _]; [reflexivity | subst b; reflexivity]. }
  rewrite (Hp _ Hall), (Hp _ (Forall_rev Hall)). reflexivity.
Qed.

Lemma nth_decision (f : nat -> bool) (W i : nat) :
  nth i (map f (seq 0 W)) false = if (i <? W)%nat then f i else false.
Proof.
  destruct (Nat.ltb_spec i W) as [Hlt | Hge].
  - apply nth_map_seq. exact Hlt.
  - apply nth_overflow. rewrite length_map, length_seq. exact Hge.
Qed.

(** X10.  With a positive [frame_pct] at least one frame is required:
    a column that no frame flags black is never reported black, and
    when no frame flags any column no pillar is found. *)
Theorem positive_frame_pct_needs_a_frame
    (frames : list image) (threshold : Z) (m : positive) (e : Z) (a : analysis) :
  analyze_frames frames threshold (S754_finite false m e) = Ok a ->
  Z.of_nat (length frames) < 2 ^ 63 ->
  Float64.valid (S754_finite false m e) = true ->
  (forall i, black_frames threshold frames i = 0%nat ->
             nth i (black_cols a) false = false) /\
  ((forall i, (i < a_width a)%nat -> black_frames threshold frames i = 0%nat) ->
   find_pillars (black_cols a) = (0, 0)%nat).
Proof.
  intros Ha HN Hv.
  destruct (analyze_frames_black_cols _ _ _ _ Ha HN) as (required & Hlen & Hreq & Hcols).
  pose proof (required_count_positive m e _ required Hv Hlen Hreq) as Hr.
  rewrite Hcols. split.
  - intros i Hi. rewrite nth_decision, Hi.
    destruct (i <? a_width a)%nat; [apply Z.leb_gt; lia | reflexivity].
  - intros Hnone. apply no_black_pillars.
    apply Forall_map, Forall_forall. intros i Hi. apply in_seq in Hi.
    rewrite Hnone by lia. apply Z.leb_gt. lia.
Qed.

Lemma positive_frame_pct_needs_a_frame_witness :
  nth 1 [true; false; false] false = false.
Proof.
  apply (positive_frame_pct_needs_a_frame [sample_bright; sample_bright] 16
           8106479329266893 (-53)
           {| n_frames := 2; a_width := 3; a_height := 1;
              counts := [2; 0; 0];
              black_cols := [true; false; false];
              col_means := map (fun img => mean_axis0 (width img) (np_array img))
                             [sample_bright; sample_bright] |}).
  - vm_compute. reflexivity.
  - vm_compute. reflexivity.
  - reflexivity.
  - vm_compute. reflexivity.
Defined.

(** X11.  With a [frame_pct] of at most [1.0] (and fewer than [2 ^ 53]
    frames) no more than all frames are required: a column that every
    frame flags black is reported black, and when every frame flags
    every column both pillars are cut at half the width. *)
Theorem frame_pct_at_most_one
    (frames : list image) (threshold : Z) (frame_pct : float) (a : analysis) :
  analyze_frames frames threshold frame_pct = Ok a ->
  Z.of_nat (length frames) < 2 ^ 53 ->
  Float64.valid frame_pct = true ->
  Float64.leb frame_pct one = true ->
  (forall i, (i < a_width a)%nat ->
             black_frames threshold frames i = length frames ->
             nth i (black_cols a) false = true) /\
  ((forall i, (i < a_width a)%nat -> black_frames threshold frames i = length frames) ->
   find_pillars (black_cols a) = (a_width a / 2, a_width a / 2)%nat).
Proof.
  intros Ha HN Hv Hle.
  assert (HN' : Z.of_nat (length frames) < 2 ^ 63).
  { apply Z.lt_trans with (1 := HN). reflexivity. }
  destruct (analyze_frames_black_cols _ _ _ _ Ha HN') as (required & Hlen & Hreq & Hcols).
  pose proof (required_count_one (Z.of_nat (length frames)) ltac:(lia)) as Hone.
  pose proof (required_count_mono frame_pct one _ _ _ (Nat2Z.is_nonneg _)
                Hv eq_refl Hle Hreq Hone) as Hr.
  rewrite Hcols. split.
  - intros i Hi Hall. rewrite nth_decision, Hall.
    apply Nat.ltb_lt in Hi. rewrite Hi. apply Z.leb_le. exact Hr.
  - intros Hall.
    assert (Hblack : Forall (fun b => b = true)
                       (map (fun i => required <=? Z.of_nat (black_frames threshold frames i))
                            (seq 0 (a_width a)))).
    { apply Forall_map, Forall_forall. intros i Hi. apply in_seq in Hi.
      rewrite Hall by lia. apply Z.leb_le. exact Hr. }
    rewrite (all_black_pillars _ Hblack), length_map, length_seq. reflexivity.
Qed.

Lemma frame_pct_at_most_one_witness :
  nth 0 [true; false; false] false = true.
Proof.
  apply (frame_pct_at_most_one [sample_dark; sample_bright] 16 nine_tenths
           {| n_frames := 2; a_width := 3; a_height := 2;
              counts := [2; 1; 1];
              black_cols := [true; false; false];
              col_means := map (fun img => mean_axis0 (width img) (np_array img))
                             [sample_dark; sample_bright] |}).
  - vm_compute. reflexivity.
  - vm_compute. reflexivity.
  - reflexivity.
  - reflexivity.
  - cbn. lia.
  - vm_compute. reflexivity.
Defined.

(** ** [to_norm]: the normalized fields lie between [0.0] and [1.0] *)

(** X12.  For pillar widths of a frame ([0 <= leftPx <= W],
    [0 <= rightPx]) and a positive height, the four normalized fields
    that [to_norm] returns lie between [0.0] and [1.0]. *)
Theorem to_norm_normalized_range (leftPx rightPx W H : Z) (c : crop) :
  0 <= leftPx <= W -> 0 <= rightPx -> 0 < H ->
  to_norm leftPx rightPx W H = Ok c ->
  in_unit_interval (nx c) /\ in_unit_interval (ny c) /\
  in_unit_interval (nw c) /\ in_unit_interval (nh c).
Proof.
  intros Hl Hr HH Hc.
  destruct (to_norm_ok_inv _ _ _ _ _ Hc)
    as (HW & _ & qx & qy & qw & qh & Hqx & Hqy & Hqw & Hqh & ->).
  cbn [nx ny nw nh].
  split; [ | split; [ | split]];
    apply unit_form_in_unit_interval, float_round_unit_form.
  - apply (int_truediv_unit_form leftPx W); [lia | exact Hqx].
  - apply (int_truediv_unit_form 0 H); [lia | exact Hqy].
  - apply (int_truediv_unit_form (Z.max 0 (W - leftPx - rightPx)) W); [lia | exact Hqw].
  - apply (int_truediv_unit_form H H); [lia | exact Hqh].
Qed.

Lemma to_norm_normalized_range_witness :
  in_unit_interval (S754_finite false 5404319552844595 (-54)).
Proof.
  apply (to_norm_normalized_range 3 0 10 6
           {| x := 3; y := 0; w := 7; h := 6;
              nx := S754_finite false 5404319552844595 (-54);
              ny := S754_zero false;
              nw := S754_finite false 6305039478318694 (-53);
              nh := one |}).
  - lia.
  - lia.
  - lia.
  - vm_compute. reflexivity.
Defined.

(** ** [find_pillars] is monotone, and so is the pipeline in [frame_pct] *)

Local Close Scope Z_scope.

Lemma black_prefix_mono cols cols' :
  Forall2 (fun b b' : bool => b = true -> b' = true) cols cols' ->
  black_prefix cols <= black_prefix cols'.
Proof.
  induction 1 as [ | b b' l l' Hb _ IH]; [reflexivity | ].
  destruct b; cbn [black_prefix]; [ | lia].
  rewrite (Hb eq_refl). lia.
Qed.

Lemma Forall2_rev_both {A B : Type} (R : A -> B -> Prop) l l' :
  Forall2 R l l' -> Forall2 R (rev l) (rev l').
Proof.
  induction 1 as [ | a b l l' Hab _ IH]; [constructor | ].
  cbn [rev]. apply Forall2_app; [exact IH | repeat constructor; exact Hab].
Qed.

Lemma find_pillars_mono cols cols' :
  Forall2 (fun b b' : bool => b = true -> b' = true) cols cols' ->
  fst (find_pillars cols) <= fst (find_pillars cols') /\
  snd (find_pillars cols) <= snd (find_pillars cols').
Proof.
  intros Hle. rewrite !find_pillars_runs. cbn [fst snd].
  pose proof (Forall2_length Hle) as Hlen.
  pose proof (black_prefix_mono _ _ Hle).
  pose proof (black_prefix_mono _ _ (Forall2_rev_both _ _ _ Hle)).
  rewrite Hlen. lia.
Qed.

(** X13.  Blackening columns never narrows a pillar: if every black
    column of [cols] is black in [cols'] (two vectors of one length),
    both widths found in [cols'] are at least those found in [cols]. *)
Theorem find_pillars_monotone (cols cols' : list bool) :
  Forall2 (fun b b' : bool => b = true -> b' = true) cols cols' ->
  fst (find_pillars cols) <= fst (find_pillars cols') /\
  snd (find_pillars cols) <= snd (find_pillars cols').
Proof.
  exact (find_pillars_mono cols cols').
Qed.

Lemma find_pillars_monotone_witness :
  fst (find_pillars [true; false; false; false]) <=
  fst (find_pillars [true; true; false; true]).
Proof.
  apply (find_pillars_monotone [true; false; false; false] [true; true; false; true]).
  repeat constructor; discriminate.
Defined.

Lemma Forall2_map_same {X A B : Type} (R : A -> B -> Prop) (f : X -> A) (g : X -> B) l :
  (forall x, R (f x) (g x)) -> Forall2 R (map f l) (map g l).
Proof.
  intros HR. induction l as [ | x l IH]; cbn [map]; constructor; auto.
Qed.

(** X14.  Raising [frame_pct] never widens a pillar: on the same frames
    and threshold, the analysis at the larger [frame_pct] reports no
    black column that the one at the smaller does not, and the pillars
    found from it are at most as wide. *)
Theorem raising_frame_pct_narrows_pillars
    (frames : list image) (threshold : Z) (frame_pct1 frame_pct2 : float)
    (a1 a2 : analysis) :
  Float64.valid frame_pct1 = true -> Float64.valid frame_pct2 = true ->
  Float64.leb frame_pct1 frame_pct2 = true ->
  analyze_frames frames threshold frame_pct1 = Ok a1 ->
  analyze_frames frames threshold frame_pct2 = Ok a2 ->
  counts a2 = counts a1 /\
  Forall2 (fun b2 b1 : bool => b2 = true -> b1 = true) (black_cols a2) (black_cols a1) /\
  fst (find_pillars (black_cols a2)) <= fst (find_pillars (black_cols a1)) /\
  snd (find_pillars (black_cols a2)) <= snd (find_pillars (black_cols a1)).
Proof.
  intros Hv1 Hv2 Hle Ha1 Ha2.
  destruct (analyze_frames_ok_inv _ _ _ _ Ha1) as (f0 & rest & r1 & -> & _ & Hr1 & ->).
  destruct (analyze_frames_ok_inv _ _ _ _ Ha2) as (g0 & rest' & r2 & Hf & _ & Hr2 & ->).
  injection Hf as <- <-.
  pose proof (required_count_mono _ _ _ _ _ (Nat2Z.is_nonneg _) Hv1 Hv2 Hle Hr1 Hr2) as Hr.
  cbn [counts black_cols].
  assert (Hcols : Forall2 (fun b2 b1 : bool => b2 = true -> b1 = true)
                    (map (fun c => (r2 <=? c)%Z)
                       (counts_after threshold (width f0)
                          (astype_int (map (flag_at threshold f0) (seq 0 (width f0)))) rest))
                    (map (fun c => (r1 <=? c)%Z)
                       (counts_after threshold (width f0)
                          (astype_int (map (flag_at threshold f0) (seq 0 (width f0)))) rest))).
  { apply Forall2_map_same. intros c Hc.
    apply Z.leb_le in Hc. apply Z.leb_le. lia. }
  split; [reflexivity | split; [exact Hcols | ]].
  apply find_pillars_mono. exact Hcols.
Qed.

Lemma raising_frame_pct_narrows_pillars_witness :
  fst (find_pillars [true; false; false]) <= fst (find_pillars [true; true; true]).
Proof.
  apply (raising_frame_pct_narrows_pillars [sample_dark; sample_bright] 16
           one_half nine_tenths
           {| n_frames := 2; a_width := 3; a_height := 2;
              counts := [2; 1; 1]%Z;
              black_cols := [true; true; true];
              col_means := map (fun img => mean_axis0 (width img) (np_array img))
                             [sample_dark; sample_bright] |}
           {| n_frames := 2; a_width := 3; a_height := 2;
              counts := [2; 1; 1]%Z;
              black_cols := [true; false; false];
              col_means := map (fun img => mean_axis0 (width img) (np_array img))
                             [sample_dark; sample_bright] |}).
  - reflexivity.
  - reflexivity.
  - reflexivity.
  - vm_compute. reflexivity.
  - vm_compute. reflexivity.
Defined.

Local Open Scope Z_scope.

(** ** The nominal range of [frame_pct]: the pipeline returns *)

Lemma ceil_scaled_int E0 N : E0 <= 0 -> ceil_scaled E0 (N * 2 ^ (- E0)) = N.
Proof.
  intros HE. replace (- E0) with (0 - E0) by lia.
  rewrite ceil_scaled_rescale by lia. unfold ceil_scaled. cbn. lia.
Qed.

Lemma math_ceil_pack_ok m e :
  0 <= m -> e <= Float64.emax - Float64.prec ->
  exists r, math_ceil (pack false m e) = Ok r.
Proof.
  intros Hm He. destruct m as [ | p | p]; try lia; cbn [pack].
  - eexists. reflexivity.
  - apply Z.leb_le in He. rewrite He. eexists. reflexivity.
Qed.

(** For a [frame_pct] between [0.0] and [1.0] and fewer than [2 ^ 53]
    frames, the required count exists and lies between [0] and the
    number of frames. *)
Lemma required_count_unit p N :
  0 <= N < 2 ^ 53 ->
  Float64.valid p = true ->
  Float64.leb Float64.zero p = true -> Float64.leb p one = true ->
  exists r, required_count p N = Ok r /\ 0 <= r <= N.
Proof.
  intros [HN0 HN] Hv H0 H1.
  destruct (Z.eq_dec N 0) as [-> | Hne].
  { exists 0. split; [ | lia].
    destruct p as [s | [ | ] | | [ | ] m e]; try discriminate; reflexivity. }
  destruct (of_Z_exact N ltac:(lia)) as (ez & mn & en & Hez & Hen & HvalN & Hof).
  unfold required_count, float_mul_int, float_of_int. rewrite Hof. cbn [bind].
  destruct p as [s | [ | ] | | [ | ] m e]; try discriminate.
  { exists 0. split; [reflexivity | lia]. }
  set (B := Z.min e (-52)).
  pose proof (scaled_value_le B (S754_finite false m e) one I I Hv eq_refl
                ltac:(cbn; lia) ltac:(cbn; lia) H1) as Hle.
  cbn [scaled_value one cond_Zopp] in Hle.
  set (E0 := B + ez).
  unfold Float64.mul, SFmul. cbn [xorb].
  destruct (binary_round_aux_scaled false (Z.pos (m * mn)) (e + en) E0 ltac:(lia) ltac:(lia))
    as (m3 & e3 & He3 & Hm3 & Hval & ->).
  pose proof (pow2_pos (e - B) ltac:(lia)) as Hp1.
  pose proof (pow2_pos (en - ez) ltac:(lia)) as Hp2.
  pose proof (pow2_pos (- ez) ltac:(lia)) as Hp3.
  pose proof (pow2_pos (- E0) ltac:(lia)) as Hp4.
  pose proof (pow2_pos (e3 - E0) ltac:(lia)) as Hp5.
  assert (HV : Z.pos (m * mn) * 2 ^ (e + en - E0) <= N * 2 ^ (- E0)).
  { rewrite Pos2Z.inj_mul.
    replace (e + en - E0) with ((e - B) + (en - ez)) by lia.
    rewrite Z.pow_add_r by lia.
    replace (Z.pos m * Z.pos mn * (2 ^ (e - B) * 2 ^ (en - ez)))
      with (Z.pos m * 2 ^ (e - B) * (Z.pos mn * 2 ^ (en - ez))) by ring.
    rewrite HvalN.
    replace (- E0) with (- B + - ez) by lia. rewrite Z.pow_add_r by lia.
    assert (Hone : 4503599627370496 * 2 ^ (-52 - B) = 2 ^ (- B)).
    { change 4503599627370496 with (2 ^ 52). rewrite <- Z.pow_add_r by lia.
      f_equal. lia. }
    rewrite Hone in Hle.
    replace (N * (2 ^ (- B) * 2 ^ (- ez))) with (2 ^ (- B) * (N * 2 ^ (- ez))) by ring.
    apply Z.mul_le_mono_nonneg_r; [nia | exact Hle]. }
  assert (Hround : m3 * 2 ^ (e3 - E0) <= N * 2 ^ (- E0)).
  { rewrite Hval.
    apply Z.le_trans with (round_scaled E0 (N * 2 ^ (- E0))).
    - apply round_scaled_mono. split; [ | exact HV]. nia.
    - rewrite round_scaled_int by lia. lia. }
  assert (He : m3 = 0 \/ e3 <= Float64.emax - Float64.prec).
  { destruct (Z.eq_dec m3 0) as [ | Hnz]; [left; assumption | right].
    assert (e3 - E0 < 53 - E0).
    { apply (lt_pow2_exponent m3); [lia | lia | ].
      apply Z.le_lt_trans with (1 := Hround).
      replace (53 - E0) with (53 + - E0) by lia. rewrite Z.pow_add_r by lia.
      apply Z.mul_lt_mono_pos_r; lia. }
    unfold Float64.emax, Float64.prec. lia. }
  assert (Hok : exists r, math_ceil (pack false m3 e3) = Ok r).
  { destruct He as [-> | He]; [eexists; reflexivity | ].
    apply math_ceil_pack_ok; assumption. }
  destruct Hok as [r Hr]. exists r. split; [exact Hr | ].
  rewrite (math_ceil_pack false m3 e3 E0 r He3 Hm3 Hr). cbn [cond_Zopp].
  split.
  - apply Z.le_trans with (ceil_scaled E0 0).
    + rewrite ceil_scaled_0. lia.
    + apply ceil_scaled_mono. nia.
  - apply Z.le_trans with (ceil_scaled E0 (N * 2 ^ (- E0))).
    + apply ceil_scaled_mono. exact Hround.
    + rewrite ceil_scaled_int by lia. lia.
Qed.

(** X15.  For frames of one width, fewer than [2 ^ 53] of them, a
    threshold that binary64 holds exactly ([0 <= t < 2 ^ 53]) and a
    [frame_pct] between [0.0] and [1.0], [analyze_frames] returns an
    analysis, and the count it required lies between [0] and the
    number of frames. *)
Theorem analyze_frames_returns
    (f0 : image) (rest : list image) (threshold : Z) (frame_pct : float) :
  let frames := f0 :: rest in
  Forall (fun img => width img = width f0) rest ->
  0 <= threshold < 2 ^ 53 ->
  Z.of_nat (length frames) < 2 ^ 53 ->
  Float64.valid frame_pct = true ->
  Float64.leb Float64.zero frame_pct = true ->
  Float64.leb frame_pct one = true ->
  exists a required,
    analyze_frames frames threshold frame_pct = Ok a /\
    required_count frame_pct (n_frames a) = Ok required /\
    0 <= required <= n_frames a /\
    black_cols a = map (fun c => required <=? c) (counts a).
Proof.
  intros frames Hall Ht HN Hv H0 H1.
  pose proof (float_of_int_small threshold Ht) as Hthr.
  destruct (required_count_unit frame_pct (Z.of_nat (length frames))
              ltac:(lia) Hv H0 H1) as (required & Hreq & Hr).
  assert (HN' : Z.of_nat (length frames) < 2 ^ 63).
  { apply Z.lt_trans with (1 := HN). reflexivity. }
  subst frames. rewrite analyze_frames_same_width by assumption.
  rewrite Hreq. cbn [bind]. eexists. exists required.
  split; [reflexivity | ]. cbn [n_frames black_cols counts].
  repeat split; try assumption; lia.
Qed.

Lemma analyze_frames_returns_witness :
  exists a required,
    analyze_frames [sample_dark; sample_bright] 16 nine_tenths = Ok a /\
    required_count nine_tenths (n_frames a) = Ok required /\
    0 <= required <= n_frames a /\
    black_cols a = map (fun c => required <=? c) (counts a).
Proof.
  apply (analyze_frames_returns sample_dark [sample_bright] 16 nine_tenths).
  - repeat constructor.
  - lia.
  - vm_compute. reflexivity.
  - reflexivity.
  - reflexivity.
  - reflexivity.
Defined.

(** X16.  Once these frames are extracted: for frames of one positive
    width, a first frame of positive height, fewer than [2 ^ 53]
    frames, a threshold that binary64 holds exactly
    ([0 <= t < 2 ^ 53]) and a [frame_pct] between [0.0] and [1.0],
    [main] writes a report to the standard output: neither the
    analysis nor any of the divisions fails. *)
Theorem main_prints_report
    (f0 : image) (rest : list image) (threshold : Z) (frame_pct : float) :
  let frames := f0 :: rest in
  Forall (fun img => width img = width f0) rest ->
  (0 < width f0)%nat -> (0 < height f0)%nat ->
  0 <= threshold < 2 ^ 53 ->
  Z.of_nat (length frames) < 2 ^ 53 ->
  Float64.valid frame_pct = true ->
  Float64.leb Float64.zero frame_pct = true ->
  Float64.leb frame_pct one = true ->
  exists out, main frames threshold frame_pct = Printed out.
Proof.
  intros frames Hall HW HH Ht HN Hv H0 H1.
  pose proof (float_of_int_small threshold Ht) as Hthr.
  destruct (required_count_unit frame_pct (Z.of_nat (length frames))
              ltac:(lia) Hv H0 H1) as (required & Hreq & Hr).
  assert (HN' : Z.of_nat (length frames) < 2 ^ 63).
  { apply Z.lt_trans with (1 := HN). reflexivity. }
  subst frames. unfold main. cbn [length Nat.eqb].
  rewrite analyze_frames_same_width by assumption.
  rewrite Hreq. cbn [bind a_width a_height black_cols n_frames].
  set (cols := map (fun c => required <=? c) (black_counts threshold (f0 :: rest) (width f0))).
  assert (Hlen : length cols = width f0).
  { subst cols. unfold black_counts. rewrite !length_map, length_seq. reflexivity. }
  destruct (find_pillars_le_half cols) as [Hl Hrt]. rewrite Hlen in Hl, Hrt.
  pose proof (half_plus_half (width f0)) as Hhalf.
  destruct (to_norm_ok (Z.of_nat (fst (find_pillars cols)))
              (Z.of_nat (snd (find_pillars cols)))
              (Z.of_nat (width f0)) (Z.of_nat (height f0))
              ltac:(lia) ltac:(lia) ltac:(lia) ltac:(lia))
    as (qx & qw & qh & Hqx & _ & _ & Hn).
  rewrite Hn. cbn [bind]. rewrite Hqx. cbn [bind].
  destruct (int_truediv_ok (Z.of_nat (snd (find_pillars cols))) (Z.of_nat (width f0))
              ltac:(lia) ltac:(lia)) as [pr Hpr].
  rewrite Hpr. cbn [bind]. eexists. reflexivity.
Qed.

Lemma main_prints_report_witness :
  exists out, main [sample_dark; sample_bright] 16 nine_tenths = Printed out.
Proof.
  apply (main_prints_report sample_dark [sample_bright] 16 nine_tenths).
  - repeat constructor.
  - cbn. lia.
  - cbn. lia.
  - lia.
  - vm_compute. reflexivity.
  - reflexivity.
  - reflexivity.
  - reflexivity.
Defined.

(** ** Black columns are flagged, and black bars are found *)

Lemma of_Z_positive_cases N :
  1 <= N ->
  (exists mn en, Float64.of_Z N = S754_finite false mn en) \/
  Float64.of_Z N = S754_infinity false.
Proof.
  intros HN. destruct (of_Z_ge_1 N HN) as [Hnz _].
  destruct (of_Z_scaled N ltac:(lia)) as (ez & m2 & e2 & _ & _ & Hm2 & _ & Hof).
  rewrite Hof in *. destruct m2 as [ | p | p]; try lia; cbn [pack] in *.
  - exfalso. exact (Hnz false eq_refl).
  - destruct (e2 <=? _); eauto.
Qed.

Lemma leb_zero_of_Z t : 0 <= t -> Float64.leb Float64.zero (Float64.of_Z t) = true.
Proof.
  intros Ht. destruct (Z.eq_dec t 0) as [-> | Hne]; [reflexivity | ].
  destruct (of_Z_positive_cases t ltac:(lia)) as [(mn & en & ->) | ->]; reflexivity.
Qed.

Lemma fold_add_zeros (l : list float) :
  Forall (fun f => f = Float64.zero) l ->
  fold_left Float64.add l Float64.zero = Float64.zero.
Proof.
  induction 1 as [ | f l -> _ IH]; [reflexivity | exact IH].
Qed.

Lemma black_column_flag (img : image) (threshold : Z) (i : nat) :
  pixels img <> [] ->
  0 <= threshold ->
  Forall (fun row => nth i row 0 = 0) (pixels img) ->
  flag_at threshold img i = true.
Proof.
  intros Hrows Ht Hblack. unfold flag_at.
  replace (column_mean (np_array img) i) with Float64.zero;
    [apply leb_zero_of_Z; exact Ht | ].
  unfold column_mean, np_array, column.
  rewrite fold_add_zeros.
  - rewrite length_map.
    assert (HN : 1 <= Z.of_nat (length (pixels img))).
    { destruct (pixels img); [contradiction | cbn [length]; lia]. }
    destruct (of_Z_positive_cases _ HN) as [(mn & en & ->) | ->]; reflexivity.
  - rewrite !map_map. apply Forall_map.
    refine (Forall_impl _ _ Hblack). intros row Hrow.
    change 0 with (uint8 0) at 1. rewrite map_nth, Hrow. reflexivity.
Qed.

(** X17.  For a threshold that binary64 holds exactly
    ([0 <= t < 2 ^ 53]) and a frame with at least one row,
    [column_blackness] returns, for a column whose samples are all
    [0], the mean [+0.0] and the flag true. *)
Theorem black_column_is_flagged (img : image) (threshold : Z) (i : nat) :
  pixels img <> [] ->
  0 <= threshold < 2 ^ 53 ->
  (i < width img)%nat ->
  Forall (fun row => nth i row 0 = 0) (pixels img) ->
  exists flags means,
    column_blackness img threshold = Ok (flags, means) /\
    nth i means S754_nan = Float64.zero /\
    nth i flags false = true.
Proof.
  intros Hrows Ht Hi Hblack.
  pose proof (float_of_int_small threshold Ht) as Hthr.
  rewrite column_blackness_eq by exact Hthr.
  eexists. eexists. split; [reflexivity | ].
  unfold mean_axis0. rewrite !nth_map_seq by exact Hi.
  assert (Hmean : column_mean (np_array img) i = Float64.zero).
  { unfold column_mean, np_array, column.
    rewrite fold_add_zeros.
    - rewrite length_map.
      assert (HN : 1 <= Z.of_nat (length (pixels img))).
      { destruct (pixels img); [contradiction | cbn [length]; lia]. }
      destruct (of_Z_positive_cases _ HN) as [(mn & en & ->) | ->]; reflexivity.
    - rewrite !map_map. apply Forall_map.
      refine (Forall_impl _ _ Hblack). intros row Hrow.
      change 0 with (uint8 0) at 1. rewrite map_nth, Hrow. reflexivity. }
  split; [exact Hmean | ].
  unfold flag_at. rewrite Hmean. apply leb_zero_of_Z. lia.
Qed.

Lemma black_column_is_flagged_witness :
  exists flags means,
    column_blackness sample_bright 16 = Ok (flags, means) /\
    nth 0 means S754_nan = Float64.zero /\
    nth 0 flags false = true.
Proof.
  apply (black_column_is_flagged sample_bright 16 0).
  - discriminate.
  - lia.
  - cbn. lia.
  - repeat constructor.
Defined.

Lemma black_prefix_ge (cols : list bool) (k : nat) :
  (k <= length cols)%nat ->
  (forall i, (i < k)%nat -> nth i cols false = true) ->
  (k <= black_prefix cols)%nat.
Proof.
  intros Hk Hrun.
  pose proof (count_while_maximal_run cols (fun i => i)) as (_ & _ & Hend).
  rewrite count_while_prefix in Hend by lia. cbn [skipn Nat.add] in Hend.
  pose proof (black_prefix_le cols) as Hle.
  destruct (Nat.lt_ge_cases (black_prefix cols) k) as [Hlt | Hge]; [ | exact Hge].
  rewrite Hrun in Hend by exact Hlt. specialize (Hend ltac:(lia)). discriminate.
Qed.

Lemma black_frames_all threshold frames i :
  Forall (fun img => flag_at threshold img i = true) frames ->
  black_frames threshold frames i = length frames.
Proof.
  unfold black_frames. induction 1 as [ | img l Himg _ IH]; [reflexivity | ].
  cbn [filter]. rewrite Himg. cbn [length]. rewrite IH. reflexivity.
Qed.

(** X18.  Black bars are found.  If in every frame (of one width [W],
    with at least one row) the [k] leftmost and the [k] rightmost
    columns hold only samples [0], then for every threshold that
    binary64 holds exactly ([0 <= t < 2 ^ 53]) and every [frame_pct]
    between [0.0] and [1.0] the analysis returns and each pillar is at
    least [min(k, W // 2)] wide. *)
Theorem black_bars_are_found
    (f0 : image) (rest : list image) (threshold : Z) (frame_pct : float) (k : nat) :
  let frames := f0 :: rest in
  let W := width f0 in
  Forall (fun img => width img = W) rest ->
  Z.of_nat (length frames) < 2 ^ 53 ->
  (k <= W)%nat ->
  Forall (fun img =>
            pixels img <> [] /\
            forall i, (i < k \/ W - k <= i)%nat ->
                      Forall (fun row => nth i row 0 = 0) (pixels img)) frames ->
  0 <= threshold < 2 ^ 53 ->
  Float64.valid frame_pct = true ->
  Float64.leb Float64.zero frame_pct = true ->
  Float64.leb frame_pct one = true ->
  exists a,
    analyze_frames frames threshold frame_pct = Ok a /\
    (Nat.min k (W / 2) <= fst (find_pillars (black_cols a)))%nat /\
    (Nat.min k (W / 2) <= snd (find_pillars (black_cols a)))%nat.
Proof.
  intros frames W Hall HN Hk Hbars Ht Hv H0 H1.
  pose proof (float_of_int_small threshold Ht) as Hthr.
  destruct (required_count_unit frame_pct (Z.of_nat (length frames))
              ltac:(lia) Hv H0 H1) as (required & Hreq & Hr).
  assert (HN' : Z.of_nat (length frames) < 2 ^ 63).
  { apply Z.lt_trans with (1 := HN). reflexivity. }
  subst frames. rewrite analyze_frames_same_width by assumption.
  rewrite Hreq. cbn [bind]. eexists. split; [reflexivity | ].
  cbn [black_cols]. fold W.
  set (cols := map (fun c => required <=? c) (black_counts threshold (f0 :: rest) W)).
  assert (Hlen : length cols = W).
  { subst cols. unfold black_counts. rewrite !length_map, length_seq. reflexivity. }
  assert (Hcol : forall i, (i < W)%nat -> (i < k \/ W - k <= i)%nat ->
                           nth i cols false = true).
  { intros i Hi Hedge. subst cols. unfold black_counts. rewrite map_map.
    rewrite (nth_map_seq
               (fun j => required <=? Z.of_nat (black_frames threshold (f0 :: rest) j)))
      by exact Hi.
    rewrite black_frames_all.
    - apply Z.leb_le. lia.
    - refine (Forall_impl _ _ Hbars). intros img [Hrows Hzero].
      apply (black_column_flag img threshold i Hrows ltac:(lia) (Hzero i Hedge)). }
  rewrite find_pillars_runs. cbn [fst snd]. rewrite Hlen.
  split; apply Nat.min_le_compat_r; apply black_prefix_ge.
  - lia.
  - intros i Hi. apply Hcol; lia.
  - rewrite length_rev. lia.
  - intros i Hi. rewrite rev_nth by lia. apply Hcol; lia.
Qed.

Lemma black_bars_are_found_witness :
  exists a,
    analyze_frames [pillarboxed; pillarboxed] 16 nine_tenths = Ok a /\
    (Nat.min 1 (width pillarboxed / 2) <= fst (find_pillars (black_cols a)))%nat /\
    (Nat.min 1 (width pillarboxed / 2) <= snd (find_pillars (black_cols a)))%nat.
Proof.
  apply (black_bars_are_found pillarboxed [pillarboxed] 16 nine_tenths 1).
  - repeat constructor.
  - vm_compute. reflexivity.
  - cbn. lia.
  - assert (Hp : pixels pillarboxed <> [] /\
                 forall i, (i < 1 \/ width pillarboxed - 1 <= i)%nat ->
                           Forall (fun row => nth i row 0 = 0) (pixels pillarboxed)).
    { split; [discriminate | ]. intros i Hi. cbn in Hi.
      destruct i as [ | [ | [ | [ | [ | i]]]]];
        try (exfalso; lia); repeat constructor; destruct i; reflexivity. }
    constructor; [exact Hp | constructor; [exact Hp | constructor]].
  - lia.
  - reflexivity.
  - reflexivity.
  - reflexivity.
Defined.
